(** * Overleaf MCP server: section model, path resolver, project registry
      and mutation pipeline

    Shallow embedding of [src/overleaf_mcp/server.py] and of the HTTP
    wrapper of its tools in [src/overleaf_mcp/fastapi_server.py].

    Conventions of the embedding.
    - A Python [str] is a list of characters, [str := list ascii]; the
      characters are the code points 0..255.  Slices [s[a:b]], [s[:a]] and
      [s[a:]] with non-negative bounds are [slice a b s], [take a s] and
      [drop a s]; all three clamp at the end of the text like Python does.
    - A file's content is the text that [read_text] returns and that
      [write_text] receives.
    - Regular expressions are embedded as backtracking matchers written in
      continuation-passing style, one combinator per regex construct, tried
      in the order in which Python's [re] tries them. *)

From Stdlib Require Import Ascii String.
From stdpp Require Import base option list strings sorting gmap.

Open Scope list_scope.

(** ** Text *)

Definition str := list ascii.

Definition txt (x : string) : str := list_ascii_of_string x.

Definition nl : ascii := "010"%char.

(** [s[a:b]] for [0 <= a], [0 <= b]. *)
Definition slice (a b : nat) (s : str) : str := take (b - a) (drop a s).

(** [c.isspace()] on the code points 0..255: TAB, LF, VT, FF, CR, the four
    separators FS, GS, RS, US, the space, NEL and the no-break space. *)
Definition isspace (c : ascii) : bool :=
  let n := nat_of_ascii c in
  ((9 <=? n) && (n <=? 13)) || ((28 <=? n) && (n <=? 32))
  || (n =? 133) || (n =? 160).

Fixpoint lstrip (s : str) : str :=
  match s with
  | c :: r => if isspace c then lstrip r else s
  | [] => []
  end.

Definition rstrip (s : str) : str := rev (lstrip (rev s)).

(** [s.strip()] *)
Definition strip (s : str) : str := rstrip (lstrip s).

(** [c.lower()] on the code points 0..255: A-Z, and the Latin-1 capitals
    U+00C0..U+00DE without the multiplication sign U+00D7. *)
Definition lower_char (c : ascii) : ascii :=
  let n := nat_of_ascii c in
  if ((65 <=? n) && (n <=? 90))
     || ((192 <=? n) && (n <=? 222) && negb (n =? 215))
  then ascii_of_nat (n + 32) else c.

(** [s.lower()] *)
Definition lower (s : str) : str := map lower_char s.

(** ** Regular expressions as backtracking matchers

    A matcher takes the text that is left and a continuation for the rest of
    the pattern; it answers with the continuation's first success. *)

(** A literal: the text has to start with [p]. *)
Fixpoint lit (p s : str) : option str :=
  match p, s with
  | [], _ => Some s
  | a :: p', b :: s' => if decide (a = b) then lit p' s' else None
  | _ :: _, [] => None
  end.

(** [(k1|k2|...)], the alternatives tried from left to right; the
    continuation learns which alternative was taken (the group's text). *)
Fixpoint alt {A} (ks : list str) (s : str) (k : str → str → option A)
  : option A :=
  match ks with
  | [] => None
  | kd :: ks' =>
      match lit kd s ≫= k kd with
      | Some x => Some x
      | None => alt ks' s k
      end
  end.

(** [\*?], greedy: first with the star taken, then without it. *)
Definition opt_star {A} (s : str) (k : str → option A) : option A :=
  match lit (txt "*") s ≫= k with
  | Some x => Some x
  | None => k s
  end.

(** [[^}]*], greedy: the longest run first, then shorter ones.  [taken] is
    what the group has matched so far. *)
Fixpoint star_not_brace {A} (taken s : str) (k : str → str → option A)
  : option A :=
  match s with
  | c :: r =>
      if decide (c = "}"%char) then k taken s
      else match star_not_brace (taken ++ [c]) r k with
           | Some x => Some x
           | None => k taken s
           end
  | [] => k taken s
  end.

(** [[^}]+] *)
Definition plus_not_brace {A} (s : str) (k : str → str → option A)
  : option A :=
  match s with
  | c :: r =>
      if decide (c = "}"%char) then None else star_not_brace [c] r k
  | [] => None
  end.

(** The alternatives of [SECTION_PATTERN], in the order of the source. *)
Definition KINDS : list str :=
  [txt "part"; txt "chapter"; txt "section"; txt "subsection";
   txt "subsubsection"; txt "paragraph"; txt "subparagraph"].

(** [SECTION_PATTERN] tried at the head of [s]:
    [\\(part|...|subparagraph)\*?\{([^}]+)\}].  The answer is group 1,
    group 2 and the text left after the match. *)
Definition SECTION_PATTERN (s : str) : option (str * str * str) :=
  s1 ← lit (txt "\") s;
  alt KINDS s1 (λ kd s2,
    opt_star s2 (λ s3,
      s4 ← lit (txt "{") s3;
      plus_not_brace s4 (λ title s5,
        s6 ← lit (txt "}") s5;
        Some (kd, title, s6)))).

(** A match object: [m.start()], [m.end()], [m.group(1)], [m.group(2)]. *)
Record Match := mkMatch {
  m_start : nat;
  m_end : nat;
  group1 : str;
  group2 : str
}.

(** [SECTION_PATTERN.finditer]: the scan goes through the text from left to
    right; after a match at [pos] it resumes at the end of that match, so
    the [skip] characters still inside the match are passed over. *)
Fixpoint finditer_from (pos skip : nat) (s : str) : list Match :=
  match s with
  | [] => []
  | _ :: r =>
      match skip with
      | S skip' => finditer_from (S pos) skip' r
      | 0 =>
          match SECTION_PATTERN s with
          | Some (kd, title, rest) =>
              let len := length s - length rest in
              mkMatch pos (pos + len) kd title
                :: finditer_from (S pos) (len - 1) r
          | None => finditer_from (S pos) 0 r
          end
      end
  end.

Definition finditer (content : str) : list Match := finditer_from 0 0 content.

(** ** Sections *)

Record Section := mkSection {
  type : str;
  title : str;
  preview : str;
  start_pos : nat;
  end_pos : nat
}.

(** The dictionary that [parse_sections] appends for the match [m], once
    [end_pos] is known. *)
Definition make_section (content : str) (m : Match) (end_pos : nat)
  : Section :=
  let section_content := strip (slice (m_end m) end_pos content) in
  let preview :=
    if decide (200 < length section_content)
    then take 200 section_content ++ txt "..."
    else section_content in
  mkSection (group1 m) (group2 m) preview (m_start m) end_pos.

(** The body of the loop of [parse_sections] for the [i]-th match. *)
Definition section_of (content : str) (matches : list Match)
    (i : nat) (m : Match) : Section :=
  let end_pos :=
    match matches !! (i + 1) with
    | Some next => m_start next
    | None => length content
    end in
  make_section content m end_pos.

Definition parse_sections (content : str) : list Section :=
  let matches := finditer content in
  imap (section_of content matches) matches.

(** The loop shared by [get_section_by_title] and [update_section]: the
    first section whose lower-cased title is the lower-cased [title]. *)
Definition title_matches (t : str) (s : Section) : bool :=
  bool_decide (lower (title s) = lower t).

Definition find_section (sections : list Section) (t : str)
  : option Section :=
  List.find (title_matches t) sections.

Definition get_section_by_title (content t : str) : option str :=
  section ← find_section (parse_sections content) t;
  Some (slice (start_pos section) (end_pos section) content).

(** The header pattern of [update_section] tried at the head of [s]:
    [\\<type>\*?\{<re.escape(title)>\}], the escaped title being a literal.
    The answer is the text left after the match. *)
Definition header_pattern (kd t : str) (s : str) : option str :=
  s1 ← lit (txt "\") s;
  s2 ← lit kd s1;
  opt_star s2 (λ s3,
    s4 ← lit (txt "{") s3;
    s5 ← lit t s4;
    lit (txt "}") s5).

(** [re.search]: the leftmost position at which the pattern matches; the
    answer is [(m.start(), m.end())]. *)
Fixpoint re_search_from (pos : nat) (kd t : str) (s : str)
  : option (nat * nat) :=
  match header_pattern kd t s with
  | Some rest => Some (pos, pos + (length s - length rest))
  | None =>
      match s with
      | [] => None
      | _ :: r => re_search_from (S pos) kd t r
      end
  end.

Definition re_search (kd t content : str) : option (nat * nat) :=
  re_search_from 0 kd t content.

(** The text part of the [update_section] branch of [execute_tool]: from
    [parse_sections(content)] to [new_file_content]. *)
Inductive update_result :=
  | SectionNotFound (available : list str)
  | HeaderNotLocated
  | NewFileContent (new_file_content : str).

Definition update_section_text (content section_title new_content : str)
  : update_result :=
  let sections := parse_sections content in
  match find_section sections section_title with
  | None => SectionNotFound (map title sections)
  | Some section =>
      match re_search (type section) (title section) content with
      | None => HeaderNotLocated
      | Some (_, header_end) =>
          NewFileContent
            (take header_end content
             ++ [nl] ++ strip new_content ++ [nl]
             ++ drop (end_pos section) content)
      end
  end.

(** ** Exceptions and results *)

(** The exceptions that the modelled code raises or lets through; each
    carries the text that [str(e)] gives. *)
Inductive exn :=
  | ValueError (msg : str)
  | KeyError (msg : str)
  | OSError (msg : str)
  | GitCommandError (msg : str).

Definition exn_str (e : exn) : str :=
  match e with
  | ValueError msg | KeyError msg | OSError msg | GitCommandError msg => msg
  end.

Inductive result (A : Type) :=
  | Ok (a : A)
  | Raise (e : exn).
Arguments Ok {A} a.
Arguments Raise {A} e.

(** ** Paths

    A [pathlib] path on a POSIX system: whether it is absolute, and its
    components.  The file system of the model has no symbolic links, so
    [resolve] is the lexical normalisation against the working directory;
    a leading double slash is read as a single one. *)

Record Path := mkPath {
  absolute : bool;
  parts : list str
}.

(** [s.split(sep)] *)
Fixpoint split (sep : ascii) (s : str) : list str :=
  match s with
  | [] => [[]]
  | c :: r =>
      if decide (c = sep) then [] :: split sep r
      else match split sep r with
           | h :: t => (c :: h) :: t
           | [] => [[c]]
           end
  end.

(** The components of a path text: empty components and [.] are dropped,
    [..] stays. *)
Definition segments (p : str) : list str :=
  List.filter (λ seg, negb (bool_decide (seg = []) || bool_decide (seg = txt ".")))
              (split "/" p).

(** [Path(p)] *)
Definition Path_of (p : str) : Path :=
  mkPath (bool_decide (take 1 p = txt "/")) (segments p).

(** [a / b] *)
Definition joinpath (a : Path) (b : str) : Path :=
  let pb := Path_of b in
  if absolute pb then pb else mkPath (absolute a) (parts a ++ parts pb).

(** One step of the normalisation: [..] goes to the parent (the root is
    its own parent), any other component goes down. *)
Definition resolve_step (acc : list str) (seg : str) : list str :=
  if decide (seg = txt "..") then removelast acc else acc ++ [seg].

(** [p.resolve()], the components of the absolute path; [cwd] holds the
    components of the working directory. *)
Definition resolve (cwd : list str) (p : Path) : list str :=
  fold_left resolve_step (parts p) (if absolute p then [] else cwd).

(** [str(p)] of an absolute path with the components [ps]. *)
Definition path_str (ps : list str) : str :=
  match ps with
  | [] => txt "/"
  | _ => concat (map (λ seg, txt "/" ++ seg) ps)
  end.

(** [s.startswith(p)] *)
Definition startswith (s p : str) : bool :=
  match lit p s with
  | Some _ => true
  | None => false
  end.

Definition validate_path (cwd : list str) (base_path : Path)
    (target_path : str) : result (list str) :=
  let resolved := resolve cwd (joinpath base_path target_path) in
  if negb (startswith (path_str resolved) (path_str (resolve cwd base_path)))
  then Raise (ValueError (txt "Path '" ++ target_path
                          ++ txt "' escapes repository root"))
  else Ok resolved.

(** ** Project registry *)

Record ProjectConfig := mkProject {
  name : str;
  project_id : str;
  git_token : str
}.

(** [projects] is a Python dictionary: its keys are distinct and it keeps
    them in the order of insertion, which [next(iter(...))] and
    [", ".join(...)] observe. *)
Record Config := mkConfig {
  projects : list (str * ProjectConfig);
  default_project : option str
}.

(** [d.get(k)], and [k in d] when it is [Some]. *)
Definition dict_get {V} (d : list (str * V)) (k : str) : option V :=
  snd <$> List.find (λ kv, bool_decide (kv.1 = k)) d.

Definition dict_keys {V} (d : list (str * V)) : list str := map fst d.

(** [sep.join(l)] *)
Fixpoint join (sep : str) (l : list str) : str :=
  match l with
  | [] => []
  | [x] => x
  | x :: r => x ++ sep ++ join sep r
  end.

Definition unconfigured_msg : str :=
  txt "No projects configured. Create overleaf_config.json or set "
  ++ txt "OVERLEAF_PROJECT_ID and OVERLEAF_GIT_TOKEN environment variables.".

Definition not_found_msg (project_name : str) (keys : list str) : str :=
  txt "Project '" ++ project_name ++ txt "' not found. Available: "
  ++ join (txt ", ") keys.

(** [get_project_config]; [config] is what [load_config()] returned. *)
Definition get_project_config (config : Config) (project_name : option str)
  : result ProjectConfig :=
  match projects config with
  | [] => Raise (ValueError unconfigured_msg)
  | (first, _) :: _ =>
      let project_name :=
        match project_name with
        | None =>
            (* [config.default_project or next(iter(config.projects.keys()))] *)
            match default_project config with
            | Some d => if decide (d = []) then first else d
            | None => first
            end
        | Some n => n
        end in
      match dict_get (projects config) project_name with
      | None =>
          Raise (ValueError
                   (not_found_msg project_name (dict_keys (projects config))))
      | Some p => Ok p
      end
  end.

(** ** The mirror on disk and its repository

    [World] is what an operation can change: the file system (keyed by the
    components of resolved absolute paths; the root directory is always
    there) and the state of the mirror's git repository.  [Env] is what an
    operation is given: the working directory, the settings, the loaded
    configuration, and the outcome of the three network operations, which
    the remote decides. *)

Inductive node :=
  | File (data : str)
  | Dir.

Inductive change :=
  | Added (path : str)
  | Removed (path : str).

Record Commit := mkCommit {
  message : str;
  changes : list change
}.

Record World := mkWorld {
  fs : gmap (list str) node;
  git_user : option (str * str);
  index : list change;
  commits : list Commit
}.

Record Env := mkEnv {
  env_cwd : list str;
  env_TEMP_DIR : str;
  env_config : Config;
  env_author : str * str;
  env_pull : World → result World;
  env_clone : ProjectConfig → World → result World;
  env_push : World → result World
}.

(** Computations that read and change the world and may raise. *)
Definition M (A : Type) : Type := World → result A * World.

Definition ret {A} (a : A) : M A := λ w, (Ok a, w).

Definition bind {A B} (m : M A) (k : A → M B) : M B := λ w,
  match m w with
  | (Ok a, w') => k a w'
  | (Raise e, w') => (Raise e, w')
  end.

Declare Scope M_scope.
Delimit Scope M_scope with M.
Notation "x ← m ; k" := (bind m (λ x, k))
  (at level 20, m at level 100, k at level 200, only parsing) : M_scope.
Notation "m ;; k" := (bind m (λ _, k))
  (at level 100, k at level 200, only parsing, right associativity) : M_scope.

Definition raise {A} (e : exn) : M A := λ w, (Raise e, w).

Definition lift {A} (r : result A) : M A := λ w, (r, w).

(** *** Files *)

Definition lookup_node (w : World) (p : list str) : option node :=
  if decide (p = []) then Some Dir else fs w !! p.

Definition is_file (w : World) (p : list str) : bool :=
  match lookup_node w p with
  | Some (File _) => true
  | _ => false
  end.

Definition is_dir (w : World) (p : list str) : bool :=
  match lookup_node w p with
  | Some Dir => true
  | _ => false
  end.

Definition set_fs (m : gmap (list str) node) (w : World) : World :=
  mkWorld m (git_user w) (index w) (commits w).

(** [p.exists()] *)
Definition path_exists (p : list str) : M bool := λ w,
  (Ok (match lookup_node w p with Some _ => true | None => false end), w).

(** The directories from the one below the root down to [p] itself. *)
Definition ancestors (p : list str) : list (list str) :=
  map (λ n, take n p) (seq 1 (length p)).

(** [p.mkdir(parents=True, exist_ok=True)]: it makes the directories that
    are missing on the way to [p], and raises when a file is in the way. *)
Definition mkdir_parents (p : list str) : M unit := λ w,
  if existsb (is_file w) (ancestors p)
  then (Raise (OSError (txt "File exists: '" ++ path_str p ++ txt "'")), w)
  else (Ok (), set_fs (foldr (λ q m, <[q := Dir]> m) (fs w) (ancestors p)) w).

(** [p.write_text(data)] *)
Definition write_text (p : list str) (data : str) : M unit := λ w,
  if negb (is_dir w (removelast p))
  then (Raise (OSError (txt "No such file or directory: '" ++ path_str p
                        ++ txt "'")), w)
  else if is_dir w p
  then (Raise (OSError (txt "Is a directory: '" ++ path_str p ++ txt "'")), w)
  else (Ok (), set_fs (<[p := File data]> (fs w)) w).

(** [p.read_text()] *)
Definition read_text (p : list str) : M str := λ w,
  match lookup_node w p with
  | Some (File data) => (Ok data, w)
  | Some Dir =>
      (Raise (OSError (txt "Is a directory: '" ++ path_str p ++ txt "'")), w)
  | None =>
      (Raise (OSError (txt "No such file or directory: '" ++ path_str p
                       ++ txt "'")), w)
  end.

(** [p.unlink()] *)
Definition unlink (p : list str) : M unit := λ w,
  match lookup_node w p with
  | Some (File _) => (Ok (), set_fs (delete p (fs w)) w)
  | Some Dir =>
      (Raise (OSError (txt "Is a directory: '" ++ path_str p ++ txt "'")), w)
  | None =>
      (Raise (OSError (txt "No such file or directory: '" ++ path_str p
                       ++ txt "'")), w)
  end.

(** *** Repository *)

(** [config_git_user]: the author is set when none is configured. *)
Definition config_git_user (env : Env) : M unit := λ w,
  match git_user w with
  | Some _ => (Ok (), w)
  | None => (Ok (), mkWorld (fs w) (Some (env_author env)) (index w) (commits w))
  end.

(** [repo.index.add([file_path])] *)
Definition index_add (file_path : str) : M unit := λ w,
  (Ok (), mkWorld (fs w) (git_user w) (index w ++ [Added file_path]) (commits w)).

(** [repo.index.remove([file_path])] *)
Definition index_remove (file_path : str) : M unit := λ w,
  (Ok (), mkWorld (fs w) (git_user w) (index w ++ [Removed file_path]) (commits w)).

(** [repo.index.commit(commit_message)]: the staged changes become the
    newest commit of the local history. *)
Definition index_commit (commit_message : str) : M unit := λ w,
  (Ok (), mkWorld (fs w) (git_user w) []
                 (mkCommit commit_message (index w) :: commits w)).

(** [repo.remotes.origin.push()]: a push that raises leaves the mirror as
    it is.  The code does not look at what a push returns, so a push that
    reports a rejection in its result only counts as one that went
    through. *)
Definition origin_push (env : Env) : M unit := λ w,
  match env_push env w with
  | Ok w' => (Ok (), w')
  | Raise e => (Raise e, w)
  end.

(** [get_repo_path]: [Path(TEMP_DIR) / project_id] *)
Definition get_repo_path (env : Env) (project_id : str) : Path :=
  joinpath (Path_of (env_TEMP_DIR env)) project_id.

(** [ensure_repo]: an existing mirror is pulled, and a pull that fails with
    [GitCommandError] is passed over; a missing mirror is cloned. *)
Definition ensure_repo (env : Env) (project : ProjectConfig) : M unit :=
  let repo_path :=
    resolve (env_cwd env) (get_repo_path env (project_id project)) in
  (ex ← path_exists repo_path;
  if (ex : bool) then
    λ w, match env_pull env w with
         | Ok w' => (Ok (), w')
         | Raise (GitCommandError _) => (Ok (), w)
         | Raise e => (Raise e, w)
         end
  else
    mkdir_parents (removelast repo_path);;
    λ w, match env_clone env project w with
         | Ok w' => (Ok (), w')
         | Raise e => (Raise e, w)
         end)%M.

(** *** Listing *)

(** [p.parts] *)
Definition path_parts (p : Path) : list str :=
  if absolute p then txt "/" :: parts p else parts p.

(** [s.rfind(c)] *)
Fixpoint rfind_from (i : nat) (c : ascii) (s : str) (found : option nat)
  : option nat :=
  match s with
  | [] => found
  | d :: r => rfind_from (S i) c r (if decide (d = c) then Some i else found)
  end.

Definition rfind (c : ascii) (s : str) : option nat := rfind_from 0 c s None.

(** [p.suffix], from the name of [p]. *)
Definition suffix (name : str) : str :=
  match rfind "." name with
  | Some i => if (0 <? i) && (i <? length name - 1) then drop i name else []
  | None => []
  end.

(** [k] relative to [root], when [k] is strictly below [root]. *)
Definition rel_to (root k : list str) : option (list str) :=
  if decide (take (length root) k = root ∧ length root < length k)
  then Some (drop (length root) k) else None.

(** [repo_path.rglob("*")]: everything below the mirror's directory, each
    entry relative to it; the order of the entries is the file system's. *)
Definition rglob (w : World) (root : list str) : list (list str) :=
  omap (λ kv, rel_to root kv.1) (map_to_list (fs w)).

(** The order of [str]: by code points, a proper prefix first. *)
Fixpoint str_leb (a b : str) : bool :=
  match a, b with
  | [], _ => true
  | _ :: _, [] => false
  | x :: a', y :: b' =>
      if nat_of_ascii x <? nat_of_ascii y then true
      else if nat_of_ascii y <? nat_of_ascii x then false
      else str_leb a' b'
  end.

Definition str_le (a b : str) : Prop := str_leb a b = true.

#[global] Instance str_le_dec : RelDecision str_le.
Proof. intros a b. unfold str_le. apply _. Defined.

(** The loop of [list_files] and the sort after it. *)
Definition list_files_loop (w : World) (repo_path : Path) (root : list str)
    (extension : str) : list str :=
  flat_map
    (λ rel,
       if is_file w (root ++ rel)
          && negb (existsb (λ part, startswith part (txt "."))
                           (path_parts repo_path ++ rel))
       then
         if bool_decide (extension = [])
            || bool_decide (suffix (List.last rel []) = extension)
         then [join (txt "/") rel] else []
       else [])
    (rglob w root).

Definition list_files_sorted (env : Env) (w : World) (project : ProjectConfig)
    (extension : str) : list str :=
  let repo_path := get_repo_path env (project_id project) in
  merge_sort str_le
    (list_files_loop w repo_path (resolve (env_cwd env) repo_path) extension).

(** *** Tools *)

(** The [arguments] dictionary; a missing key is [None]. *)
Record Arguments := mkArguments {
  arg_project_name : option str;
  arg_file_path : option str;
  arg_content : option str;
  arg_commit_message : option str;
  arg_push : option bool;
  arg_extension : option str;
  arg_section_title : option str;
  arg_new_content : option str
}.

(** [arguments[key]] *)
Definition required {A} (key : str) (v : option A) : M A :=
  match v with
  | Some x => ret x
  | None => raise (KeyError (txt "'" ++ key ++ txt "'"))
  end.

(** The branches of [execute_tool] that the properties are about. *)
Inductive tool :=
  | create_file
  | list_files
  | get_section_content
  | edit_file
  | update_section
  | delete_file.

Definition quoted_titles (sections : list str) : str :=
  join (txt ", ") (map (λ t, txt "'" ++ t ++ txt "'") sections).

Definition execute_tool (env : Env) (tool_name : tool)
    (arguments : Arguments) : M str :=
  (match tool_name with
  | create_file =>
      project ← lift (get_project_config (env_config env)
                                         (arg_project_name arguments));
      ensure_repo env project;;
      let repo_path := get_repo_path env (project_id project) in
      file_path ← required (txt "file_path") (arg_file_path arguments);
      content ← required (txt "content") (arg_content arguments);
      let commit_message :=
        default (txt "Add " ++ file_path) (arg_commit_message arguments) in
      let push := default true (arg_push arguments) in
      target_path ← lift (validate_path (env_cwd env) repo_path file_path);
      ex ← path_exists target_path;
      if (ex : bool) then
        ret (txt "Error: File '" ++ file_path
              ++ txt "' already exists. Use edit_file to modify it.")
      else
        mkdir_parents (removelast target_path);;
        write_text target_path content;;
        config_git_user env;;
        index_add file_path;;
        index_commit commit_message;;
        if (push : bool) then
          origin_push env;;
          ret (txt "Created and pushed '" ++ file_path ++ txt "'")
        else
          ret (txt "Created '" ++ file_path
                ++ txt "' (not pushed). Run sync_project or use push=true to push changes.")
  | list_files =>
      project ← lift (get_project_config (env_config env)
                                         (arg_project_name arguments));
      ensure_repo env project;;
      let extension := default [] (arg_extension arguments) in
      λ w,
        let files := list_files_sorted env w project extension in
        (Ok (match files with
             | [] =>
                 txt "No files found"
                 ++ (if bool_decide (extension = []) then []
                     else txt " with extension " ++ extension)
             | _ =>
                 txt "Files in project '" ++ name project ++ txt "':" ++ [nl]
                 ++ join [nl] (map (λ f, txt "  - " ++ f) files)
             end), w)
  | get_section_content =>
      project ← lift (get_project_config (env_config env)
                                         (arg_project_name arguments));
      ensure_repo env project;;
      let repo_path := get_repo_path env (project_id project) in
      file_path ← required (txt "file_path") (arg_file_path arguments);
      section_title ← required (txt "section_title")
                               (arg_section_title arguments);
      target_path ← lift (validate_path (env_cwd env) repo_path file_path);
      ex ← path_exists target_path;
      if negb ex then
        ret (txt "Error: File '" ++ file_path ++ txt "' not found")
      else
        content ← read_text target_path;
        match get_section_by_title content section_title with
        | None =>
            ret (txt "Section '" ++ section_title
                  ++ txt "' not found. Available sections: "
                  ++ quoted_titles (map title (parse_sections content)))
        | Some section_content =>
            ret (txt "Content of section '" ++ section_title ++ txt "':"
                  ++ [nl; nl] ++ section_content)
        end
  | edit_file =>
      project ← lift (get_project_config (env_config env)
                                         (arg_project_name arguments));
      ensure_repo env project;;
      let repo_path := get_repo_path env (project_id project) in
      file_path ← required (txt "file_path") (arg_file_path arguments);
      content ← required (txt "content") (arg_content arguments);
      let commit_message :=
        default (txt "Update " ++ file_path) (arg_commit_message arguments) in
      let push := default true (arg_push arguments) in
      target_path ← lift (validate_path (env_cwd env) repo_path file_path);
      ex ← path_exists target_path;
      if negb ex then
        ret (txt "Error: File '" ++ file_path
              ++ txt "' not found. Use create_file to create it.")
      else
        write_text target_path content;;
        config_git_user env;;
        index_add file_path;;
        index_commit commit_message;;
        if (push : bool) then
          origin_push env;;
          ret (txt "Updated and pushed '" ++ file_path ++ txt "'")
        else
          ret (txt "Updated '" ++ file_path
                ++ txt "' (not pushed). Run sync_project or use push=true to push changes.")
  | update_section =>
      project ← lift (get_project_config (env_config env)
                                         (arg_project_name arguments));
      ensure_repo env project;;
      let repo_path := get_repo_path env (project_id project) in
      file_path ← required (txt "file_path") (arg_file_path arguments);
      section_title ← required (txt "section_title")
                               (arg_section_title arguments);
      new_content ← required (txt "new_content") (arg_new_content arguments);
      let commit_message :=
        default (txt "Update section '" ++ section_title ++ txt "'")
                (arg_commit_message arguments) in
      let push := default true (arg_push arguments) in
      target_path ← lift (validate_path (env_cwd env) repo_path file_path);
      ex ← path_exists target_path;
      if negb ex then
        ret (txt "Error: File '" ++ file_path ++ txt "' not found")
      else
        content ← read_text target_path;
        match update_section_text content section_title new_content with
        | SectionNotFound available =>
            ret (txt "Section '" ++ section_title
                  ++ txt "' not found. Available sections: "
                  ++ quoted_titles available)
        | HeaderNotLocated =>
            ret (txt "Could not locate section header for '"
                  ++ section_title ++ txt "'")
        | NewFileContent new_file_content =>
            write_text target_path new_file_content;;
            config_git_user env;;
            index_add file_path;;
            index_commit commit_message;;
            if (push : bool) then
              origin_push env;;
              ret (txt "Updated section '" ++ section_title
                    ++ txt "' and pushed")
            else
              ret (txt "Updated section '" ++ section_title
                    ++ txt "' (not pushed)")
        end
  | delete_file =>
      project ← lift (get_project_config (env_config env)
                                         (arg_project_name arguments));
      ensure_repo env project;;
      let repo_path := get_repo_path env (project_id project) in
      file_path ← required (txt "file_path") (arg_file_path arguments);
      let commit_message :=
        default (txt "Delete " ++ file_path) (arg_commit_message arguments) in
      let push := default true (arg_push arguments) in
      target_path ← lift (validate_path (env_cwd env) repo_path file_path);
      ex ← path_exists target_path;
      if negb ex then
        ret (txt "Error: File '" ++ file_path ++ txt "' not found")
      else
        config_git_user env;;
        index_remove file_path;;
        unlink target_path;;
        index_commit commit_message;;
        if (push : bool) then
          origin_push env;;
          ret (txt "Deleted and pushed '" ++ file_path ++ txt "'")
        else
          ret (txt "Deleted '" ++ file_path ++ txt "' (not pushed)")
  end)%M.

(** [call_tool]: the text sent to the caller; an exception becomes the
    text [Error: <str(e)>]. *)
Definition call_tool (env : Env) (tool_name : tool) (arguments : Arguments)
  : World → str * World := λ w,
  match execute_tool env tool_name arguments w with
  | (Ok result, w') => (result, w')
  | (Raise e, w') => (txt "Error: " ++ exn_str e, w')
  end.

(** ** Vocabulary of the properties *)

(** The text of a heading command. *)
Definition heading (kd star t : str) : str :=
  txt "\" ++ kd ++ star ++ txt "{" ++ t ++ txt "}".

(** The matches lie one after the other, from [lo] on, and none is empty. *)
Fixpoint ordered (lo : nat) (ms : list Match) : Prop :=
  match ms with
  | [] => True
  | m :: rest => lo ≤ m_start m ∧ m_start m < m_end m ∧ ordered (m_end m) rest
  end.

(** What the scan knows of a match [m] of the text [content]. *)
Definition match_ok (content : str) (m : Match) : Prop :=
  m_start m < m_end m ∧ m_end m ≤ length content ∧
  SECTION_PATTERN (drop (m_start m) content)
    = Some (group1 m, group2 m, drop (m_end m) content).

(** The sections of a list of matches, each one closed by the start of the
    match that follows it. *)
Definition next_start (content : str) (rest : list Match) : nat :=
  match rest with
  | next :: _ => m_start next
  | [] => length content
  end.

Fixpoint link (content : str) (ms : list Match) : list Section :=
  match ms with
  | [] => []
  | m :: rest =>
      make_section content m (next_start content rest) :: link content rest
  end.

(** The ranges [[start_pos, end_pos)] of [secs] tile [[lo, hi)]: the first
    starts at [lo], each ends where the next starts, the last ends at [hi],
    and none is empty. *)
Fixpoint tiles (lo hi : nat) (secs : list Section) : Prop :=
  match secs with
  | [] => lo = hi
  | s :: rest =>
      start_pos s = lo ∧ lo < end_pos s ∧ end_pos s ≤ hi
      ∧ tiles (end_pos s) hi rest
  end.

(** The section [s] of [content] was made from the match [m]. *)
Definition section_from (content : str) (s : Section) (m : Match) : Prop :=
  type s = group1 m ∧ title s = group2 m ∧ start_pos s = m_start m
  ∧ m_end m ≤ end_pos s ∧ end_pos s ≤ length content ∧ match_ok content m.

(** The document of the specification's scenarios. *)
Definition doc_intro : str :=
  txt "\section{Intro}" ++ [nl] ++ txt "Hello" ++ [nl]
  ++ txt "\section{Methods}" ++ [nl] ++ txt "World" ++ [nl].

(** A document in which the title of the first heading runs up to the first
    closing brace and so swallows a second heading command. *)
Definition doc_nested : str :=
  txt "\section{A \section{B}" ++ [nl] ++ txt "old" ++ [nl]
  ++ txt "\section{B}" ++ [nl] ++ txt "body" ++ [nl].

(** The text without its whitespace characters. *)
Definition without_space (s : str) : str :=
  List.filter (λ c, negb (isspace c)) s.

(** The caller's path has a [..] component; it has an absolute prefix. *)
Definition has_dotdot (target_path : str) : Prop :=
  txt ".." ∈ segments target_path.

Definition is_absolute (target_path : str) : Prop :=
  absolute (Path_of target_path) = true.

(** The message of the path-escape error. *)
Definition escapes_msg (target_path : str) : str :=
  txt "Path '" ++ target_path ++ txt "' escapes repository root".

(** [resolved] is not below [root], but it leaves [root]'s parent through a
    directory whose name begins with the name of [root]. *)
Definition sibling_extension (root resolved : list str) : Prop :=
  ∃ up r p rest, root = up ++ [r] ∧ resolved = up ++ p :: rest
                 ∧ r `prefix_of` p ∧ r ≠ p.

Definition slash_free (seg : str) : Prop := "/"%char ∉ seg.

(** A path component: a non-empty name without a slash. *)
Definition component (seg : str) : Prop := seg ≠ [] ∧ slash_free seg.

(** The tools that change the mirror. *)
Definition mutating (t : tool) : bool :=
  match t with
  | create_file | edit_file | update_section | delete_file => true
  | list_files | get_section_content => false
  end.

(** The same call with [push] set. *)
Definition with_push (b : bool) (a : Arguments) : Arguments :=
  mkArguments (arg_project_name a) (arg_file_path a) (arg_content a)
              (arg_commit_message a) (Some b) (arg_extension a)
              (arg_section_title a) (arg_new_content a).

(** What a mutating tool answers after its commit when it was told not to
    push. *)
Definition committed_msg (t : tool) (a : Arguments) : str :=
  let file_path := default [] (arg_file_path a) in
  let section_title := default [] (arg_section_title a) in
  match t with
  | create_file =>
      txt "Created '" ++ file_path
      ++ txt "' (not pushed). Run sync_project or use push=true to push changes."
  | edit_file =>
      txt "Updated '" ++ file_path
      ++ txt "' (not pushed). Run sync_project or use push=true to push changes."
  | update_section =>
      txt "Updated section '" ++ section_title ++ txt "' (not pushed)"
  | delete_file => txt "Deleted '" ++ file_path ++ txt "' (not pushed)"
  | list_files | get_section_content => []
  end.

(** A project, a configuration and a mirror for the examples: the mirror of
    project [abc] below [/srv/overleaf_cache], with a hidden directory and a
    hidden file in it. *)
Definition thesis : ProjectConfig :=
  mkProject (txt "Thesis") (txt "abc") (txt "token").

Definition mirror_root : list str :=
  [txt "srv"; txt "overleaf_cache"; txt "abc"].

Definition mirror_files (root : list str) : gmap (list str) node :=
  list_to_map
    [(take 1 root, Dir); (take 2 root, Dir); (root, Dir);
     (root ++ [txt "main.tex"], File doc_intro);
     (root ++ [txt "refs.bib"], File (txt "@book{b}"));
     (root ++ [txt "ch"], Dir);
     (root ++ [txt "ch"; txt "a.tex"], File (txt "A"));
     (root ++ [txt ".git"], Dir);
     (root ++ [txt ".git"; txt "config"], File (txt "[core]"));
     (root ++ [txt ".draft.tex"], File (txt "D"))].

Definition world0 : World := mkWorld (mirror_files mirror_root) None [] [].

(** The remote cannot be reached: pull and clone fail, and so does push. *)
Definition env_offline (temp_dir : str) : Env :=
  mkEnv [txt "srv"] temp_dir (mkConfig [(txt "thesis", thesis)] None)
        (txt "Overleaf MCP", txt "mcp@overleaf.local")
        (λ _, Raise (GitCommandError (txt "could not read from remote")))
        (λ _ _, Raise (GitCommandError (txt "could not read from remote")))
        (λ _, Raise (GitCommandError (txt "could not read from remote"))).


(** An edit of [main.tex], and the world it leaves behind once its commit
    is made. *)
Definition edit_arguments : Arguments :=
  mkArguments None (Some (txt "main.tex")) (Some (txt "new text"))
              None None None None None.

Definition world_after_edit : World :=
  mkWorld (<[mirror_root ++ [txt "main.tex"] := File (txt "new text")]>
             (mirror_files mirror_root))
          (Some (txt "Overleaf MCP", txt "mcp@overleaf.local"))
          []
          [mkCommit (txt "Update main.tex") [Added (txt "main.tex")]].

(** The same mirror kept below a cache directory whose name begins with a
    dot, as with [OVERLEAF_TEMP_DIR=/srv/.cache]. *)
Definition dot_cache_root : list str := [txt "srv"; txt ".cache"; txt "abc"].

Definition world_dot_cache : World :=
  mkWorld (mirror_files dot_cache_root) None [] [].

Definition tex_arguments : Arguments :=
  mkArguments None None None None None (Some (txt ".tex")) None None.

(** A path component that begins with a dot. *)
Definition dotted (part : str) : bool := startswith part (txt ".").

(** ** Loading the configuration

    [ConfigData] is what [json.load] returns for the configuration file: the
    value of the key [projects] (a dictionary of dictionaries of texts) and
    the value of the key [defaultProject], each [None] when the key is
    missing.  Dictionaries are lists of pairs with distinct keys, in the
    order of the file. *)

Record ConfigData := mkConfigData {
  data_projects : option (list (str * list (str * str)));
  data_defaultProject : option str
}.

(** The [ProjectConfig] that the loop of [load_config] builds for one entry:
    [proj.get("name", key)], [proj["projectId"]], [proj["gitToken"]]. *)
Definition project_of_entry (key : str) (proj : list (str * str))
  : result ProjectConfig :=
  let name := default key (dict_get proj (txt "name")) in
  match dict_get proj (txt "projectId") with
  | None => Raise (KeyError (txt "'projectId'"))
  | Some project_id =>
      match dict_get proj (txt "gitToken") with
      | None => Raise (KeyError (txt "'gitToken'"))
      | Some git_token => Ok (mkProject name project_id git_token)
      end
  end.

(** The loop over [data.get("projects", {}).items()]. *)
Fixpoint load_projects (items : list (str * list (str * str)))
  : result (list (str * ProjectConfig)) :=
  match items with
  | [] => Ok []
  | (key, proj) :: rest =>
      match project_of_entry key proj with
      | Raise e => Raise e
      | Ok p =>
          match load_projects rest with
          | Raise e => Raise e
          | Ok projects => Ok ((key, p) :: projects)
          end
      end
  end.

(** A text that Python takes for true: present and not empty. *)
Definition truthy (v : option str) : bool :=
  match v with
  | Some (_ :: _) => true
  | _ => false
  end.

(** [load_config].  [file] is the content of the configuration file when
    the file exists; [OVERLEAF_PROJECT_ID] and [OVERLEAF_GIT_TOKEN] are the
    two environment variables. *)
Definition load_config (file : option ConfigData)
    (OVERLEAF_PROJECT_ID OVERLEAF_GIT_TOKEN : option str) : result Config :=
  match file with
  | Some data =>
      match load_projects (default [] (data_projects data)) with
      | Raise e => Raise e
      | Ok projects => Ok (mkConfig projects (data_defaultProject data))
      end
  | None =>
      if truthy OVERLEAF_PROJECT_ID && truthy OVERLEAF_GIT_TOKEN
      then Ok (mkConfig
                 [(txt "default",
                   mkProject (txt "Default Project")
                             (default [] OVERLEAF_PROJECT_ID)
                             (default [] OVERLEAF_GIT_TOKEN))]
                 (Some (txt "default")))
      else Ok (mkConfig [] None)
  end.

(** [get_project_config] with its call of [load_config]. *)
Definition load_project (file : option ConfigData)
    (OVERLEAF_PROJECT_ID OVERLEAF_GIT_TOKEN : option str)
    (project_name : option str) : result ProjectConfig :=
  match load_config file OVERLEAF_PROJECT_ID OVERLEAF_GIT_TOKEN with
  | Raise e => Raise e
  | Ok config => get_project_config config project_name
  end.

(** ** The other branches of [execute_tool] *)

(** The [read_file] branch. *)
Definition read_file_tool (env : Env) (arguments : Arguments) : M str :=
  (project ← lift (get_project_config (env_config env)
                                      (arg_project_name arguments));
   ensure_repo env project;;
   let repo_path := get_repo_path env (project_id project) in
   file_path ← required (txt "file_path") (arg_file_path arguments);
   target_path ← lift (validate_path (env_cwd env) repo_path file_path);
   ex ← path_exists target_path;
   if negb ex then
     ret (txt "Error: File '" ++ file_path ++ txt "' not found")
   else
     content ← read_text target_path;
     ret (txt "Content of '" ++ file_path ++ txt "':" ++ [nl; nl]
          ++ content))%M.

(** The two lines that [get_sections] writes for a section. *)
Definition section_lines (s : Section) : list str :=
  [[nl] ++ txt "[" ++ type s ++ txt "] " ++ title s;
   txt "  Preview: " ++ take 100 (preview s) ++ txt "..."].

(** The [get_sections] branch. *)
Definition get_sections_tool (env : Env) (arguments : Arguments) : M str :=
  (project ← lift (get_project_config (env_config env)
                                      (arg_project_name arguments));
   ensure_repo env project;;
   let repo_path := get_repo_path env (project_id project) in
   file_path ← required (txt "file_path") (arg_file_path arguments);
   target_path ← lift (validate_path (env_cwd env) repo_path file_path);
   ex ← path_exists target_path;
   if negb ex then
     ret (txt "Error: File '" ++ file_path ++ txt "' not found")
   else
     content ← read_text target_path;
     let sections := parse_sections content in
     match sections with
     | [] => ret (txt "No sections found in '" ++ file_path ++ txt "'")
     | _ =>
         ret (join [nl]
                ((txt "Sections in '" ++ file_path ++ txt "':")
                 :: flat_map section_lines sections))
     end)%M.


(** ** The [create_project] branch

    Bytes are characters: the byte [n] is the character with the code
    [n]. *)

(** [s.encode()], UTF-8 of the code points 0..255. *)
Definition utf8_char (c : ascii) : list ascii :=
  let n := nat_of_ascii c in
  if n <? 128 then [c]
  else [ascii_of_nat (192 + n / 64); ascii_of_nat (128 + n mod 64)].

Definition encode (s : str) : list ascii := flat_map utf8_char s.

Definition B64_ALPHABET : str :=
  txt "ABCDEFGHIJKLMNOPQRSTUVWXYZabcdefghijklmnopqrstuvwxyz0123456789+/".

Definition b64_digit (n : nat) : ascii := nth n B64_ALPHABET "="%char.

(** [base64.b64encode(b).decode()] *)
Fixpoint b64encode (b : list ascii) : str :=
  match b with
  | [] => []
  | [x] =>
      let nx := nat_of_ascii x in
      [b64_digit (nx / 4); b64_digit (nx mod 4 * 16); "="%char; "="%char]
  | [x; y] =>
      let nx := nat_of_ascii x in
      let ny := nat_of_ascii y in
      [b64_digit (nx / 4); b64_digit (nx mod 4 * 16 + ny / 16);
       b64_digit (ny mod 16 * 4); "="%char]
  | x :: y :: z :: r =>
      let nx := nat_of_ascii x in
      let ny := nat_of_ascii y in
      let nz := nat_of_ascii z in
      [b64_digit (nx / 4); b64_digit (nx mod 4 * 16 + ny / 16);
       b64_digit (ny mod 16 * 4 + nz / 64); b64_digit (nz mod 64)]
      ++ b64encode r
  end.

(** The characters that [urllib.parse.quote] never escapes, and its default
    [safe='/']. *)
Definition ALWAYS_SAFE : str :=
  txt "ABCDEFGHIJKLMNOPQRSTUVWXYZabcdefghijklmnopqrstuvwxyz0123456789_.-~".

Definition is_safe (c : ascii) : bool :=
  bool_decide (c ∈ ALWAYS_SAFE ++ txt "/").

Definition hex_digit (n : nat) : ascii :=
  nth n (txt "0123456789ABCDEF") "0"%char.

(** One byte of [quote]: itself when safe, else [%XX]. *)
Definition quote_byte (b : ascii) : str :=
  if is_safe b then [b]
  else ["%"%char; hex_digit (nat_of_ascii b / 16);
        hex_digit (nat_of_ascii b mod 16)].

(** [quote(s)] *)
Definition quote (s : str) : str := flat_map quote_byte (encode s).

Definition OVERLEAF_API_URL : str := txt "https://www.overleaf.com/docs".

(** [snip_uri]: the data URL of the content. *)
Definition snip_uri (content : str) (is_zip : bool) : str :=
  let mime_type :=
    if is_zip then txt "application/zip" else txt "application/x-tex" in
  let data := if is_zip then content else b64encode (encode content) in
  txt "data:" ++ mime_type ++ txt ";base64," ++ data.

(** [form_data], in the order in which its keys are set. *)
Definition form_data (content : str) (project_name : option str)
    (engine : str) (is_zip : bool) : list (str * str) :=
  [(txt "snip_uri", snip_uri content is_zip); (txt "engine", engine)]
  ++ (if truthy project_name
      then [(txt "snip_name", default [] project_name)] else []).

(** One [k=quote(v)] of the query string. *)
Definition field (kv : str * str) : str := kv.1 ++ txt "=" ++ quote kv.2.

Definition params (form_data : list (str * str)) : str :=
  join (txt "&") (map field form_data).

(** The [create_project] branch; [engine] and [is_zip] are the values of
    these two keys of [arguments], [None] when a key is missing. *)
Definition create_project_tool (arguments : Arguments) (engine : option str)
    (is_zip : option bool) : result str :=
  match arg_content arguments with
  | None => Raise (KeyError (txt "'content'"))
  | Some content =>
      let project_name := arg_project_name arguments in
      let engine := default (txt "pdflatex") engine in
      let is_zip := default false is_zip in
      Ok (txt "To create the project, open this URL in your browser:"
          ++ [nl; nl]
          ++ OVERLEAF_API_URL ++ txt "?"
          ++ params (form_data content project_name engine is_zip)
          ++ [nl; nl]
          ++ txt "Or use the following form data to POST to "
          ++ OVERLEAF_API_URL ++ txt ":" ++ [nl]
          ++ txt "- snip_uri: " ++ take 100 (snip_uri content is_zip)
          ++ txt "..." ++ [nl]
          ++ txt "- engine: " ++ engine)
  end.

(** ** The HTTP wrapper

    The module [fastapi_server] puts each tool behind an endpoint.  An
    endpoint returns a [ToolResponse] or raises an [HTTPException]. *)

Inductive http (A : Type) :=
  | Return (a : A)
  | HTTPException (status_code : nat) (detail : str).
Arguments Return {A} a.
Arguments HTTPException {A} status_code detail.

Record ToolResponse := mkToolResponse {
  result_text : str;
  success : bool
}.

(** [s.replace(old, new)]: the occurrences of [old] are taken from the left
    and do not overlap; [skip] counts the characters of an occurrence that
    are still to be passed over. *)
Fixpoint replace_from (old new : str) (skip : nat) (s : str) : str :=
  match s with
  | [] => []
  | c :: r =>
      match skip with
      | S k => replace_from old new k r
      | 0 =>
          if startswith s old
          then new ++ replace_from old new (length old - 1) r
          else c :: replace_from old new 0 r
      end
  end.

Definition replace (old new s : str) : str :=
  if decide (old = []) then new ++ flat_map (λ c, c :: new) s
  else replace_from old new 0 s.

(** [verify_api_key]; [API_KEY] is the module's constant, the empty text
    when the environment variable is not set. *)
Definition verify_api_key (API_KEY : str) (authorization : option str)
  : http unit :=
  if decide (API_KEY = []) then Return ()
  else
    match authorization with
    | None | Some [] =>
        HTTPException 401 (txt "Missing Authorization header")
    | Some authorization =>
        if negb (startswith authorization (txt "Bearer "))
        then HTTPException 401 (txt "Invalid Authorization format")
        else
          let token := replace (txt "Bearer ") [] authorization in
          if decide (token ≠ API_KEY)
          then HTTPException 401 (txt "Invalid API key")
          else Return ()
    end.

(** The body that all tool endpoints share: the answer of the tool becomes
    a [ToolResponse] with [success] left at its default, an exception
    becomes the status 400. *)
Definition tool_response (run : M str) : World → http ToolResponse * World :=
  λ w,
    match run w with
    | (Ok result, w') => (Return (mkToolResponse result true), w')
    | (Raise e, w') => (HTTPException 400 (exn_str e), w')
    end.

(** An endpoint declared with [Depends(verify_api_key)]. *)
Definition depends_verify_api_key (API_KEY : str) (authorization : option str)
    (body : World → http ToolResponse * World)
  : World → http ToolResponse * World :=
  λ w,
    match verify_api_key API_KEY authorization with
    | Return _ => body w
    | HTTPException status_code detail => (HTTPException status_code detail, w)
    end.

(** The endpoints of the tools of [execute_tool]: [/files/create],
    [/files/list], [/sections/read], [/files/edit], [/sections/update] and
    [/files/delete]. *)
Definition endpoint (API_KEY : str) (authorization : option str) (env : Env)
    (t : tool) (arguments : Arguments) : World → http ToolResponse * World :=
  match t with
  | create_file =>
      depends_verify_api_key API_KEY authorization
        (tool_response (execute_tool env create_file arguments))
  | list_files => tool_response (execute_tool env list_files arguments)
  | get_section_content =>
      tool_response (execute_tool env get_section_content arguments)
  | edit_file =>
      depends_verify_api_key API_KEY authorization
        (tool_response (execute_tool env edit_file arguments))
  | update_section =>
      depends_verify_api_key API_KEY authorization
        (tool_response (execute_tool env update_section arguments))
  | delete_file =>
      depends_verify_api_key API_KEY authorization
        (tool_response (execute_tool env delete_file arguments))
  end.

(** ** Vocabulary of the further properties *)

(** [old in s] *)
Fixpoint contains (s old : str) : bool :=
  startswith s old
  || match s with
     | [] => false
     | _ :: r => contains r old
     end.

(** The header that carries [token] as the scheme asks. *)
Definition bearer (token : str) : option str :=
  Some (txt "Bearer " ++ token).

(** The mirror after [refs.bib] was deleted and the deletion committed. *)
Definition delete_arguments : Arguments :=
  mkArguments None (Some (txt "refs.bib")) None None None None None None.

Definition world_after_delete : World :=
  mkWorld (delete (mirror_root ++ [txt "refs.bib"]) (mirror_files mirror_root))
          (Some (txt "Overleaf MCP", txt "mcp@overleaf.local"))
          []
          [mkCommit (txt "Delete refs.bib") [Removed (txt "refs.bib")]].

(** A computation that leaves the world as it is, also when it raises. *)
Definition pure_step {A} (m : M A) : Prop :=
  ∀ w r w', m w = (r, w') → w' = w.

(** [w'] is [w], or [w] after the refresh of the project that the call
    names. *)
Definition refreshed (env : Env) (arguments : Arguments) (w w' : World)
  : Prop :=
  w' = w ∨
  ∃ project,
    get_project_config (env_config env) (arg_project_name arguments)
      = Ok project ∧
    w' = (ensure_repo env project w).2.

(** The keys that a branch of [execute_tool] reads with [arguments[key]] are
    there. *)
Definition has_required (t : tool) (a : Arguments) : bool :=
  match t with
  | create_file | edit_file =>
      bool_decide (is_Some (arg_file_path a))
      && bool_decide (is_Some (arg_content a))
  | update_section =>
      bool_decide (is_Some (arg_file_path a))
      && bool_decide (is_Some (arg_section_title a))
      && bool_decide (is_Some (arg_new_content a))
  | get_section_content =>
      bool_decide (is_Some (arg_file_path a))
      && bool_decide (is_Some (arg_section_title a))
  | delete_file => bool_decide (is_Some (arg_file_path a))
  | list_files => true
  end.

(** The branches that take a [file_path]. *)
Definition takes_path (t : tool) : bool :=
  match t with
  | list_files => false
  | _ => true
  end.

(** What the three tools that need an existing file answer without one. *)
Definition missing_file_msg (t : tool) (file_path : str) : str :=
  txt "Error: File '" ++ file_path
  ++ (match t with
      | edit_file => txt "' not found. Use create_file to create it."
      | _ => txt "' not found"
      end).

(** The message of the commit that a mutating tool makes: the caller's
    [commit_message], or the default of the tool. *)
Definition commit_message_of (t : tool) (a : Arguments) : str :=
  let file_path := default [] (arg_file_path a) in
  let section_title := default [] (arg_section_title a) in
  default
    (match t with
     | create_file => txt "Add " ++ file_path
     | edit_file => txt "Update " ++ file_path
     | update_section => txt "Update section '" ++ section_title ++ txt "'"
     | delete_file => txt "Delete " ++ file_path
     | _ => []
     end)
    (arg_commit_message a).

(** What a mutating tool stages. *)
Definition staged (t : tool) (file_path : str) : change :=
  match t with
  | delete_file => Removed file_path
  | _ => Added file_path
  end.

(** The repository after the commit of a mutating tool that started from
    [w1] and left the files [files]. *)
Definition committed (env : Env) (t : tool) (a : Arguments) (w1 : World)
    (files : gmap (list str) node) : World :=
  mkWorld files
          (Some (default (env_author env) (git_user w1)))
          []
          (mkCommit (commit_message_of t a)
                    (index w1 ++ [staged t (default [] (arg_file_path a))])
           :: commits w1).

(** What [read_file] answers for a file with the text [content]. *)
Definition content_msg (file_path content : str) : str :=
  txt "Content of '" ++ file_path ++ txt "':" ++ [nl; nl] ++ content.



(** The beginning of [SECTION_PATTERN], up to the opening brace, tried at
    the head of [s]. *)
Definition heading_opener (s : str) : option str :=
  s1 ← lit (txt "\") s;
  alt KINDS s1 (λ kd s2, opt_star s2 (λ s3, lit (txt "{") s3)).

(** No heading command opens anywhere in [s]. *)
Definition heading_free (s : str) : bool :=
  forallb (λ i, bool_decide (heading_opener (drop i s) = None))
          (seq 0 (length s)).

(** The headings of a document, in its order. *)
Definition headings (content : str) : list (str * str) :=
  map (λ s, (type s, title s)) (parse_sections content).

(** New content for the section [Intro] of [doc_intro], and the document
    that the update produces. *)
Definition new_body : str := txt " See \cite{k}. ".

Definition doc_updated : str :=
  txt "\section{Intro}" ++ [nl] ++ txt "See \cite{k}." ++ [nl]
  ++ txt "\section{Methods}" ++ [nl] ++ txt "World" ++ [nl].



(** [s.split(c)] for a separator of one character. *)
Fixpoint split_on (c : ascii) (s : str) : list str :=
  match s with
  | [] => [[]]
  | x :: r =>
      if decide (x = c) then [] :: split_on c r
      else match split_on c r with
           | h :: t => (x :: h) :: t
           | [] => [[x]]
           end
  end.

(** A match that starts in [a] ends in [a], whatever the text [x] that
    follows. *)
Definition no_straddle (a x : str) : Prop :=
  ∀ i kd t rest, i < length a →
    SECTION_PATTERN (drop i a ++ x) = Some (kd, t, rest) →
    ∃ rest', rest = rest' ++ x
             ∧ SECTION_PATTERN (drop i a) = Some (kd, t, rest').

(** * Properties *)

(** ** Literals and the heading pattern *)

Lemma lit_Some p s r : lit p s = Some r ↔ s = p ++ r.
Proof.
  revert s. induction p as [|a p IH]; intros s; simpl.
  - split; [by intros [= ->] | by intros ->].
  - destruct s as [|b s]; [split; [done | intros [=]] |].
    case_decide as Hab.
    + subst b. rewrite IH. split; [by intros -> | by intros [= ->]].
    + split; [done | intros [= ? ?]; by subst].
Qed.

Lemma lit_app p r : lit p (p ++ r) = Some r.
Proof. by apply lit_Some. Qed.

Lemma alt_Some {A} ks s (k : str → str → option A) x :
  alt ks s k = Some x →
  ∃ kd s', kd ∈ ks ∧ s = kd ++ s' ∧ k kd s' = Some x.
Proof.
  induction ks as [|kd ks IH]; simpl; [done |].
  destruct (lit kd s ≫= k kd) as [y|] eqn:E.
  - intros [= ->]. destruct (lit kd s) as [s'|] eqn:El; [|done].
    apply lit_Some in El. exists kd, s'. split; [left | done].
  - intros (kd' & s' & ? & ? & ?)%IH. exists kd', s'. split; [by right | done].
Qed.

Lemma opt_star_Some {A} s (k : str → option A) x :
  opt_star s k = Some x →
  ∃ star s', (star = [] ∨ star = txt "*") ∧ s = star ++ s' ∧ k s' = Some x.
Proof.
  unfold opt_star. destruct (lit (txt "*") s ≫= k) as [y|] eqn:E.
  - intros [= ->]. destruct (lit (txt "*") s) as [s'|] eqn:El; [|done].
    apply lit_Some in El. exists (txt "*"), s'. auto.
  - intros Hk. exists [], s. auto.
Qed.

(** A text splits in one way only at its first [c]. *)
Lemma first_split_unique (c : ascii) run run' rest rest' :
  run ++ c :: rest = run' ++ c :: rest' → c ∉ run → c ∉ run' →
  run = run' ∧ rest = rest'.
Proof.
  revert run'. induction run as [|a run IH]; intros [|b run'] E H H';
    simplify_eq/=; try done.
  - set_solver.
  - set_solver.
  - destruct (IH run') as [-> ->]; [done | set_solver.. | done].
Qed.

(** The group [[^}]+] followed by the closing brace: the greedy run stops at
    the first closing brace, and no shorter run is followed by one. *)
Lemma star_not_brace_close {A} (f : str → str → A) taken s x :
  star_not_brace taken s (λ t s5, s6 ← lit (txt "}") s5; Some (f t s6))
    = Some x ↔
  ∃ run rest, s = run ++ "}"%char :: rest ∧ ("}"%char ∉ run)
              ∧ x = f (taken ++ run) rest.
Proof.
  set (k := λ t s5, _).
  assert (Hnil : ∀ t, k t [] = None) by done.
  assert (Hcons : ∀ t c r, k t (c :: r)
            = if decide (c = "}"%char) then Some (f t r) else None).
  { intros t c r. unfold k. simpl. repeat case_decide; by simplify_eq/=. }
  clearbody k. revert taken x.
  induction s as [|c r IH]; intros taken x; cbn [star_not_brace].
  - rewrite Hnil. split; [done |]. intros (run & rest & E & _). by destruct run.
  - rewrite Hcons. case_decide as Hc.
    + subst c. split.
      * intros [= <-]. exists [], r. rewrite app_nil_r. set_solver.
      * intros (run & rest & E & Hrun & ->).
        destruct run as [|d run]; simplify_eq/=.
        -- by rewrite app_nil_r.
        -- set_solver.
    + destruct (star_not_brace (taken ++ [c]) r k) as [y|] eqn:E.
      * apply IH in E as (run & rest & -> & Hrun & ->). split.
        -- intros [= <-]. exists (c :: run), rest.
           rewrite <- app_assoc. set_solver.
        -- intros (run' & rest' & E' & Hrun' & ->).
           destruct run' as [|d run']; simplify_eq/=.
           rewrite <- app_assoc. simpl. f_equal.
           match goal with E : _ ++ _ = _ ++ _ |- _ =>
             apply first_split_unique in E as [-> ->]; [done | set_solver..]
           end.
      * split; [done |].
        intros (run' & rest' & E' & Hrun' & ->).
        destruct run' as [|d run']; simplify_eq/=.
        assert (is_Some (star_not_brace (taken ++ [d])
                           (run' ++ "}"%char :: rest') k)) as [? Hs].
        { eexists. apply IH. exists run', rest'.
          split; [done |]. split; [|done]. set_solver. }
        congruence.
Qed.

Lemma plus_not_brace_close {A} (f : str → str → A) s x :
  plus_not_brace s (λ t s5, s6 ← lit (txt "}") s5; Some (f t s6)) = Some x ↔
  ∃ t rest, s = t ++ "}"%char :: rest ∧ t ≠ [] ∧ ("}"%char ∉ t)
            ∧ x = f t rest.
Proof.
  unfold plus_not_brace. destruct s as [|c r].
  - split; [done |]. intros (t & rest & E & _). by destruct t.
  - case_decide as Hc.
    + split; [done |]. intros (t & rest & E & Ht & Hnt & _).
      destruct t; simplify_eq/=. set_solver.
    + rewrite star_not_brace_close. split.
      * intros (run & rest & -> & Hrun & ->). exists (c :: run), rest.
        set_solver.
      * intros (t & rest & E & Ht & Hnt & ->).
        destruct t as [|d t]; simplify_eq/=. exists t, rest. set_solver.
Qed.

(** What a match of [SECTION_PATTERN] looks like. *)
Lemma SECTION_PATTERN_Some s kd t rest :
  SECTION_PATTERN s = Some (kd, t, rest) →
  kd ∈ KINDS ∧ t ≠ [] ∧ ("}"%char ∉ t) ∧
  ∃ star, (star = [] ∨ star = txt "*") ∧ s = heading kd star t ++ rest.
Proof.
  unfold SECTION_PATTERN. intros H.
  destruct (lit (txt "\") s) as [s1|] eqn:E1; [|done]. cbn [mbind option_bind] in H.
  apply lit_Some in E1 as ->.
  apply alt_Some in H as (kd' & s2 & Hkd & -> & H).
  apply opt_star_Some in H as (star & s3 & Hstar & -> & H).
  destruct (lit (txt "{") s3) as [s4|] eqn:E4; [|done]. cbn [mbind option_bind] in H.
  apply lit_Some in E4 as ->.
  apply (plus_not_brace_close (λ t s6, (kd', t, s6))) in H
    as (t' & rest' & -> & Ht & Hnt & [= -> -> ->]).
  repeat split; [done..|]. exists star. split; [done |].
  unfold heading. by rewrite <- !app_assoc.
Qed.

Lemma heading_length kd star t : 0 < length (heading kd star t).
Proof. unfold heading. simpl. lia. Qed.

(** ** The scan *)

Lemma drop_cons_inv {A} (l : list A) n x r :
  drop n l = x :: r → drop (S n) l = r ∧ n < length l.
Proof.
  intros E. split.
  - replace (S n) with (n + 1) by lia. by rewrite <- drop_drop, E.
  - destruct (decide (n < length l)); [done |].
    rewrite drop_ge in E by lia. done.
Qed.

Lemma ordered_le lo lo' ms : lo' ≤ lo → ordered lo ms → ordered lo' ms.
Proof. destruct ms; simpl; [done |]. intros ? (? & ? & ?). split; [lia | done]. Qed.

Lemma finditer_from_ordered s pos skip :
  ordered (pos + skip) (finditer_from pos skip s).
Proof.
  revert pos skip. induction s as [|c r IH]; intros pos skip; [done |].
  cbn [finditer_from]. destruct skip as [|skip].
  - destruct (SECTION_PATTERN (c :: r)) as [[[kd t] rest]|] eqn:E.
    + apply SECTION_PATTERN_Some in E as (_ & _ & _ & star & _ & E).
      pose proof (heading_length kd star t) as Hlen.
      apply (f_equal length) in E. rewrite length_app in E.
      cbn [ordered m_start m_end]. split; [lia |]. split; [lia |].
      eapply ordered_le; [|apply IH]. lia.
    + eapply ordered_le; [|apply IH]. lia.
  - eapply ordered_le; [|apply IH]. lia.
Qed.

Lemma finditer_from_ok content s pos skip :
  drop pos content = s →
  Forall (λ m, pos + skip ≤ m_start m ∧ match_ok content m)
         (finditer_from pos skip s).
Proof.
  revert pos skip. induction s as [|c r IH]; intros pos skip Hs; [done |].
  apply drop_cons_inv in Hs as Hr. destruct Hr as [Hr Hpos].
  cbn [finditer_from]. destruct skip as [|skip].
  - destruct (SECTION_PATTERN (c :: r)) as [[[kd t] rest]|] eqn:E.
    + apply SECTION_PATTERN_Some in E as HE.
      destruct HE as (_ & _ & _ & star & _ & HE).
      pose proof (heading_length kd star t) as Hlen.
      assert (length (c :: r) - length rest = length (heading kd star t))
        as Hl by (rewrite HE, length_app; lia).
      assert (pos + length (c :: r) = length content) as Hc.
      { rewrite <- Hs, length_drop. lia. }
      apply Forall_cons. split.
      * split; [cbn; lia |]. unfold match_ok. cbn [m_start m_end group1 group2].
        rewrite Hl. split; [lia |]. split.
        { rewrite HE, length_app in Hc. lia. }
        rewrite Hs, E. do 2 f_equal.
        rewrite <- drop_drop, Hs, HE. by rewrite drop_app_length.
      * eapply Forall_impl; [apply IH, Hr |]. cbn. intros m [? ?].
        split; [lia | done].
    + eapply Forall_impl; [apply IH, Hr |]. cbn. intros m [? ?].
      split; [lia | done].
  - eapply Forall_impl; [apply IH, Hr |]. cbn. intros m [? ?].
    split; [lia | done].
Qed.

Lemma finditer_ordered content : ordered 0 (finditer content).
Proof. apply (finditer_from_ordered content 0 0). Qed.

Lemma finditer_ok content : Forall (match_ok content) (finditer content).
Proof.
  eapply Forall_impl; [by apply (finditer_from_ok content content 0 0) |].
  by intros m [_ ?].
Qed.

(** ** Sections from matches *)

Lemma parse_sections_link content :
  parse_sections content = link content (finditer content).
Proof.
  unfold parse_sections.
  enough (∀ pre ms,
    imap (λ i, section_of content (pre ++ ms) (length pre + i)) ms
      = link content ms) as H by apply (H []).
  intros pre ms. revert pre. induction ms as [|m rest IH]; intros pre; [done |].
  rewrite imap_cons. cbn [link]. f_equal.
  - unfold section_of. f_equal.
    rewrite lookup_app_r by lia.
    replace (length pre + 0 + 1 - length pre) with 1 by lia.
    by destruct rest.
  - rewrite <- (IH (pre ++ [m])). apply imap_ext. intros i x _. cbn.
    rewrite <- app_assoc, length_app. cbn. f_equal. lia.
Qed.


(** ** Coverage *)

Lemma link_tiles content ms lo :
  ordered lo ms → Forall (λ m, m_end m ≤ length content) ms →
  tiles (next_start content ms) (length content) (link content ms).
Proof.
  revert lo. induction ms as [|m rest IH]; intros lo Ho Hb; [done |].
  destruct Ho as (_ & Hm & Ho). apply Forall_cons in Hb as [Hme Hb].
  cbn [link tiles next_start make_section start_pos end_pos].
  assert (m_end m ≤ next_start content rest ≤ length content) as Hn.
  { destruct rest as [|m' rest']; cbn; [lia |].
    destruct Ho as (? & ? & _). apply Forall_cons in Hb as [? _]. lia. }
  split; [done |]. split; [lia |]. split; [lia |]. by eapply IH.
Qed.

Lemma tiles_lookup_ge lo hi secs j s :
  tiles lo hi secs → secs !! j = Some s →
  lo ≤ start_pos s ∧ start_pos s < end_pos s ∧ end_pos s ≤ hi.
Proof.
  revert lo j. induction secs as [|s0 rest IH]; intros lo j Ht Hj; [done |].
  destruct Ht as (Hs & Hlt & Hhi & Ht). destruct j as [|j]; simplify_eq/=.
  - lia.
  - destruct (IH _ _ Ht Hj) as (? & ? & ?). lia.
Qed.

Lemma tiles_adjacent lo hi secs i s s' :
  tiles lo hi secs → secs !! i = Some s → secs !! S i = Some s' →
  end_pos s = start_pos s'.
Proof.
  revert lo i. induction secs as [|s0 rest IH]; intros lo i Ht Hi Hi'; [done |].
  destruct Ht as (Hs & Hlt & Hhi & Ht). destruct i as [|i]; simplify_eq/=.
  - destruct rest as [|s1 rest]; simplify_eq/=. by destruct Ht as [-> _].
  - by eapply IH.
Qed.

Lemma tiles_last lo hi secs s :
  tiles lo hi secs → last secs = Some s → end_pos s = hi.
Proof.
  revert lo. induction secs as [|s0 rest IH]; intros lo Ht Hl; [done |].
  destruct Ht as (Hs & Hlt & Hhi & Ht).
  destruct rest as [|s1 rest]; simplify_eq/=; [done |]. by eapply IH.
Qed.

Lemma tiles_disjoint lo hi secs i j s s' :
  tiles lo hi secs → i < j → secs !! i = Some s → secs !! j = Some s' →
  end_pos s ≤ start_pos s'.
Proof.
  revert lo i j. induction secs as [|s0 rest IH]; intros lo i j Ht Hij Hi Hj;
    [done |].
  destruct Ht as (Hs & Hlt & Hhi & Ht).
  destruct j as [|j]; [lia |]. destruct i as [|i]; simplify_eq/=.
  - by destruct (tiles_lookup_ge _ _ _ _ _ Ht Hj) as (? & _).
  - eapply IH; [done | | done..]. lia.
Qed.

(** C2. Coverage invariant of parsing: in the list that [parse_sections]
    returns, each section ends where the next one starts and the last one
    ends at the length of the document; every range [[start_pos, end_pos)]
    is non-empty and lies inside the document, a later section starts no
    earlier than an earlier one ends (the list is ordered by start offset
    and nothing overlaps), and so the ranges tile the span from the first
    section's start to the length of the document. *)
Theorem parse_sections_coverage (content : str) :
  let secs := parse_sections content in
  (∀ i s s', secs !! i = Some s → secs !! S i = Some s' →
     end_pos s = start_pos s') ∧
  (∀ s, last secs = Some s → end_pos s = length content) ∧
  (∀ i s, secs !! i = Some s →
     start_pos s < end_pos s ∧ end_pos s ≤ length content) ∧
  (∀ i j s s', i < j → secs !! i = Some s → secs !! j = Some s' →
     start_pos s < start_pos s' ∧ end_pos s ≤ start_pos s') ∧
  (∀ s rest, secs = s :: rest → tiles (start_pos s) (length content) secs).
Proof.
  cbv zeta. rewrite parse_sections_link.
  assert (Forall (λ m, m_end m ≤ length content) (finditer content)) as Hb.
  { eapply Forall_impl; [apply finditer_ok |]. by intros m (_ & ? & _). }
  pose proof (link_tiles content (finditer content) 0
                (finditer_ordered content) Hb) as Ht.
  set (secs := link content (finditer content)) in *.
  set (lo := next_start content (finditer content)) in *.
  clearbody secs lo. split; [|split; [|split; [|split]]].
  - intros i s s'. by apply tiles_adjacent with lo (length content).
  - intros s. by apply tiles_last with lo.
  - intros i s Hi.
    destruct (tiles_lookup_ge _ _ _ _ _ Ht Hi) as (? & ? & ?). lia.
  - intros i j s s' Hij Hi Hj.
    pose proof (tiles_disjoint _ _ _ _ _ _ _ Ht Hij Hi Hj).
    destruct (tiles_lookup_ge _ _ _ _ _ Ht Hi) as (? & ? & ?). lia.
  - intros s rest ->. pose proof Ht as [E _]. by rewrite E.
Qed.

(** ** Sections and their matches *)

Lemma next_start_bounds content m rest :
  ordered (m_end m) rest → Forall (match_ok content) rest →
  m_end m ≤ length content →
  m_end m ≤ next_start content rest ∧ next_start content rest ≤ length content.
Proof.
  intros Ho Hok Hm. destruct rest as [|m' rest']; cbn; [lia |].
  destruct Ho as (? & ? & _). apply Forall_cons in Hok as [(_ & ? & _) _]. lia.
Qed.

Lemma link_elem content ms lo s :
  ordered lo ms → Forall (match_ok content) ms → s ∈ link content ms →
  ∃ m, m ∈ ms ∧ section_from content s m.
Proof.
  revert lo. induction ms as [|m rest IH]; intros lo Ho Hok Hs.
  - by apply elem_of_nil in Hs.
  - destruct Ho as (_ & Hm & Ho). apply Forall_cons in Hok as [Hmok Hok].
    cbn [link] in Hs. apply elem_of_cons in Hs as [-> | Hs].
    + exists m. split; [left |].
      destruct (next_start_bounds content m rest) as [? ?]; [done.. | |].
      { by destruct Hmok as (_ & ? & _). }
      unfold section_from. cbn. do 5 (split; [done |]). done.
    + destruct (IH _ Ho Hok Hs) as (m' & ? & ?). exists m'. split; [by right | done].
Qed.

Lemma find_section_Some secs t s :
  find_section secs t = Some s → s ∈ secs ∧ lower (title s) = lower t.
Proof.
  unfold find_section. intros [Hin Ht]%find_some. split.
  - by apply list_elem_of_In.
  - unfold title_matches in Ht. by apply bool_decide_eq_true in Ht.
Qed.

Lemma find_section_from content t s :
  find_section (parse_sections content) t = Some s →
  ∃ m, m ∈ finditer content ∧ section_from content s m.
Proof.
  intros [Hs _]%find_section_Some. rewrite parse_sections_link in Hs.
  eapply link_elem; [apply finditer_ordered | apply finditer_ok | done].
Qed.

Lemma slice_split a b e (s : str) :
  a ≤ b → b ≤ e → slice a e s = slice a b s ++ slice b e s.
Proof.
  intros Hab Hbe. unfold slice.
  replace (e - a) with ((b - a) + (e - b)) by lia.
  rewrite <- take_take_drop, drop_drop. do 3 f_equal. lia.
Qed.

Lemma take_slice_drop a b (s : str) :
  a ≤ b → s = take a s ++ slice a b s ++ drop b s.
Proof.
  intros Hab. unfold slice.
  rewrite <- (take_drop a s) at 1. f_equal.
  rewrite <- (take_drop (b - a) (drop a s)) at 1. f_equal.
  rewrite drop_drop. f_equal. lia.
Qed.

(** The text of a match is a heading command, and the match ends where that
    text ends. *)
Lemma match_ok_text content m :
  match_ok content m →
  ∃ star, (star = [] ∨ star = txt "*") ∧
    drop (m_start m) content
      = heading (group1 m) star (group2 m) ++ drop (m_end m) content ∧
    m_end m = m_start m + length (heading (group1 m) star (group2 m)) ∧
    slice (m_start m) (m_end m) content = heading (group1 m) star (group2 m).
Proof.
  intros (Hlt & Hle & Hp).
  apply SECTION_PATTERN_Some in Hp as (_ & _ & _ & star & Hstar & E).
  exists star. split; [done |]. split; [done |].
  assert (m_end m = m_start m + length (heading (group1 m) star (group2 m)))
    as Hend.
  { apply (f_equal length) in E. rewrite length_app, !length_drop in E. lia. }
  split; [done |]. unfold slice. rewrite E.
  apply take_app_length'. lia.
Qed.

(** ** The header pattern and its search *)

Lemma lit_star_brace (s : str) : lit (txt "*") (txt "{" ++ s) = None.
Proof. done. Qed.

Lemma header_pattern_Some kd t s rest :
  header_pattern kd t s = Some rest ↔
  ∃ star, (star = [] ∨ star = txt "*") ∧ s = heading kd star t ++ rest.
Proof.
  unfold header_pattern, heading. split.
  - intros H.
    destruct (lit (txt "\") s) as [s1|] eqn:E1; [|done].
    cbn [mbind option_bind] in H. apply lit_Some in E1 as ->.
    destruct (lit kd s1) as [s2|] eqn:E2; [|done].
    cbn [mbind option_bind] in H. apply lit_Some in E2 as ->.
    apply opt_star_Some in H as (star & s3 & Hstar & -> & H).
    destruct (lit (txt "{") s3) as [s4|] eqn:E4; [|done].
    cbn [mbind option_bind] in H. apply lit_Some in E4 as ->.
    destruct (lit t s4) as [s5|] eqn:E5; [|done].
    cbn [mbind option_bind] in H. apply lit_Some in E5 as ->.
    apply lit_Some in H as ->.
    exists star. split; [done |]. by rewrite <- !app_assoc.
  - intros (star & Hstar & ->). rewrite <- !app_assoc.
    rewrite lit_app. cbn [mbind option_bind].
    rewrite lit_app. cbn [mbind option_bind].
    unfold opt_star. destruct Hstar as [-> | ->].
    + rewrite app_nil_l, lit_star_brace. cbn [mbind option_bind].
      rewrite lit_app. cbn [mbind option_bind].
      rewrite lit_app. cbn [mbind option_bind]. by rewrite lit_app.
    + rewrite lit_app. cbn [mbind option_bind].
      rewrite lit_app. cbn [mbind option_bind].
      rewrite lit_app. cbn [mbind option_bind]. by rewrite lit_app.
Qed.

(** Where a heading was matched, its own header pattern matches, and it
    matches the same text. *)
Lemma header_pattern_of_match s kd t rest :
  SECTION_PATTERN s = Some (kd, t, rest) → header_pattern kd t s = Some rest.
Proof.
  intros (_ & _ & _ & star & Hstar & ->)%SECTION_PATTERN_Some.
  apply header_pattern_Some. by exists star.
Qed.

Lemma header_at_section content s m :
  section_from content s m →
  header_pattern (type s) (title s) (drop (start_pos s) content)
    = Some (drop (m_end m) content).
Proof.
  intros (-> & -> & -> & _ & _ & _ & _ & Hp). by apply header_pattern_of_match.
Qed.

Lemma re_search_from_Some pos kd t s a b :
  re_search_from pos kd t s = Some (a, b) →
  ∃ rest, pos ≤ a ∧ a - pos ≤ length s
    ∧ header_pattern kd t (drop (a - pos) s) = Some rest
    ∧ b = a + (length (drop (a - pos) s) - length rest)
    ∧ ∀ p, p < a - pos → header_pattern kd t (drop p s) = None.
Proof.
  revert pos. induction s as [|c r IH]; intros pos; cbn [re_search_from].
  - destruct (header_pattern kd t []) as [rest|] eqn:E; [|done].
    intros [= <- <-]. exists rest. rewrite Nat.sub_diag. cbn [drop].
    repeat split; [lia.. | done | lia].
  - destruct (header_pattern kd t (c :: r)) as [rest|] eqn:E.
    + intros [= <- <-]. exists rest. rewrite Nat.sub_diag. cbn [drop].
      repeat split; [lia.. | done | lia].
    + intros (rest & Hpos & Hlen & Hp & -> & Hmin)%IH. exists rest.
      replace (a - pos) with (S (a - S pos)) by lia. cbn [drop length].
      repeat split; [lia.. | done |].
      intros [|p] Hlt; cbn [drop]; [done |]. apply Hmin. lia.
Qed.

Lemma re_search_from_found pos kd t s p rest :
  header_pattern kd t (drop p s) = Some rest →
  ∃ a b, re_search_from pos kd t s = Some (a, b) ∧ a ≤ pos + p.
Proof.
  revert pos p. induction s as [|c r IH]; intros pos p Hp;
    cbn [re_search_from].
  - rewrite drop_nil in Hp. rewrite Hp. eexists _, _. split; [done | lia].
  - destruct (header_pattern kd t (c :: r)) as [rest'|] eqn:E.
    + eexists _, _. split; [done | lia].
    + destruct p as [|p]; [cbn [drop] in Hp; congruence |]. cbn [drop] in Hp.
      destruct (IH (S pos) p Hp) as (a & b & -> & ?).
      exists a, b. split; [done | lia].
Qed.

(** The header of a section that the lookup found is always found again,
    at the section's start or before it. *)
Lemma header_rematch_succeeds content t s :
  find_section (parse_sections content) t = Some s →
  ∃ a b, re_search (type s) (title s) content = Some (a, b)
         ∧ a ≤ start_pos s.
Proof.
  intros (m & _ & Hm)%find_section_from.
  apply header_at_section in Hm.
  by destruct (re_search_from_found 0 _ _ _ _ _ Hm) as (a & b & ? & ?); eauto.
Qed.

(** When the search lands on the section's own heading, it ends at the end
    of the match the section was made from. *)
Lemma header_rematch_own content s m header_end :
  section_from content s m →
  re_search (type s) (title s) content = Some (start_pos s, header_end) →
  header_end = m_end m.
Proof.
  intros Hm (rest & _ & _ & Hp & -> & _)%re_search_from_Some.
  rewrite Nat.sub_0_r in *. rewrite (header_at_section _ _ _ Hm) in Hp.
  injection Hp as <-. destruct Hm as (_ & _ & -> & _ & _ & Hlt & Hle & _).
  rewrite !length_drop. lia.
Qed.

(** ** Trimming *)

Lemma lstrip_split s :
  ∃ ws, s = ws ++ lstrip s ∧ Forall (λ c, isspace c = true) ws.
Proof.
  induction s as [|c r (ws & E & Hws)]; [by exists [] |].
  cbn [lstrip]. destruct (isspace c) eqn:Hc.
  - exists (c :: ws). split; [by rewrite E at 1 | by constructor].
  - by exists [].
Qed.

Lemma rstrip_split s :
  ∃ ws, s = rstrip s ++ ws ∧ Forall (λ c, isspace c = true) ws.
Proof.
  unfold rstrip. destruct (lstrip_split (rev s)) as (ws & E & Hws).
  exists (rev ws). split.
  - rewrite <- rev_app_distr, <- E. by rewrite rev_involutive.
  - by apply Forall_rev.
Qed.

Lemma strip_split s :
  ∃ ws1 ws2, s = ws1 ++ strip s ++ ws2
    ∧ Forall (λ c, isspace c = true) ws1 ∧ Forall (λ c, isspace c = true) ws2.
Proof.
  destruct (lstrip_split s) as (ws1 & E1 & H1).
  destruct (rstrip_split (lstrip s)) as (ws2 & E2 & H2).
  exists ws1, ws2. unfold strip. by rewrite <- E2.
Qed.

(** ** Retrieval of a section *)

(** C4, as the code has it.  The lookup by title returns the whole span of
    the matched section, from its start offset to its content-end: the
    heading command itself followed by the body, that is, by the substring
    from header-end to content-end. *)
Theorem get_section_by_title_full (content t : str) (s : Section) :
  find_section (parse_sections content) t = Some s →
  ∃ star header_end,
    (star = [] ∨ star = txt "*") ∧
    start_pos s < header_end ∧ header_end ≤ end_pos s ∧
    slice (start_pos s) header_end content
      = heading (type s) star (title s) ∧
    get_section_by_title content t
      = Some (heading (type s) star (title s)
              ++ slice header_end (end_pos s) content).
Proof.
  intros Hf. destruct (find_section_from _ _ _ Hf) as (m & _ & Hm).
  destruct Hm as (Hty & Hti & Hst & Hend & Hlen & Hok).
  destruct (match_ok_text _ _ Hok) as (star & Hstar & _ & _ & Hsl).
  destruct Hok as (Hlt & _ & _).
  exists star, (m_end m). rewrite Hty, Hti, Hst.
  split; [done |]. split; [done |]. split; [done |]. split; [done |].
  unfold get_section_by_title. rewrite Hf. cbn [mbind option_bind].
  rewrite Hst, <- Hsl. f_equal. apply slice_split; lia.
Qed.

Lemma get_section_by_title_full_witness :
  ∃ star header_end,
    (star = [] ∨ star = txt "*") ∧
    0 < header_end ∧ header_end ≤ 22 ∧
    slice 0 header_end doc_intro = heading (txt "section") star (txt "Intro") ∧
    get_section_by_title doc_intro (txt "intro")
      = Some (heading (txt "section") star (txt "Intro")
              ++ slice header_end 22 doc_intro).
Proof.
  apply (get_section_by_title_full doc_intro (txt "intro")
           (mkSection (txt "section") (txt "Intro") (txt "Hello") 0 22)).
  vm_compute. reflexivity.
Defined.

(** C4, as the specification states it, fails: on the scenario document the
    lookup of [Intro] returns the heading command with the body, not the
    body alone (the substring from header-end 15 to content-end 22). *)
Lemma get_section_by_title_not_body :
  ∃ m s,
    finditer doc_intro !! 0 = Some m ∧
    find_section (parse_sections doc_intro) (txt "Intro") = Some s ∧
    start_pos s = m_start m ∧
    get_section_by_title doc_intro (txt "Intro")
      = Some (txt "\section{Intro}" ++ [nl] ++ txt "Hello" ++ [nl]) ∧
    get_section_by_title doc_intro (txt "Intro")
      ≠ Some (slice (m_end m) (end_pos s) doc_intro).
Proof.
  eexists _, _. split; [vm_compute; reflexivity |].
  split; [vm_compute; reflexivity |]. split; [reflexivity |].
  split; [vm_compute; reflexivity |]. vm_compute. discriminate.
Qed.

(** ** Update of a section *)

(** X1. The branch that reports [Could not locate section header] is never
    taken: whenever the lookup finds a section, the search for its header
    succeeds. *)
Theorem update_section_header_located (content t new_content : str) :
  update_section_text content t new_content ≠ HeaderNotLocated.
Proof.
  unfold update_section_text.
  destruct (find_section (parse_sections content) t) as [s|] eqn:Hf; [|done].
  destruct (header_rematch_succeeds _ _ _ Hf) as (a & b & -> & _). done.
Qed.

(** X2. Update locality under the condition that the search lands on the
    section's own heading: the new document is the old one up to the
    section's header-end, the trimmed new content between two newlines, and
    the old one from the section's content-end on. *)
Theorem update_section_local (content t new_content : str) (s : Section)
    (header_end : nat) :
  find_section (parse_sections content) t = Some s →
  re_search (type s) (title s) content = Some (start_pos s, header_end) →
  ∃ m out,
    m ∈ finditer content ∧ m_start m = start_pos s ∧ m_end m = header_end ∧
    header_end ≤ end_pos s ∧ end_pos s ≤ length content ∧
    update_section_text content t new_content = NewFileContent out ∧
    out = take header_end content ++ [nl] ++ strip new_content ++ [nl]
          ++ drop (end_pos s) content ∧
    take header_end out = take header_end content ∧
    drop (length out - (length content - end_pos s)) out
      = drop (end_pos s) content.
Proof.
  intros Hf Hs. destruct (find_section_from _ _ _ Hf) as (m & Hin & Hm).
  pose proof (header_rematch_own _ _ _ _ Hm Hs) as ->.
  destruct Hm as (_ & _ & Hst & Hend & Hlen & Hok).
  eexists m, _. split; [done |]. split; [done |]. split; [done |].
  split; [done |]. split; [done |].
  unfold update_section_text. rewrite Hf, Hs.
  split; [done |]. split; [done |].
  assert (length (take (m_end m) content) = m_end m) as Ht.
  { rewrite length_take. lia. }
  split.
  - by rewrite take_app_length'.
  - rewrite !app_assoc. apply drop_app_length'.
    rewrite !length_app, length_drop. lia.
Qed.

Lemma update_section_local_witness :
  ∃ m out,
    m ∈ finditer doc_intro ∧ m_start m = 0 ∧ m_end m = 15 ∧
    15 ≤ 22 ∧ 22 ≤ length doc_intro ∧
    update_section_text doc_intro (txt "intro") (txt "Goodbye")
      = NewFileContent out ∧
    out = take 15 doc_intro ++ [nl] ++ strip (txt "Goodbye") ++ [nl]
          ++ drop 22 doc_intro ∧
    take 15 out = take 15 doc_intro ∧
    drop (length out - (length doc_intro - 22)) out = drop 22 doc_intro.
Proof.
  apply (update_section_local doc_intro (txt "intro") (txt "Goodbye")
           (mkSection (txt "section") (txt "Intro") (txt "Hello") 0 22) 15);
    vm_compute; reflexivity.
Defined.

(** C1 at a failing input.  In [doc_nested] the section titled [B] starts at
    offset 27 and its heading ends at 38, but the header search stops at the
    copy of the heading inside the first title (11..22): the update cuts the
    document at 22, and the first section's body and the target's own
    heading (offsets 22..38, all before the target's header-end) are lost. *)
Theorem update_section_not_local :
  ∃ m s out,
    finditer doc_nested !! 1 = Some m ∧
    find_section (parse_sections doc_nested) (txt "b") = Some s ∧
    start_pos s = m_start m ∧ m_end m = 38 ∧
    update_section_text doc_nested (txt "b") (txt "N") = NewFileContent out ∧
    out = txt "\section{A \section{B}" ++ [nl] ++ txt "N" ++ [nl] ∧
    take (m_end m) out ≠ take (m_end m) doc_nested ∧
    out ≠ take (m_end m) doc_nested ++ [nl] ++ strip (txt "N") ++ [nl]
          ++ drop (end_pos s) doc_nested.
Proof.
  eexists _, _, _. split; [vm_compute; reflexivity |].
  split; [vm_compute; reflexivity |]. split; [reflexivity |].
  split; [reflexivity |]. split; [vm_compute; reflexivity |].
  split; [reflexivity |]. split; vm_compute; discriminate.
Qed.

(** C9 at a failing input.  In [doc_nested] the lookup of [b] finds the
    section that starts at 27 and whose heading ends at 38; the header
    search succeeds, but at 11..22, so [header_end] is 22 and not 38. *)
Theorem header_rematch_before_section :
  ∃ m s,
    finditer doc_nested !! 1 = Some m ∧
    find_section (parse_sections doc_nested) (txt "b") = Some s ∧
    start_pos s = m_start m ∧ m_start m = 27 ∧ m_end m = 38 ∧
    re_search (type s) (title s) doc_nested = Some (11, 22).
Proof.
  eexists _, _. split; [vm_compute; reflexivity |].
  split; [vm_compute; reflexivity |]. by vm_compute.
Qed.

(** ** Round trip *)

(** C5, as the code has it.  The retrieval returns the heading with the
    body.  When the body alone (the retrieved text without its heading) is
    written back with [update_section], and the header search lands on the
    section's own heading, the new document is the old one with the
    whitespace around the body replaced by one newline on each side. *)
Theorem section_body_round_trip (content t : str) (s : Section)
    (header_end : nat) :
  find_section (parse_sections content) t = Some s →
  re_search (type s) (title s) content = Some (start_pos s, header_end) →
  ∃ full body ws1 ws2,
    get_section_by_title content t = Some full ∧
    full = slice (start_pos s) header_end content ++ body ∧
    body = slice header_end (end_pos s) content ∧
    content = take header_end content ++ body ++ drop (end_pos s) content ∧
    body = ws1 ++ strip body ++ ws2 ∧
    Forall (λ c, isspace c = true) ws1 ∧
    Forall (λ c, isspace c = true) ws2 ∧
    update_section_text content t body
      = NewFileContent (take header_end content ++ [nl] ++ strip body ++ [nl]
                        ++ drop (end_pos s) content).
Proof.
  intros Hf Hs. destruct (find_section_from _ _ _ Hf) as (m & _ & Hm).
  pose proof (header_rematch_own _ _ _ _ Hm Hs) as ->.
  destruct Hm as (_ & _ & Hst & Hend & Hlen & Hlt & _).
  destruct (strip_split (slice (m_end m) (end_pos s) content))
    as (ws1 & ws2 & Hsp & H1 & H2).
  exists (slice (start_pos s) (end_pos s) content),
    (slice (m_end m) (end_pos s) content), ws1, ws2.
  split; [unfold get_section_by_title; by rewrite Hf |].
  split; [apply slice_split; lia |]. split; [done |].
  split; [by apply take_slice_drop |].
  split; [done |]. split; [done |]. split; [done |].
  unfold update_section_text. by rewrite Hf, Hs.
Qed.

Lemma section_body_round_trip_witness :
  ∃ full body ws1 ws2,
    get_section_by_title doc_intro (txt "Intro") = Some full ∧
    full = slice 0 15 doc_intro ++ body ∧
    body = slice 15 22 doc_intro ∧
    doc_intro = take 15 doc_intro ++ body ++ drop 22 doc_intro ∧
    body = ws1 ++ strip body ++ ws2 ∧
    Forall (λ c, isspace c = true) ws1 ∧
    Forall (λ c, isspace c = true) ws2 ∧
    update_section_text doc_intro (txt "Intro") body
      = NewFileContent (take 15 doc_intro ++ [nl] ++ strip body ++ [nl]
                        ++ drop 22 doc_intro).
Proof.
  apply (section_body_round_trip doc_intro (txt "Intro")
           (mkSection (txt "section") (txt "Intro") (txt "Hello") 0 22) 15);
    vm_compute; reflexivity.
Defined.

(** C5, as the specification states it, fails: on the scenario document, writing
    back what the retrieval returned for [Intro] puts the heading command
    into the document a second time; the result differs from the original
    in more than whitespace. *)
Lemma round_trip_duplicates_heading :
  ∃ full out,
    get_section_by_title doc_intro (txt "Intro") = Some full ∧
    update_section_text doc_intro (txt "Intro") full = NewFileContent out ∧
    out = txt "\section{Intro}" ++ [nl] ++ txt "\section{Intro}" ++ [nl]
          ++ txt "Hello" ++ [nl]
          ++ txt "\section{Methods}" ++ [nl] ++ txt "World" ++ [nl] ∧
    without_space out ≠ without_space doc_intro.
Proof.
  eexists _, _. split; [vm_compute; reflexivity |].
  split; [vm_compute; reflexivity |]. split; [reflexivity |].
  vm_compute. discriminate.
Qed.

(** ** Paths *)

Lemma startswith_prefix s p : startswith s p = true ↔ p `prefix_of` s.
Proof.
  unfold startswith. destruct (lit p s) as [r|] eqn:E.
  - apply lit_Some in E. split; [by exists r | done].
  - split; [done |]. intros [r ->]. by rewrite lit_app in E.
Qed.

Lemma path_str_cons seg ps :
  path_str (seg :: ps) = txt "/" ++ seg ++ concat (map (λ x, txt "/" ++ x) ps).
Proof. done. Qed.

Lemma path_str_slash ps : ∃ r, path_str ps = "/"%char :: r.
Proof. destruct ps; cbn; eauto. Qed.

(** Below the root as a path means below the root as a text. *)
Lemma path_str_prefix root ps :
  root `prefix_of` ps → path_str root `prefix_of` path_str ps.
Proof.
  intros [k ->]. destruct root as [|r root].
  - destruct (path_str_slash ([] ++ k)) as [x ->]. by exists x.
  - change ((r :: root) ++ k) with (r :: (root ++ k)).
    rewrite !path_str_cons, List.map_app, concat_app.
    eexists. by rewrite <- !app_assoc.
Qed.

Lemma split_slash_free s : Forall slash_free (split "/" s).
Proof.
  induction s as [|c r IH]; cbn [split].
  - repeat constructor. by apply not_elem_of_nil.
  - case_decide as Hc.
    + constructor; [apply not_elem_of_nil | done].
    + destruct (split "/" r) as [|h t].
      * repeat constructor. unfold slash_free. set_solver.
      * apply Forall_cons in IH as [Hh Ht]. constructor; [|done].
        unfold slash_free in *. set_solver.
Qed.

Lemma segments_component p : Forall component (segments p).
Proof.
  unfold segments. apply Forall_forall. intros seg Hin%list_elem_of_In.
  apply filter_In in Hin as [Hin%list_elem_of_In Hf].
  pose proof (split_slash_free p) as H. rewrite Forall_forall in H.
  split; [|auto]. intros ->. by vm_compute in Hf.
Qed.

Lemma removelast_Forall {A} (P : A → Prop) l :
  Forall P l → Forall P (removelast l).
Proof.
  induction 1 as [|x l Hx Hl IH]; [done |]. cbn.
  destruct l; [done |]. by constructor.
Qed.

Lemma resolve_Forall (P : str → Prop) cwd p :
  Forall P cwd → Forall P (parts p) → Forall P (resolve cwd p).
Proof.
  unfold resolve. intros Hc Hp.
  assert (Forall P (if absolute p then [] else cwd)) as Hacc
    by by destruct (absolute p).
  revert Hacc. generalize (if absolute p then [] else cwd).
  induction Hp as [|seg segs Hseg Hsegs IH]; intros acc Hacc; [done |].
  cbn [fold_left]. apply IH. unfold resolve_step. case_decide.
  - by apply removelast_Forall.
  - apply Forall_app. by repeat constructor.
Qed.

Lemma joinpath_component base target :
  Forall component (parts base) →
  Forall component (parts (joinpath base target)).
Proof.
  intros Hb. unfold joinpath. destruct (absolute (Path_of target)); cbn.
  - apply segments_component.
  - apply Forall_app. split; [done | apply segments_component].
Qed.

(** A name without a slash that begins a text [p ++ x], where [x] is empty
    or begins with a slash, begins the name [p] already. *)
Lemma slash_free_prefix r p x :
  slash_free r → (x = [] ∨ ∃ y, x = "/"%char :: y) →
  r `prefix_of` p ++ x → r `prefix_of` p.
Proof.
  unfold slash_free. revert p. induction r as [|a r IH]; intros p Hr Hx Hp.
  - apply prefix_nil.
  - destruct p as [|b p].
    + destruct Hx as [-> | [y ->]].
      * by apply prefix_nil_not in Hp.
      * apply prefix_cons_inv_1 in Hp. set_solver.
    + cbn in Hp. pose proof (prefix_cons_inv_1 _ _ _ _ Hp) as ->.
      apply prefix_cons. apply prefix_cons_inv_2 in Hp.
      apply IH; [set_solver | done | done].
Qed.

(** Two names without a slash, each followed by a slash or by the end of
    the text, are the same name when one text begins the other. *)
Lemma slash_free_same r p y z :
  slash_free r → slash_free p → (z = [] ∨ ∃ z', z = "/"%char :: z') →
  r ++ "/"%char :: y `prefix_of` p ++ z →
  r = p ∧ "/"%char :: y `prefix_of` z.
Proof.
  unfold slash_free. revert p. induction r as [|a r IH]; intros p Hr Hp Hz H.
  - destruct p as [|b p]; [done |].
    cbn in H. apply prefix_cons_inv_1 in H. set_solver.
  - destruct p as [|b p].
    + destruct Hz as [-> | [z' ->]].
      * by apply prefix_nil_not in H.
      * cbn in H. apply prefix_cons_inv_1 in H. set_solver.
    + cbn in H. pose proof (prefix_cons_inv_1 _ _ _ _ H) as ->.
      apply prefix_cons_inv_2 in H.
      destruct (IH p) as [-> ?]; [set_solver | set_solver | done | done |].
      done.
Qed.

Lemma concat_slash_shape (ps : list str) :
  concat (map (λ x, txt "/" ++ x) ps) = []
  ∨ ∃ y, concat (map (λ x, txt "/" ++ x) ps) = "/"%char :: y.
Proof. destruct ps; cbn; eauto. Qed.

(** The texts of two paths: when the first begins the second, the first
    path is an ancestor of the second or a sibling with a shorter name. *)
Lemma concat_prefix_inv (root ps : list str) :
  root ≠ [] → Forall slash_free root → Forall slash_free ps →
  concat (map (λ x, txt "/" ++ x) root)
    `prefix_of` concat (map (λ x, txt "/" ++ x) ps) →
  root `prefix_of` ps ∨ sibling_extension root ps.
Proof.
  revert ps. induction root as [|r root IH]; intros ps Hne Hroot Hps H; [done |].
  apply Forall_cons in Hroot as [Hr Hroot].
  destruct ps as [|p ps]; [by apply prefix_nil_not in H |].
  apply Forall_cons in Hps as [Hp Hps].
  cbn [map concat] in H. rewrite <- !app_assoc in H. cbn in H.
  apply prefix_cons_inv_2 in H.
  destruct root as [|r' root].
  - cbn in H. rewrite app_nil_r in H.
    apply slash_free_prefix in H; [|done | apply concat_slash_shape].
    destruct (decide (r = p)) as [-> | Hrp].
    + left. apply prefix_cons, prefix_nil.
    + right. by exists [], r, p, ps.
  - apply slash_free_same in H as [-> H];
      [|done | done | apply concat_slash_shape].
    destruct (IH ps) as [Hpre | (up & r0 & p0 & rest & E1 & E2 & Hrp & Hne')];
      [done | done | done | |  |].
    + cbn [map concat]. by rewrite <- app_assoc.
    + left. by apply prefix_cons.
    + right. exists (p :: up), r0, p0, rest. rewrite E1, E2. done.
Qed.

(** C3, as the code has it.  [validate_path] decides on the resolved path,
    not on the spelling of the input.  Every input that resolves to the
    root or below it is accepted, and the result is that resolved path;
    an input is rejected with the path-escape error when its resolved path
    is neither below the root nor in a sibling directory whose name begins
    with the root's name; and an accepted input always yields its resolved
    path. *)
Theorem validate_path_resolved (cwd : list str) (base_path : Path)
    (target_path : str) :
  let root := resolve cwd base_path in
  let resolved := resolve cwd (joinpath base_path target_path) in
  (root `prefix_of` resolved →
     validate_path cwd base_path target_path = Ok resolved) ∧
  (Forall component cwd → Forall component (parts base_path) →
   ¬ root `prefix_of` resolved → ¬ sibling_extension root resolved →
     validate_path cwd base_path target_path
       = Raise (ValueError (escapes_msg target_path))) ∧
  (∀ r, validate_path cwd base_path target_path = Ok r → r = resolved).
Proof.
  cbv zeta. unfold validate_path.
  set (root := resolve cwd base_path).
  set (resolved := resolve cwd (joinpath base_path target_path)).
  split; [|split].
  - intros Hin%path_str_prefix%startswith_prefix. by rewrite Hin.
  - intros Hcwd Hbase Hnot Hsib.
    destruct (startswith (path_str resolved) (path_str root)) eqn:Hs; [|done].
    exfalso. apply startswith_prefix in Hs.
    assert (Forall component root) as Hroot by by apply resolve_Forall.
    assert (Forall component resolved) as Hres
      by by apply resolve_Forall, joinpath_component.
    destruct root as [|r root]; [by destruct Hnot; apply prefix_nil |].
    destruct resolved as [|p resolved].
    + rewrite path_str_cons in Hs. cbn in Hs.
      apply prefix_cons_inv_2, prefix_nil_inv in Hs.
      apply Forall_cons in Hroot as [[Hr _] _]. by destruct r.
    + destruct (concat_prefix_inv (r :: root) (p :: resolved)); try done.
      * eapply Forall_impl; [exact Hroot | by intros ? [_ ?]].
      * eapply Forall_impl; [exact Hres | by intros ? [_ ?]].
  - intros r. by destruct (startswith _ _); intros [= <-].
Qed.

(** C3, as the specification states it, fails: a relative path with a [..]
    component and a path with an absolute prefix are both accepted when they
    resolve inside the root. *)
Lemma validate_path_accepts_dotdot :
  has_dotdot (txt "chapters/../main.tex") ∧
  validate_path [txt "srv"] (Path_of (txt "./overleaf_cache/abc"))
                (txt "chapters/../main.tex")
    = Ok [txt "srv"; txt "overleaf_cache"; txt "abc"; txt "main.tex"] ∧
  is_absolute (txt "/srv/overleaf_cache/abc/main.tex") ∧
  validate_path [txt "srv"] (Path_of (txt "./overleaf_cache/abc"))
                (txt "/srv/overleaf_cache/abc/main.tex")
    = Ok [txt "srv"; txt "overleaf_cache"; txt "abc"; txt "main.tex"].
Proof.
  split; [|split; [|split]]; try (vm_compute; reflexivity).
  unfold has_dotdot. vm_compute. apply list_elem_of_In. cbn. tauto.
Qed.

(** The weakness of the comparison of texts: a sibling directory whose name
    begins with the root's name passes. *)
Example validate_path_sibling :
  validate_path [txt "srv"] (Path_of (txt "./overleaf_cache/abc"))
                (txt "../abc-evil/x")
    = Ok [txt "srv"; txt "overleaf_cache"; txt "abc-evil"; txt "x"].
Proof. vm_compute. reflexivity. Qed.

(** The classic escapes are rejected. *)
Example validate_path_rejects :
  validate_path [txt "srv"] (Path_of (txt "./overleaf_cache/abc"))
                (txt "../../etc/passwd")
    = Raise (ValueError (escapes_msg (txt "../../etc/passwd"))) ∧
  validate_path [txt "srv"] (Path_of (txt "./overleaf_cache/abc"))
                (txt "/etc/passwd")
    = Raise (ValueError (escapes_msg (txt "/etc/passwd"))).
Proof. split; vm_compute; reflexivity. Qed.

(** ** Project registry *)

Lemma dict_get_None {V} (d : list (str * V)) k :
  k ∉ dict_keys d → dict_get d k = None.
Proof.
  unfold dict_get, dict_keys. induction d as [|[k' v] d IH]; [done |].
  cbn. intros [Hk Hd]%not_elem_of_cons. rewrite bool_decide_eq_false_2 by done.
  by apply IH.
Qed.

(** C8. Project lookup defaulting.  With no project, the lookup fails with
    the unconfigured error, whatever the name.  A supplied name that is not
    configured fails with the not-found error that lists the configured
    names.  With the name omitted, the lookup returns the project that the
    configured default names (a default is configured when
    [default_project] is a non-empty name); without a configured default it
    returns the sole project. *)
Theorem get_project_config_lookup (config : Config) :
  (projects config = [] →
     ∀ n, get_project_config config n = Raise (ValueError unconfigured_msg)) ∧
  (∀ n, projects config ≠ [] → n ∉ dict_keys (projects config) →
     get_project_config config (Some n)
       = Raise (ValueError (txt "Project '" ++ n
                            ++ txt "' not found. Available: "
                            ++ join (txt ", ") (dict_keys (projects config))))) ∧
  (∀ d p, default_project config = Some d → d ≠ [] →
     dict_get (projects config) d = Some p →
     get_project_config config None = Ok p) ∧
  (∀ k p, default_project config = None ∨ default_project config = Some [] →
     projects config = [(k, p)] →
     get_project_config config None = Ok p).
Proof.
  unfold get_project_config. split; [|split; [|split]].
  - by intros ->.
  - intros n Hne Hn. destruct (projects config) as [|[first p0] rest] eqn:E;
      [done |]. by rewrite dict_get_None.
  - intros d p Hd Hne Hp. destruct (projects config) as [|[first p0] rest];
      [done |]. rewrite Hd. case_decide; [done |]. by rewrite Hp.
  - intros k p Hd ->. cbn.
    destruct Hd as [-> | ->]; cbn; by rewrite bool_decide_eq_true_2.
Qed.

Example get_project_config_default :
  let thesis := mkProject (txt "Thesis") (txt "abc") (txt "tok1") in
  let paper := mkProject (txt "Paper") (txt "def") (txt "tok2") in
  let config := mkConfig [(txt "thesis", thesis); (txt "paper", paper)]
                         (Some (txt "paper")) in
  get_project_config config None = Ok paper ∧
  get_project_config config (Some (txt "thesis")) = Ok thesis ∧
  get_project_config config (Some (txt "book"))
    = Raise (ValueError (txt "Project 'book' not found. Available: thesis, paper")) ∧
  get_project_config (mkConfig [] None) None
    = Raise (ValueError unconfigured_msg).
Proof. repeat split; vm_compute; reflexivity. Qed.

(** ** The mutation pipeline *)

(** Equations between closed terms are decided by evaluation; the proof
    keeps the terms as they are written. *)
Ltac vm_refl :=
  lazymatch goal with
  | |- @eq ?T _ ?r => vm_cast_no_check (@eq_refl T r)
  end.

Lemma bind_Ok {A B} (m : M A) (k : A → M B) w r w2 :
  bind m k w = (Ok r, w2) → ∃ a w', m w = (Ok a, w') ∧ k a w' = (Ok r, w2).
Proof.
  unfold bind. destruct (m w) as [[a|e] w'] eqn:E; [|done]. eauto.
Qed.

Lemma bind_step {A B} (m : M A) (k : A → M B) w a w' :
  m w = (Ok a, w') → bind m k w = k a w'.
Proof. unfold bind. by intros ->. Qed.

Lemma bind_raise {A B} (m : M A) (k : A → M B) w e w' :
  m w = (Raise e, w') → bind m k w = (Raise e, w').
Proof. unfold bind. by intros ->. Qed.

(** C6. Create-conflict atomicity.  When the target of [create_file] exists
    in the mirror (as the refresh by [ensure_repo] left it), the tool
    answers with the conflict message that points to [edit_file], and the
    world stays what the refresh left: no file is written, nothing is
    staged, no commit is made. *)
Theorem create_file_conflict (env : Env) (arguments : Arguments)
    (w w1 : World) (project : ProjectConfig) (file_path content : str)
    (target_path : list str) :
  get_project_config (env_config env) (arg_project_name arguments)
    = Ok project →
  ensure_repo env project w = (Ok (), w1) →
  arg_file_path arguments = Some file_path →
  arg_content arguments = Some content →
  validate_path (env_cwd env) (get_repo_path env (project_id project))
                file_path = Ok target_path →
  is_Some (lookup_node w1 target_path) →
  call_tool env create_file arguments w
    = (txt "Error: File '" ++ file_path
       ++ txt "' already exists. Use edit_file to modify it.", w1).
Proof.
  intros Hp He Hf Hc Hv [n Hn]. unfold call_tool, execute_tool.
  rewrite Hp, Hf, Hc. unfold lift, required.
  rewrite (bind_step _ _ w project w) by done.
  rewrite (bind_step _ _ w () w1) by done.
  rewrite (bind_step _ _ w1 file_path w1) by done.
  rewrite (bind_step _ _ w1 content w1) by done.
  rewrite Hv.
  rewrite (bind_step _ _ w1 target_path w1) by done.
  rewrite (bind_step _ _ w1 true w1); [done |].
  unfold path_exists. by rewrite Hn.
Qed.

Lemma create_file_conflict_witness :
  call_tool (env_offline (txt "./overleaf_cache")) create_file
    (mkArguments None (Some (txt "main.tex")) (Some (txt "new text"))
                 None None None None None) world0
  = (txt "Error: File '" ++ txt "main.tex"
     ++ txt "' already exists. Use edit_file to modify it.", world0).
Proof.
  apply (create_file_conflict (env_offline (txt "./overleaf_cache")) _
           world0 world0 thesis (txt "main.tex") (txt "new text")
           (mirror_root ++ [txt "main.tex"])).
  - vm_refl.
  - vm_refl.
  - reflexivity.
  - reflexivity.
  - vm_refl.
  - exists (File doc_intro). vm_refl.
Defined.

(** *** What each step leaves alone *)

Lemma lift_Ok {A} (r : result A) w a w' :
  lift r w = (Ok a, w') → r = Ok a ∧ w' = w.
Proof. unfold lift. by intros [= -> ->]. Qed.

Lemma required_Ok {A} key (v : option A) w a w' :
  required key v w = (Ok a, w') → v = Some a ∧ w' = w.
Proof. destruct v; cbv; [by intros [= -> ->] | done]. Qed.

Lemma ret_Ok {A} (a b : A) w w' : ret a w = (Ok b, w') → a = b ∧ w' = w.
Proof. unfold ret. by intros [= -> ->]. Qed.

Lemma path_exists_Ok p w b w' : path_exists p w = (Ok b, w') → w' = w.
Proof. unfold path_exists. by intros [= _ ->]. Qed.

Lemma read_text_Ok p w data w' : read_text p w = (Ok data, w') → w' = w.
Proof.
  unfold read_text. destruct (lookup_node w p) as [[?|]|]; [|done..].
  by intros [= _ ->].
Qed.

Lemma mkdir_parents_commits p w u w' :
  mkdir_parents p w = (Ok u, w') → commits w' = commits w.
Proof.
  unfold mkdir_parents. destruct (existsb _ _); [done |]. by intros [= _ <-].
Qed.

Lemma write_text_commits p data w u w' :
  write_text p data w = (Ok u, w') → commits w' = commits w.
Proof.
  unfold write_text. destruct (negb _); [done |].
  destruct (is_dir w p); [done |]. by intros [= _ <-].
Qed.

Lemma unlink_commits p w u w' :
  unlink p w = (Ok u, w') → commits w' = commits w.
Proof.
  unfold unlink. destruct (lookup_node w p) as [[?|]|]; [|done..].
  by intros [= _ <-].
Qed.

Lemma config_git_user_commits env w u w' :
  config_git_user env w = (Ok u, w') → commits w' = commits w.
Proof.
  unfold config_git_user. destruct (git_user w); by intros [= _ <-].
Qed.

Lemma index_add_commits file_path w u w' :
  index_add file_path w = (Ok u, w') → commits w' = commits w.
Proof. unfold index_add. by intros [= _ <-]. Qed.

Lemma index_remove_commits file_path w u w' :
  index_remove file_path w = (Ok u, w') → commits w' = commits w.
Proof. unfold index_remove. by intros [= _ <-]. Qed.

Lemma index_commit_commits commit_message w u w' :
  index_commit commit_message w = (Ok u, w') →
  commits w' = mkCommit commit_message (index w) :: commits w.
Proof. unfold index_commit. by intros [= _ <-]. Qed.

Lemma origin_push_Raise env w e :
  env_push env w = Raise e → origin_push env w = (Raise e, w).
Proof. unfold origin_push. by intros ->. Qed.

Lemma push_enabled (o : option bool) : o ≠ Some false → default true o = true.
Proof. by destruct o as [[|]|]. Qed.

(** *** Push failure *)

Tactic Notation "mstep" hyp(H) ident(x) ident(w') ident(E) :=
  apply bind_Ok in H as (x & w' & E & H); cbn beta in H.

(** C7, as the code has it.  A mutating tool is called with push enabled
    (absent or true), and the same call with push disabled goes through to
    its commit and ends in the world [w2].  When the push from [w2] fails,
    the caller receives the text [Error: <str(e)>] of the push error, and
    the world is [w2]: the written file and the new commit on top of the
    refreshed history stay, nothing is rolled back. *)
Theorem push_failure_reported (env : Env) (t : tool) (arguments : Arguments)
    (w w2 : World) (e : exn) :
  mutating t = true →
  arg_push arguments ≠ Some false →
  execute_tool env t (with_push false arguments) w
    = (Ok (committed_msg t arguments), w2) →
  env_push env w2 = Raise e →
  call_tool env t arguments w = (txt "Error: " ++ exn_str e, w2) ∧
  ∃ project w1 c,
    get_project_config (env_config env) (arg_project_name arguments)
      = Ok project ∧
    ensure_repo env project w = (Ok (), w1) ∧
    commits w2 = c :: commits w1.
Proof.
  intros Hmut Hpush%push_enabled H Hfail%origin_push_Raise.
  unfold call_tool. destruct t; try done; unfold execute_tool in *;
    cbn [with_push arg_project_name arg_file_path arg_content
         arg_commit_message arg_push arg_section_title arg_new_content
         default] in H.
  - (* create_file *)
    mstep H project w0 Hp. pose proof Hp as [Hp' ->]%lift_Ok.
    mstep H u w1 He. destruct u.
    mstep H file_path w' Hf. pose proof Hf as [Hf' ->]%required_Ok.
    mstep H content w' Hc. pose proof Hc as [_ ->]%required_Ok.
    mstep H target_path w' Hv. pose proof Hv as [_ ->]%lift_Ok.
    mstep H ex w' Hex. pose proof Hex as ->%path_exists_Ok.
    destruct ex.
    { apply ret_Ok in H as [H _]. unfold committed_msg in H. by rewrite Hf' in H. }
    mstep H u w3 Hmk. mstep H u' w4 Hwr. mstep H u'' w5 Hcf.
    mstep H u3 w6 Hadd. mstep H u4 w7 Hcm.
    apply ret_Ok in H as [_ <-].
    split.
    + rewrite (bind_step _ _ _ _ _ Hp), (bind_step _ _ _ _ _ He),
        (bind_step _ _ _ _ _ Hf), (bind_step _ _ _ _ _ Hc),
        (bind_step _ _ _ _ _ Hv), (bind_step _ _ _ _ _ Hex),
        (bind_step _ _ _ _ _ Hmk), (bind_step _ _ _ _ _ Hwr),
        (bind_step _ _ _ _ _ Hcf), (bind_step _ _ _ _ _ Hadd),
        (bind_step _ _ _ _ _ Hcm), Hpush.
      by rewrite (bind_raise _ _ _ _ _ Hfail).
    + exists project, w1. eexists. split; [done |]. split; [done |].
      rewrite (index_commit_commits _ _ _ _ Hcm). f_equal.
      rewrite (index_add_commits _ _ _ _ Hadd),
        (config_git_user_commits _ _ _ _ Hcf),
        (write_text_commits _ _ _ _ _ Hwr). by eapply mkdir_parents_commits.
  - (* edit_file *)
    mstep H project w0 Hp. pose proof Hp as [Hp' ->]%lift_Ok.
    mstep H u w1 He. destruct u.
    mstep H file_path w' Hf. pose proof Hf as [Hf' ->]%required_Ok.
    mstep H content w' Hc. pose proof Hc as [_ ->]%required_Ok.
    mstep H target_path w' Hv. pose proof Hv as [_ ->]%lift_Ok.
    mstep H ex w' Hex. pose proof Hex as ->%path_exists_Ok.
    destruct ex; cbn [negb] in H; cycle 1.
    { apply ret_Ok in H as [H _]. unfold committed_msg in H. by rewrite Hf' in H. }
    mstep H u' w4 Hwr. mstep H u'' w5 Hcf.
    mstep H u3 w6 Hadd. mstep H u4 w7 Hcm.
    apply ret_Ok in H as [_ <-].
    split.
    + rewrite (bind_step _ _ _ _ _ Hp), (bind_step _ _ _ _ _ He),
        (bind_step _ _ _ _ _ Hf), (bind_step _ _ _ _ _ Hc),
        (bind_step _ _ _ _ _ Hv), (bind_step _ _ _ _ _ Hex).
      cbn [negb].
      rewrite (bind_step _ _ _ _ _ Hwr),
        (bind_step _ _ _ _ _ Hcf), (bind_step _ _ _ _ _ Hadd),
        (bind_step _ _ _ _ _ Hcm), Hpush.
      by rewrite (bind_raise _ _ _ _ _ Hfail).
    + exists project, w1. eexists. split; [done |]. split; [done |].
      rewrite (index_commit_commits _ _ _ _ Hcm). f_equal.
      rewrite (index_add_commits _ _ _ _ Hadd),
        (config_git_user_commits _ _ _ _ Hcf).
      by eapply write_text_commits.
  - (* update_section *)
    mstep H project w0 Hp. pose proof Hp as [Hp' ->]%lift_Ok.
    mstep H u w1 He. destruct u.
    mstep H file_path w' Hf. pose proof Hf as [Hf' ->]%required_Ok.
    mstep H section_title w' Ht. pose proof Ht as [Ht' ->]%required_Ok.
    mstep H new_content w' Hn. pose proof Hn as [_ ->]%required_Ok.
    mstep H target_path w' Hv. pose proof Hv as [_ ->]%lift_Ok.
    mstep H ex w' Hex. pose proof Hex as ->%path_exists_Ok.
    destruct ex; cbn [negb] in H; cycle 1.
    { apply ret_Ok in H as [H _]. unfold committed_msg in H. by rewrite Ht' in H. }
    mstep H content w' Hrd. pose proof Hrd as ->%read_text_Ok.
    destruct (update_section_text content section_title new_content)
      as [available | | new_file_content] eqn:Hu.
    { apply ret_Ok in H as [H _]. unfold committed_msg in H. by rewrite Ht' in H. }
    { apply ret_Ok in H as [H _]. unfold committed_msg in H. by rewrite Ht' in H. }
    mstep H u' w4 Hwr. mstep H u'' w5 Hcf.
    mstep H u3 w6 Hadd. mstep H u4 w7 Hcm.
    apply ret_Ok in H as [_ <-].
    split.
    + rewrite (bind_step _ _ _ _ _ Hp), (bind_step _ _ _ _ _ He),
        (bind_step _ _ _ _ _ Hf), (bind_step _ _ _ _ _ Ht),
        (bind_step _ _ _ _ _ Hn),
        (bind_step _ _ _ _ _ Hv), (bind_step _ _ _ _ _ Hex).
      cbn [negb].
      rewrite (bind_step _ _ _ _ _ Hrd), Hu, (bind_step _ _ _ _ _ Hwr),
        (bind_step _ _ _ _ _ Hcf), (bind_step _ _ _ _ _ Hadd),
        (bind_step _ _ _ _ _ Hcm), Hpush.
      by rewrite (bind_raise _ _ _ _ _ Hfail).
    + exists project, w1. eexists. split; [done |]. split; [done |].
      rewrite (index_commit_commits _ _ _ _ Hcm). f_equal.
      rewrite (index_add_commits _ _ _ _ Hadd),
        (config_git_user_commits _ _ _ _ Hcf).
      by eapply write_text_commits.
  - (* delete_file *)
    mstep H project w0 Hp. pose proof Hp as [Hp' ->]%lift_Ok.
    mstep H u w1 He. destruct u.
    mstep H file_path w' Hf. pose proof Hf as [Hf' ->]%required_Ok.
    mstep H target_path w' Hv. pose proof Hv as [_ ->]%lift_Ok.
    mstep H ex w' Hex. pose proof Hex as ->%path_exists_Ok.
    destruct ex; cbn [negb] in H; cycle 1.
    { apply ret_Ok in H as [H _]. unfold committed_msg in H. by rewrite Hf' in H. }
    mstep H u'' w5 Hcf. mstep H u3 w6 Hrm. mstep H u' w4 Hul.
    mstep H u4 w7 Hcm.
    apply ret_Ok in H as [_ <-].
    split.
    + rewrite (bind_step _ _ _ _ _ Hp), (bind_step _ _ _ _ _ He),
        (bind_step _ _ _ _ _ Hf),
        (bind_step _ _ _ _ _ Hv), (bind_step _ _ _ _ _ Hex).
      cbn [negb].
      rewrite (bind_step _ _ _ _ _ Hcf), (bind_step _ _ _ _ _ Hrm),
        (bind_step _ _ _ _ _ Hul),
        (bind_step _ _ _ _ _ Hcm), Hpush.
      by rewrite (bind_raise _ _ _ _ _ Hfail).
    + exists project, w1. eexists. split; [done |]. split; [done |].
      rewrite (index_commit_commits _ _ _ _ Hcm). f_equal.
      rewrite (unlink_commits _ _ _ _ Hul),
        (index_remove_commits _ _ _ _ Hrm).
      by eapply config_git_user_commits.
Qed.

Lemma push_failure_reported_witness :
  call_tool (env_offline (txt "./overleaf_cache")) edit_file edit_arguments
            world0
    = (txt "Error: " ++ exn_str (GitCommandError
                                   (txt "could not read from remote")),
       world_after_edit) ∧
  ∃ project w1 c,
    get_project_config (env_config (env_offline (txt "./overleaf_cache")))
                       (arg_project_name edit_arguments) = Ok project ∧
    ensure_repo (env_offline (txt "./overleaf_cache")) project world0
      = (Ok (), w1) ∧
    commits world_after_edit = c :: commits w1.
Proof.
  apply (push_failure_reported (env_offline (txt "./overleaf_cache"))
           edit_file edit_arguments world0 world_after_edit).
  - reflexivity.
  - discriminate.
  - vm_refl.
  - reflexivity.
Defined.

(** C7, as the specification states it, fails: the edit of [main.tex] is
    committed locally, the push is refused, and the caller is sent an error
    text, the same kind of answer as for an operation that failed; the
    answer does not say that the change was made locally and is unpushed. *)
Lemma push_failure_sent_as_error :
  ∃ answer,
    call_tool (env_offline (txt "./overleaf_cache")) edit_file edit_arguments
              world0 = (answer, world_after_edit) ∧
    commits world0 = [] ∧
    commits world_after_edit
      = [mkCommit (txt "Update main.tex") [Added (txt "main.tex")]] ∧
    answer = txt "Error: could not read from remote" ∧
    startswith answer (txt "Error:") = true ∧
    answer ≠ committed_msg edit_file edit_arguments.
Proof.
  exists (txt "Error: could not read from remote").
  split; [vm_refl |]. split; [done |]. split; [done |]. split; [done |].
  split; [done |]. vm_compute. discriminate.
Qed.

(** ** Listing *)

#[global] Instance str_le_total : Total str_le.
Proof.
  intros a. unfold str_le. induction a as [|x a IH]; intros [|y b]; cbn [str_leb]; auto.
  destruct (Nat.ltb_spec (nat_of_ascii x) (nat_of_ascii y)); [auto |].
  destruct (Nat.ltb_spec (nat_of_ascii y) (nat_of_ascii x)); [auto |].
  apply IH.
Qed.

#[global] Instance str_le_trans : Transitive str_le.
Proof.
  intros a. unfold str_le. induction a as [|x a IH]; intros [|y b] [|z c];
    cbn [str_leb]; try done.
  destruct (Nat.ltb_spec (nat_of_ascii x) (nat_of_ascii y)),
    (Nat.ltb_spec (nat_of_ascii y) (nat_of_ascii z)),
    (Nat.ltb_spec (nat_of_ascii x) (nat_of_ascii z)); try done; try lia;
    destruct (Nat.ltb_spec (nat_of_ascii y) (nat_of_ascii x)); try done;
    try lia;
    destruct (Nat.ltb_spec (nat_of_ascii z) (nat_of_ascii y)); try done;
    try lia;
    destruct (Nat.ltb_spec (nat_of_ascii z) (nat_of_ascii x)); try done;
    try lia.
  apply IH.
Qed.

#[global] Instance str_le_antisymm : AntiSymm (=) str_le.
Proof.
  intros a. unfold str_le. induction a as [|x a IH]; intros [|y b];
    cbn [str_leb]; try done.
  destruct (Nat.ltb_spec (nat_of_ascii x) (nat_of_ascii y)),
    (Nat.ltb_spec (nat_of_ascii y) (nat_of_ascii x)); try done; try lia.
  intros Hab Hba. f_equal; [|by apply IH].
  rewrite <- (ascii_nat_embedding x), <- (ascii_nat_embedding y).
  f_equal. lia.
Qed.

Lemma rel_to_Some root k rel :
  rel_to root k = Some rel ↔ k = root ++ rel ∧ rel ≠ [].
Proof.
  unfold rel_to. case_decide as H.
  - destruct H as [Ht Hl]. split.
    + intros [= <-]. split.
      * transitivity (take (length root) k ++ drop (length root) k);
          [by rewrite take_drop | by rewrite Ht].
      * intros Hd. apply (f_equal length) in Hd. rewrite length_drop in Hd.
        cbn in Hd. lia.
    + intros [-> _]. by rewrite drop_app_length.
  - split; [done |]. intros [-> Hne]. destruct H. split.
    + by rewrite take_app_length.
    + rewrite length_app. destruct rel; [done | cbn; lia].
Qed.

Lemma elem_of_rglob w root rel :
  rel ∈ rglob w root ↔ rel ≠ [] ∧ is_Some (fs w !! (root ++ rel)).
Proof.
  unfold rglob. rewrite list_elem_of_omap. split.
  - intros ([k v] & Hkv%elem_of_map_to_list & Hr). cbn in Hr.
    apply rel_to_Some in Hr as [-> ?]. eauto.
  - intros [Hne [v Hv]]. exists (root ++ rel, v). split.
    + by apply elem_of_map_to_list.
    + by apply rel_to_Some.
Qed.

(** What the loop of [list_files] collects: the files below the mirror's
    directory with no dotted component in the path as [rglob] spells it
    (the components of the mirror's directory and those below it), and with
    the wanted suffix when an extension is given. *)
Lemma elem_of_list_files_loop w repo_path root extension f :
  f ∈ list_files_loop w repo_path root extension ↔
  ∃ rel, rel ≠ [] ∧ is_file w (root ++ rel) = true ∧
    existsb dotted (path_parts repo_path ++ rel) = false ∧
    (extension = [] ∨ suffix (List.last rel []) = extension) ∧
    f = join (txt "/") rel.
Proof.
  unfold list_files_loop. rewrite list_elem_of_In, in_flat_map. split.
  - intros (rel & Hrel%list_elem_of_In%elem_of_rglob & Hf).
    destruct Hrel as [Hne _].
    destruct (is_file w (root ++ rel)) eqn:Hfile; [|done].
    fold dotted in Hf.
    destruct (existsb dotted (path_parts repo_path ++ rel)) eqn:Hdot; [done |].
    cbn [andb negb] in Hf.
    destruct (bool_decide (extension = [])) eqn:He1;
      destruct (bool_decide (suffix (List.last rel []) = extension)) eqn:He2;
      cbn [orb] in Hf; try done;
      destruct Hf as [<- | []]; exists rel;
      repeat (split; [done |]); (split; [|done]).
    + left. by apply bool_decide_eq_true in He1.
    + left. by apply bool_decide_eq_true in He1.
    + right. by apply bool_decide_eq_true in He2.
  - intros (rel & Hne & Hfile & Hdot & Hext & ->). exists rel. split.
    + apply list_elem_of_In, elem_of_rglob. split; [done |].
      unfold is_file, lookup_node in Hfile. case_decide as Hnil.
      * by destruct root, rel.
      * destruct (fs w !! (root ++ rel)); [eauto | done].
    + rewrite Hfile. fold dotted. rewrite Hdot. cbn [andb negb].
      destruct Hext as [-> | Hs].
      * by left.
      * rewrite (bool_decide_eq_true_2 _ Hs), orb_true_r. by left.
Qed.

Lemma elem_of_list_files_sorted env w project extension f :
  f ∈ list_files_sorted env w project extension ↔
  f ∈ list_files_loop w (get_repo_path env (project_id project))
        (resolve (env_cwd env) (get_repo_path env (project_id project)))
        extension.
Proof. unfold list_files_sorted. by rewrite merge_sort_Permutation. Qed.

Lemma existsb_false {A} (f : A → bool) l :
  existsb f l = false ↔ ∀ x, x ∈ l → f x = false.
Proof.
  induction l as [|y l IH]; cbn.
  - split; [|done]. intros _ x Hx. by apply elem_of_nil in Hx.
  - rewrite orb_false_iff, IH. split.
    + intros [Hy Hl] x [-> | Hx]%elem_of_cons; auto.
    + intros H. split; [apply H; left | intros x Hx; apply H; by right].
Qed.

(** X3. What [list_files] lists.  No listed file has a dotted component in its
    relative path, so nothing below [.git] and no hidden file is listed; the
    list is in the order of [str]; when no component of the mirror's
    directory itself is dotted, the list holds exactly the files without a
    dotted component in their relative path whose suffix is the given
    extension (all of them when the extension is empty). *)
Theorem list_files_listing (env : Env) (w : World) (project : ProjectConfig)
    (extension : str) :
  let repo_path := get_repo_path env (project_id project) in
  let root := resolve (env_cwd env) repo_path in
  let files := list_files_sorted env w project extension in
  (∀ f, f ∈ files →
     ∃ rel, f = join (txt "/") rel ∧ rel ≠ [] ∧
       is_file w (root ++ rel) = true ∧
       ∀ part, part ∈ rel → dotted part = false) ∧
  StronglySorted str_le files ∧
  (existsb dotted (path_parts repo_path) = false →
   ∀ f, f ∈ files ↔
     ∃ rel, f = join (txt "/") rel ∧ rel ≠ [] ∧
       is_file w (root ++ rel) = true ∧
       (∀ part, part ∈ rel → dotted part = false) ∧
       (extension = [] ∨ suffix (List.last rel []) = extension)).
Proof.
  cbv zeta. split; [|split].
  - intros f (rel & Hne & Hfile & Hdot & _ & ->)%elem_of_list_files_sorted
      %elem_of_list_files_loop.
    exists rel. repeat (split; [done |]).
    intros part Hpart. rewrite existsb_false in Hdot. apply Hdot.
    apply elem_of_app. by right.
  - unfold list_files_sorted. apply StronglySorted_merge_sort; apply _.
  - intros Hroot f.
    rewrite elem_of_list_files_sorted, elem_of_list_files_loop.
    split.
    + intros (rel & Hne & Hfile & Hdot & Hext & ->). exists rel.
      repeat (split; [done |]). split; [|done].
      intros part Hpart. rewrite existsb_false in Hdot. apply Hdot.
      apply elem_of_app. by right.
    + intros (rel & -> & Hne & Hfile & Hdot & Hext). exists rel.
      repeat (split; [done |]). split; [|done].
      rewrite existsb_app, Hroot. cbn [orb]. by apply existsb_false.
Qed.

(** When a component of the mirror's directory is dotted, nothing is
    listed. *)
Lemma list_files_dotted_root env w project extension :
  existsb dotted (path_parts (get_repo_path env (project_id project))) = true →
  list_files_sorted env w project extension = [].
Proof.
  intros Hroot. apply elem_of_nil_inv. intros f
    (rel & _ & _ & Hdot & _)%elem_of_list_files_sorted%elem_of_list_files_loop.
  rewrite existsb_app, Hroot in Hdot. done.
Qed.

(** C10 at a failing input.  The mirror is kept below [/srv/.cache].  Its
    file [main.tex] is not hidden and has the suffix [.tex], but
    [list_files] with the extension [.tex] lists nothing: the test for a
    dotted component runs over the components of the cache directory
    too. *)
Theorem list_files_hides_mirror :
  let env := env_offline (txt "/srv/.cache") in
  resolve (env_cwd env) (get_repo_path env (project_id thesis))
    = dot_cache_root ∧
  is_file world_dot_cache (dot_cache_root ++ [txt "main.tex"]) = true ∧
  existsb dotted [txt "main.tex"] = false ∧
  suffix (txt "main.tex") = txt ".tex" ∧
  list_files_sorted env world_dot_cache thesis (txt ".tex") = [] ∧
  call_tool env list_files tex_arguments world_dot_cache
    = (txt "No files found with extension .tex", world_dot_cache).
Proof.
  cbv zeta. split; [vm_refl |]. split; [vm_refl |]. split; [vm_refl |].
  split; [vm_refl |]. split; vm_refl.
Qed.

(** The same mirror below [overleaf_cache]: the listing with the extension
    [.tex], and the whole listing. *)
Example list_files_tex :
  call_tool (env_offline (txt "./overleaf_cache")) list_files tex_arguments
            world0
    = (txt "Files in project 'Thesis':" ++ [nl] ++ txt "  - ch/a.tex"
       ++ [nl] ++ txt "  - main.tex", world0) ∧
  list_files_sorted (env_offline (txt "./overleaf_cache")) world0 thesis []
    = [txt "ch/a.tex"; txt "main.tex"; txt "refs.bib"].
Proof. split; vm_refl. Qed.

(** ** The retrieval tool *)

(** X4. The answer of the [get_section_content] tool for a title that is
    found: the caption with the title as the caller wrote it, an empty line,
    and the full section from its start offset to its content-end, heading
    command included; the mirror stays as the refresh left it. *)
Theorem get_section_content_answer (env : Env) (arguments : Arguments)
    (w w1 : World) (project : ProjectConfig)
    (file_path section_title content : str) (target_path : list str)
    (s : Section) :
  get_project_config (env_config env) (arg_project_name arguments)
    = Ok project →
  ensure_repo env project w = (Ok (), w1) →
  arg_file_path arguments = Some file_path →
  arg_section_title arguments = Some section_title →
  validate_path (env_cwd env) (get_repo_path env (project_id project))
                file_path = Ok target_path →
  lookup_node w1 target_path = Some (File content) →
  find_section (parse_sections content) section_title = Some s →
  call_tool env get_section_content arguments w
    = (txt "Content of section '" ++ section_title ++ txt "':" ++ [nl; nl]
       ++ slice (start_pos s) (end_pos s) content, w1).
Proof.
  intros Hp He Hf Ht Hv Hn Hs. unfold call_tool, execute_tool.
  rewrite Hp, Hf, Ht. unfold lift, required.
  rewrite (bind_step _ _ w project w) by done.
  rewrite (bind_step _ _ w () w1) by done.
  rewrite (bind_step _ _ w1 file_path w1) by done.
  rewrite (bind_step _ _ w1 section_title w1) by done.
  rewrite Hv.
  rewrite (bind_step _ _ w1 target_path w1) by done.
  rewrite (bind_step _ _ w1 true w1);
    [|by unfold path_exists; rewrite Hn].
  cbn [negb].
  rewrite (bind_step _ _ w1 content w1); [|by unfold read_text; rewrite Hn].
  unfold get_section_by_title. rewrite Hs. done.
Qed.

Lemma get_section_content_answer_witness :
  call_tool (env_offline (txt "./overleaf_cache")) get_section_content
    (mkArguments None (Some (txt "main.tex")) None None None None
                 (Some (txt "intro")) None) world0
  = (txt "Content of section '" ++ txt "intro" ++ txt "':" ++ [nl; nl]
     ++ slice 0 22 doc_intro, world0).
Proof.
  apply (get_section_content_answer (env_offline (txt "./overleaf_cache")) _
           world0 world0 thesis (txt "main.tex") (txt "intro") doc_intro
           (mirror_root ++ [txt "main.tex"])
           (mkSection (txt "section") (txt "Intro") (txt "Hello") 0 22)).
  - vm_refl.
  - vm_refl.
  - reflexivity.
  - reflexivity.
  - vm_refl.
  - vm_refl.
  - vm_refl.
Defined.

(** ** Where the header search lands *)

Lemma elem_of_KINDS kd :
  kd ∈ KINDS ↔
  kd = txt "part" ∨ kd = txt "chapter" ∨ kd = txt "section"
  ∨ kd = txt "subsection" ∨ kd = txt "subsubsection"
  ∨ kd = txt "paragraph" ∨ kd = txt "subparagraph".
Proof.
  unfold KINDS. rewrite !elem_of_cons, elem_of_nil. tauto.
Qed.

(** No kind begins another kind, and a kind is all letters: after a kind
    and a star or an opening brace, no other kind matches. *)
Lemma kinds_exclusive kd kd' (c : ascii) rest :
  kd ∈ KINDS → kd' ∈ KINDS → kd' ≠ kd → c = "*"%char ∨ c = "{"%char →
  lit kd' (kd ++ c :: rest) = None.
Proof.
  rewrite !elem_of_KINDS. intros Hkd Hkd' Hne Hc.
  destruct Hkd as [->|[->|[->|[->|[->|[->| ->]]]]]];
    destruct Hkd' as [->|[->|[->|[->|[->|[->| ->]]]]]];
    try done; destruct Hc as [-> | ->]; reflexivity.
Qed.

Lemma kinds_no_brace kd : kd ∈ KINDS → "}"%char ∉ kd.
Proof.
  rewrite elem_of_KINDS.
  intros [->|[->|[->|[->|[->|[->| ->]]]]]];
    rewrite list_elem_of_In; cbn; intuition discriminate.
Qed.

Lemma alt_first {A} ks s (k : str → str → option A) kd x :
  kd ∈ ks → (∀ kd', kd' ∈ ks → kd' ≠ kd → lit kd' s = None) →
  lit kd s ≫= k kd = Some x → alt ks s k = Some x.
Proof.
  intros Hin Hothers Hk. induction ks as [|kd0 ks IH]; [by apply elem_of_nil in Hin |].
  cbn [alt]. destruct (decide (kd0 = kd)) as [-> | Hne].
  - by rewrite Hk.
  - rewrite (Hothers kd0) by (done || by left). cbn [mbind option_bind].
    apply IH.
    + apply elem_of_cons in Hin as [-> | ?]; done.
    + intros kd' ? ?. apply Hothers; [by right | done].
Qed.

Lemma SECTION_PATTERN_complete kd star t rest :
  kd ∈ KINDS → t ≠ [] → "}"%char ∉ t → star = [] ∨ star = txt "*" →
  SECTION_PATTERN (heading kd star t ++ rest) = Some (kd, t, rest).
Proof.
  intros Hkd Ht Hnt Hstar. unfold SECTION_PATTERN, heading.
  rewrite <- !app_assoc, lit_app. cbn [mbind option_bind].
  apply alt_first with kd; [done | |].
  - intros kd' Hkd' Hne.
    destruct Hstar as [-> | ->]; by apply kinds_exclusive; auto.
  - rewrite lit_app. cbn [mbind option_bind].
    pose proof (proj2 (plus_not_brace_close (λ t s6, (kd, t, s6))
                         (t ++ txt "}" ++ rest) (kd, t, rest))
                      (ex_intro _ t (ex_intro _ rest
                         (conj eq_refl (conj Ht (conj Hnt eq_refl))))))
      as Hplus.
    unfold opt_star. destruct Hstar as [-> | ->].
    + rewrite app_nil_l, lit_star_brace. cbn [mbind option_bind].
      rewrite lit_app. cbn [mbind option_bind]. exact Hplus.
    + rewrite lit_app. cbn [mbind option_bind].
      rewrite lit_app. cbn [mbind option_bind].
      destruct (plus_not_brace _ _) as [x|] eqn:E.
      * exact Hplus.
      * discriminate.
Qed.

(** The scan misses no heading: a position where the pattern matches is the
    start of a match or lies inside one. *)
Lemma finditer_from_complete content s pos skip p :
  drop pos content = s → pos + skip ≤ p →
  is_Some (SECTION_PATTERN (drop p content)) →
  ∃ m, m ∈ finditer_from pos skip s ∧ m_start m ≤ p ∧ p < m_end m.
Proof.
  revert pos skip. induction s as [|c r IH]; intros pos skip Hs Hp Hm.
  - exfalso. destruct Hm as [x Hx].
    assert (drop p content = []) as Hnil.
    { apply (f_equal length) in Hs. rewrite length_drop in Hs. cbn in Hs.
      apply drop_ge. lia. }
    rewrite Hnil in Hx. done.
  - apply drop_cons_inv in Hs as Hr. destruct Hr as [Hr Hpos].
    cbn [finditer_from]. destruct skip as [|skip].
    + destruct (decide (p = pos)) as [-> | Hne].
      * rewrite Hs in Hm. destruct Hm as [[[kd t] rest] Hx]. rewrite Hx.
        eexists. split; [left |]. cbn [m_start m_end].
        apply SECTION_PATTERN_Some in Hx as (_ & _ & _ & star & _ & E).
        pose proof (heading_length kd star t).
        rewrite E, length_app. lia.
      * destruct (SECTION_PATTERN (c :: r)) as [[[kd t] rest]|] eqn:E.
        -- destruct (decide (p < pos + (length (c :: r) - length rest)))
             as [Hin | Hout].
           ++ eexists. split; [left |]. cbn [m_start m_end]. lia.
           ++ destruct (IH (S pos) (length (c :: r) - length rest - 1) Hr)
                as (m & ? & ? & ?); [lia | done |].
              exists m. split; [by right | done].
        -- destruct (IH (S pos) 0 Hr) as (m & ? & ? & ?); [lia | done |].
           by exists m.
    + destruct (IH (S pos) skip Hr) as (m & ? & ? & ?); [lia | done |].
      by exists m.
Qed.

Lemma ordered_elem lo ms m :
  ordered lo ms → m ∈ ms → lo ≤ m_start m ∧ m_start m < m_end m.
Proof.
  revert lo. induction ms as [|m0 rest IH]; intros lo Ho Hin.
  - by apply elem_of_nil in Hin.
  - destruct Ho as (? & ? & Ho). apply elem_of_cons in Hin as [-> | Hin].
    + done.
    + destruct (IH _ Ho Hin). lia.
Qed.

(** In an ordered list a match that starts before [m] stands before [m]. *)
Lemma ordered_before lo ms1 m ms2 m' :
  ordered lo (ms1 ++ m :: ms2) → m' ∈ ms1 ++ m :: ms2 →
  m_start m' < m_start m → m' ∈ ms1 ∧ m_end m' ≤ m_start m.
Proof.
  revert lo. induction ms1 as [|m0 ms1 IH]; intros lo Ho Hin Hlt.
  - exfalso. cbn in *. destruct Ho as (_ & ? & Ho).
    apply elem_of_cons in Hin as [-> | Hin]; [lia |].
    destruct (ordered_elem _ _ _ Ho Hin). lia.
  - cbn in *. destruct Ho as (_ & ? & Ho).
    apply elem_of_cons in Hin as [-> | Hin].
    + split; [left |].
      assert (m ∈ ms1 ++ m :: ms2) as Hm by (apply elem_of_app; right; left).
      destruct (ordered_elem _ _ _ Ho Hm). lia.
    + destruct (IH _ Ho Hin Hlt). split; [by right | done].
Qed.

(** The section that the lookup returns comes from the first match whose
    title has the wanted lower-case form. *)
Lemma find_section_link content ms t s :
  find_section (link content ms) t = Some s →
  ∃ ms1 m ms2, ms = ms1 ++ m :: ms2 ∧
    s = make_section content m (next_start content ms2) ∧
    ∀ m1, m1 ∈ ms1 → lower (group2 m1) ≠ lower t.
Proof.
  unfold find_section. induction ms as [|m0 rest IH]; [done |].
  cbn [link List.find].
  destruct (title_matches t (make_section content m0 (next_start content rest)))
    eqn:Hm.
  - intros [= <-]. exists [], m0, rest. split; [done |]. split; [done |].
    intros m1 Hm1. by apply elem_of_nil in Hm1.
  - intros (ms1 & m & ms2 & -> & -> & Hfirst)%IH.
    exists (m0 :: ms1), m, ms2. split; [done |]. split; [done |].
    intros m1 [-> | Hm1]%elem_of_cons; [|by apply Hfirst].
    unfold title_matches in Hm. by apply bool_decide_eq_false in Hm.
Qed.

(** X5. Where the header search of [update_section] lands: on the heading of the
    section that the lookup found, or inside the heading of an earlier
    section whose title ends with a copy of the wanted heading; then the
    search ends where that earlier heading ends, at or before the start of
    the section that was found. *)
Theorem header_rematch_position (content t : str) (s : Section) (a b : nat) :
  find_section (parse_sections content) t = Some s →
  re_search (type s) (title s) content = Some (a, b) →
  ∃ m, m ∈ finditer content ∧ m_start m = start_pos s ∧
    ((a = m_start m ∧ b = m_end m) ∨
     (∃ m', m' ∈ finditer content ∧ m_start m' < a ∧ a < m_end m'
            ∧ b = m_end m' ∧ m_end m' ≤ m_start m)).
Proof.
  intros Hf Hs. rewrite parse_sections_link in Hf.
  destruct (find_section_link _ _ _ _ Hf) as (ms1 & m & ms2 & Hms & -> & Hfirst).
  apply find_section_Some in Hf as [_ Hlow].
  cbn [make_section type title start_pos] in *.
  pose proof (finditer_ordered content) as Ho. rewrite Hms in Ho.
  pose proof (finditer_ok content) as Hok. rewrite Hms in Hok.
  assert (m ∈ finditer content) as Hm
    by (rewrite Hms; apply elem_of_app; right; left).
  assert (match_ok content m) as Hmok.
  { rewrite Forall_forall in Hok. apply Hok. by rewrite <- Hms. }
  exists m. split; [done |]. split; [done |].
  destruct Hmok as (Hlt & Hle & Hp).
  pose proof (header_pattern_of_match _ _ _ _ Hp) as Hown.
  apply re_search_from_Some in Hs as (rest & _ & Hale & Ha & -> & Hmin).
  rewrite Nat.sub_0_r in *.
  destruct (decide (a = m_start m)) as [-> | Hne].
  - left. split; [done |]. rewrite Hown in Ha. injection Ha as <-.
    rewrite !length_drop. lia.
  - right.
    assert (a < m_start m) as Halt.
    { destruct (decide (m_start m < a)) as [H|H]; [|lia].
      apply Hmin in H. congruence. }
    apply SECTION_PATTERN_Some in Hp as Hshape.
    destruct Hshape as (Hkd & Ht & Hnt & _).
    apply header_pattern_Some in Ha as (star & Hstar & Ea).
    pose proof (SECTION_PATTERN_complete _ _ _ rest Hkd Ht Hnt Hstar) as Hpa.
    rewrite <- Ea in Hpa.
    destruct (finditer_from_complete content content 0 0 a)
      as (m' & Hm' & Hsa & Hea); [done | lia | by eexists |].
    fold (finditer content) in Hm'.
    assert (m_start m' < m_start m) as Hlt' by lia.
    rewrite Hms in Hm'.
    destruct (ordered_before _ _ _ _ _ Ho Hm' Hlt') as [Hin1 Hend].
    assert (match_ok content m') as Hm'ok.
    { rewrite Forall_forall in Hok. by apply Hok. }
    exists m'. split; [by rewrite Hms |].
    destruct (decide (m_start m' = a)) as [E | Hne'].
    { exfalso. destruct Hm'ok as (_ & _ & Hp'). rewrite E, Hpa in Hp'.
      injection Hp' as Hk' Ht' _. apply (Hfirst m' Hin1). by rewrite <- Ht'. }
    split; [lia |]. split; [done |]. split; [|done].
    (* the closing brace of the earlier heading closes the copy as well *)
    destruct (match_ok_text _ _ Hm'ok) as (star' & Hstar' & Etext & Hend' & _).
    destruct Hm'ok as (_ & Hle' & Hp').
    apply SECTION_PATTERN_Some in Hp' as (Hkd' & _ & Hnt' & _).
    set (H0 := txt "\" ++ group1 m' ++ star' ++ txt "{" ++ group2 m') in *.
    set (G0 := txt "\" ++ group1 m ++ star ++ txt "{" ++ group2 m) in *.
    assert (heading (group1 m') star' (group2 m') = H0 ++ txt "}") as EH
      by (unfold heading, H0; by rewrite <- !app_assoc).
    assert (heading (group1 m) star (group2 m) = G0 ++ txt "}") as EG
      by (unfold heading, G0; by rewrite <- !app_assoc).
    assert ("}"%char ∉ H0) as HnH.
    { unfold H0. rewrite !elem_of_app. intros [H|[H|[H|[H|H]]]].
      - by apply list_elem_of_singleton in H.
      - by apply kinds_no_brace in H.
      - destruct Hstar' as [-> | ->]; [by apply elem_of_nil in H |].
        by apply list_elem_of_singleton in H.
      - by apply list_elem_of_singleton in H.
      - done. }
    assert ("}"%char ∉ G0) as HnG.
    { unfold G0. rewrite !elem_of_app. intros [H|[H|[H|[H|H]]]].
      - by apply list_elem_of_singleton in H.
      - by apply kinds_no_brace in H.
      - destruct Hstar as [-> | ->]; [by apply elem_of_nil in H |].
        by apply list_elem_of_singleton in H.
      - by apply list_elem_of_singleton in H.
      - done. }
    clearbody H0 G0.
    rewrite EH in Etext, Hend'. rewrite EG in Ea.
    rewrite length_app in Hend'. cbn in Hend'.
    assert (drop a content
            = drop (a - m_start m') H0 ++ "}"%char :: drop (m_end m') content)
      as Ea'.
    { replace a with (m_start m' + (a - m_start m')) at 1 by lia.
      rewrite <- drop_drop, Etext, <- app_assoc.
      rewrite drop_app_le by lia. done. }
    rewrite Ea, <- app_assoc in Ea'. cbn in Ea'.
    apply first_split_unique in Ea' as [EG0 Erest]; [|done |].
    + rewrite Ea, Erest, length_app, length_drop.
      apply (f_equal length) in EG0. rewrite length_drop in EG0.
      rewrite length_app. cbn. lia.
    + intros Hin%subseteq_drop. done.
Qed.

Lemma header_rematch_position_witness :
  ∃ m, m ∈ finditer doc_nested ∧ m_start m = 27 ∧
    ((11 = m_start m ∧ 22 = m_end m) ∨
     (∃ m', m' ∈ finditer doc_nested ∧ m_start m' < 11 ∧ 11 < m_end m'
            ∧ 22 = m_end m' ∧ m_end m' ≤ m_start m)).
Proof.
  apply (header_rematch_position doc_nested (txt "b")
           (mkSection (txt "section") (txt "B") (txt "body") 27 44) 11 22);
    vm_compute; reflexivity.
Defined.

(** ** The scenarios of the specification *)

Example scenario_list_sections :
  map (λ s, (type s, title s, preview s)) (parse_sections doc_intro)
    = [(txt "section", txt "Intro", txt "Hello");
       (txt "section", txt "Methods", txt "World")].
Proof. vm_compute. reflexivity. Qed.

Example scenario_update_section :
  update_section_text doc_intro (txt "Intro") (txt "Goodbye")
    = NewFileContent
        (txt "\section{Intro}" ++ [nl] ++ txt "Goodbye" ++ [nl]
         ++ txt "\section{Methods}" ++ [nl] ++ txt "World" ++ [nl]).
Proof. vm_compute. reflexivity. Qed.

Example scenario_starred_and_nested_kinds :
  map (λ s, (type s, title s, start_pos s, end_pos s))
      (parse_sections (txt "x\chapter*{One}y\subsection{Two}\part{}z"))
    = [(txt "chapter", txt "One", 1, 16);
       (txt "subsection", txt "Two", 16, 40)].
Proof. vm_compute. reflexivity. Qed.

(** ** Loading the configuration *)

Lemma dict_get_cons_eq {V} (d : list (str * V)) k v :
  dict_get ((k, v) :: d) k = Some v.
Proof. unfold dict_get. cbn. by rewrite bool_decide_eq_true_2. Qed.

Lemma dict_get_cons_ne {V} (d : list (str * V)) k k' v :
  k' ≠ k → dict_get ((k', v) :: d) k = dict_get d k.
Proof. intros. unfold dict_get. cbn. by rewrite bool_decide_eq_false_2. Qed.

Lemma load_projects_Ok items projects :
  load_projects items = Ok projects →
  dict_keys projects = dict_keys items ∧
  ∀ key proj, dict_get items key = Some proj →
    ∃ project_id git_token,
      dict_get proj (txt "projectId") = Some project_id ∧
      dict_get proj (txt "gitToken") = Some git_token ∧
      dict_get projects key
        = Some (mkProject (default key (dict_get proj (txt "name")))
                          project_id git_token).
Proof.
  revert projects. induction items as [|[key0 proj0] rest IH];
    intros projects H; cbn [load_projects] in H.
  - injection H as <-. split; [done |]. intros key proj Hk. done.
  - destruct (project_of_entry key0 proj0) as [p|] eqn:Hp; [|done].
    destruct (load_projects rest) as [ps|] eqn:Hps; [|done].
    injection H as <-. destruct (IH ps eq_refl) as [Hkeys Hget].
    split; [unfold dict_keys in *; cbn; by rewrite Hkeys |].
    intros key proj Hk. destruct (decide (key0 = key)) as [-> | Hne].
    + rewrite dict_get_cons_eq in Hk. injection Hk as ->.
      unfold project_of_entry in Hp.
      destruct (dict_get proj (txt "projectId")) as [pid|]; [|done].
      destruct (dict_get proj (txt "gitToken")) as [tok|]; [|done].
      injection Hp as <-. exists pid, tok. by rewrite dict_get_cons_eq.
    + rewrite dict_get_cons_ne in Hk by done.
      destruct (Hget key proj Hk) as (pid & tok & ? & ? & ?).
      exists pid, tok. by rewrite dict_get_cons_ne.
Qed.

Lemma get_project_config_Some config n p :
  dict_get (projects config) n = Some p →
  get_project_config config (Some n) = Ok p.
Proof.
  unfold get_project_config. intros Hp.
  destruct (projects config) as [|[first p0] rest]; [done |]. by rewrite Hp.
Qed.

(** X6. A configuration file that loads: the configured names are the keys
    of the file's [projects] in the file's order, and the lookup of a key of
    the file returns the project with that entry's [projectId] and
    [gitToken] and with the entry's [name], or the key itself when the
    entry has no [name].  The environment variables are not looked at. *)
Theorem load_config_file (data : ConfigData) (id tok : option str)
    (config : Config) :
  load_config (Some data) id tok = Ok config →
  load_config (Some data) None None = Ok config ∧
  default_project config = data_defaultProject data ∧
  dict_keys (projects config) = dict_keys (default [] (data_projects data)) ∧
  ∀ key proj, dict_get (default [] (data_projects data)) key = Some proj →
    ∃ project_id git_token,
      dict_get proj (txt "projectId") = Some project_id ∧
      dict_get proj (txt "gitToken") = Some git_token ∧
      load_project (Some data) id tok (Some key)
        = Ok (mkProject (default key (dict_get proj (txt "name")))
                        project_id git_token).
Proof.
  intros H. unfold load_project. rewrite H. unfold load_config in *.
  destruct (load_projects (default [] (data_projects data))) as [ps|] eqn:Hps;
    [|done].
  injection H as <-. split; [done |]. split; [done |].
  destruct (load_projects_Ok _ _ Hps) as [Hkeys Hget]. split; [done |].
  intros key proj Hk. destruct (Hget key proj Hk) as (pid & tok' & ? & ? & ?).
  exists pid, tok'. split; [done |]. split; [done |].
  by apply get_project_config_Some.
Qed.

Lemma load_config_file_witness :
  let data :=
    mkConfigData
      (Some [(txt "thesis", [(txt "projectId", txt "abc");
                             (txt "gitToken", txt "t1")]);
             (txt "paper", [(txt "name", txt "Paper");
                            (txt "projectId", txt "def");
                            (txt "gitToken", txt "t2")])])
      None in
  let config :=
    mkConfig [(txt "thesis", mkProject (txt "thesis") (txt "abc") (txt "t1"));
              (txt "paper", mkProject (txt "Paper") (txt "def") (txt "t2"))]
             None in
  load_config (Some data) None None = Ok config ∧
  default_project config = data_defaultProject data ∧
  dict_keys (projects config) = dict_keys (default [] (data_projects data)) ∧
  ∀ key proj, dict_get (default [] (data_projects data)) key = Some proj →
    ∃ project_id git_token,
      dict_get proj (txt "projectId") = Some project_id ∧
      dict_get proj (txt "gitToken") = Some git_token ∧
      load_project (Some data) (Some (txt "x")) None (Some key)
        = Ok (mkProject (default key (dict_get proj (txt "name")))
                        project_id git_token).
Proof.
  cbv zeta. apply load_config_file. vm_compute. reflexivity.
Defined.

(** X7. Without a configuration file the two environment variables make the
    one project [default]: the lookup without a name and the lookup of
    [default] return it, named [Default Project], with the identifier and
    the token of the environment; any other name fails and is told that
    [default] is available. *)
Theorem load_config_environment (project_id git_token : str) :
  project_id ≠ [] → git_token ≠ [] →
  let found := Ok (mkProject (txt "Default Project") project_id git_token) in
  load_project None (Some project_id) (Some git_token) None = found ∧
  load_project None (Some project_id) (Some git_token) (Some (txt "default"))
    = found ∧
  ∀ n, n ≠ txt "default" →
    load_project None (Some project_id) (Some git_token) (Some n)
      = Raise (ValueError (txt "Project '" ++ n
                           ++ txt "' not found. Available: default")).
Proof.
  intros Hid Htok. cbv zeta. unfold load_project, load_config.
  destruct project_id as [|c1 r1]; [done |].
  destruct git_token as [|c2 r2]; [done |].
  cbn [truthy andb default].
  split; [done |]. split; [done |].
  intros n Hn. unfold get_project_config. cbn [projects].
  rewrite dict_get_cons_ne by done. done.
Qed.

Lemma load_config_environment_witness :
  let found := Ok (mkProject (txt "Default Project") (txt "abc") (txt "tok")) in
  load_project None (Some (txt "abc")) (Some (txt "tok")) None = found ∧
  load_project None (Some (txt "abc")) (Some (txt "tok"))
               (Some (txt "default")) = found ∧
  ∀ n, n ≠ txt "default" →
    load_project None (Some (txt "abc")) (Some (txt "tok")) (Some n)
      = Raise (ValueError (txt "Project '" ++ n
                           ++ txt "' not found. Available: default")).
Proof. apply (load_config_environment (txt "abc") (txt "tok")); done. Defined.

(** X8. When nothing is configured every lookup fails with the unconfigured
    error: without a configuration file as soon as one of the two
    environment variables is missing or empty, and with a configuration
    file that has no projects, whatever the environment holds. *)
Theorem load_config_unconfigured (id tok : option str) (n : option str) :
  (truthy id && truthy tok = false →
     load_project None id tok n = Raise (ValueError unconfigured_msg)) ∧
  (∀ data, default [] (data_projects data) = [] →
     load_project (Some data) id tok n = Raise (ValueError unconfigured_msg)).
Proof.
  unfold load_project, load_config. split.
  - by intros ->.
  - by intros data ->.
Qed.

(** X9. One entry of the configuration file without [projectId] (or, when it
    has one, without [gitToken]) makes the whole configuration fail to
    load: the lookup of every project, also of a well-formed one, raises
    the [KeyError] of the first such entry. *)
Theorem load_config_malformed (data : ConfigData) (id tok : option str)
    (before after : list (str * list (str * str)))
    (key : str) (proj : list (str * str)) (n : option str) :
  default [] (data_projects data) = before ++ (key, proj) :: after →
  (∀ k p, (k, p) ∈ before →
     is_Some (dict_get p (txt "projectId"))
     ∧ is_Some (dict_get p (txt "gitToken"))) →
  dict_get proj (txt "projectId") = None
  ∨ dict_get proj (txt "gitToken") = None →
  load_project (Some data) id tok n
    = Raise (KeyError (if dict_get proj (txt "projectId") is None
                       then txt "'projectId'" else txt "'gitToken'")).
Proof.
  intros Hd Hbefore Hbad. unfold load_project, load_config. rewrite Hd.
  clear Hd. assert (load_projects (before ++ (key, proj) :: after)
          = Raise (KeyError (if dict_get proj (txt "projectId") is None
                             then txt "'projectId'" else txt "'gitToken'")))
    as ->; [|done].
  induction before as [|[k0 p0] before IH]; cbn [app load_projects].
  - unfold project_of_entry.
    destruct (dict_get proj (txt "projectId")) as [pid|]; [|done].
    destruct Hbad as [? | ->]; [done | done].
  - destruct (Hbefore k0 p0) as [[pid Hpid] [tk Htk]]; [by left |].
    unfold project_of_entry at 1. rewrite Hpid, Htk.
    rewrite IH; [done |]. intros k p Hin. apply (Hbefore k p). by right.
Qed.

Lemma load_config_malformed_witness :
  load_project
    (Some (mkConfigData
             (Some [(txt "thesis", [(txt "projectId", txt "abc");
                                    (txt "gitToken", txt "t1")]);
                    (txt "paper", [(txt "projectId", txt "def")])])
             None))
    None None (Some (txt "thesis"))
  = Raise (KeyError (if dict_get [(txt "projectId", txt "def")]
                                 (txt "projectId") is None
                     then txt "'projectId'" else txt "'gitToken'")).
Proof.
  apply (load_config_malformed _ None None
           [(txt "thesis", [(txt "projectId", txt "abc");
                            (txt "gitToken", txt "t1")])]
           [] (txt "paper") [(txt "projectId", txt "def")]).
  - reflexivity.
  - intros k p [[= -> ->] | Hin%elem_of_nil]%elem_of_cons; [|done].
    split; vm_compute; eauto.
  - right. reflexivity.
Defined.

(** ** Plain relative paths *)




(** ** What the parser returns *)

Lemma link_elem_make content ms s :
  s ∈ link content ms → ∃ m e, m ∈ ms ∧ s = make_section content m e.
Proof.
  induction ms as [|m rest IH]; cbn [link]; intros Hs.
  - by apply elem_of_nil in Hs.
  - apply elem_of_cons in Hs as [-> | Hs].
    + eexists m, _. split; [left | done].
    + destruct (IH Hs) as (m' & e & ? & ?). exists m', e. split; [by right | done].
Qed.

Lemma link_of_match content ms m :
  m ∈ ms → ∃ s, s ∈ link content ms ∧ start_pos s = m_start m
               ∧ type s = group1 m ∧ title s = group2 m.
Proof.
  induction ms as [|m0 rest IH]; intros Hm.
  - by apply elem_of_nil in Hm.
  - cbn [link]. apply elem_of_cons in Hm as [-> | Hm].
    + eexists. split; [left | done].
    + destruct (IH Hm) as (s & ? & ?). exists s. split; [by right | done].
Qed.

Lemma parse_sections_elem content s :
  s ∈ parse_sections content →
  ∃ m, m ∈ finditer content ∧ section_from content s m.
Proof.
  rewrite parse_sections_link. intros Hs.
  eapply link_elem; [apply finditer_ordered | apply finditer_ok | done].
Qed.

(** X11. Every section that [parse_sections] returns is well formed: its
    kind is one of the seven heading commands, its title is not empty and
    has no closing brace, the text of the document at its start offset is
    its heading command (starred or not), and its preview has at most 203
    characters. *)
Theorem parse_sections_well_formed (content : str) (s : Section) :
  s ∈ parse_sections content →
  type s ∈ KINDS ∧ title s ≠ [] ∧ ("}"%char ∉ title s) ∧
  (∃ star, (star = [] ∨ star = txt "*") ∧
     heading (type s) star (title s) `prefix_of` drop (start_pos s) content) ∧
  length (preview s) ≤ 203.
Proof.
  intros Hs. destruct (parse_sections_elem _ _ Hs) as (m & _ & Hm).
  destruct Hm as (-> & -> & -> & _ & _ & _ & _ & Hp).
  apply SECTION_PATTERN_Some in Hp as (Hkd & Ht & Hnt & star & Hstar & E).
  split; [done |]. split; [done |]. split; [done |].
  split; [exists star; split; [done |]; rewrite E; by eexists |].
  rewrite parse_sections_link in Hs.
  destruct (link_elem_make _ _ _ Hs) as (m' & e & _ & ->).
  cbn [make_section preview]. case_decide.
  - rewrite length_app, length_take.
    change (length (txt "...")) with 3. lia.
  - lia.
Qed.

Lemma parse_sections_well_formed_witness :
  txt "section" ∈ KINDS ∧ txt "Intro" ≠ [] ∧ ("}"%char ∉ txt "Intro") ∧
  (∃ star, (star = [] ∨ star = txt "*") ∧
     heading (txt "section") star (txt "Intro") `prefix_of` drop 0 doc_intro) ∧
  length (txt "Hello") ≤ 203.
Proof.
  apply (parse_sections_well_formed doc_intro
           (mkSection (txt "section") (txt "Intro") (txt "Hello") 0 22)).
  vm_compute. left.
Defined.

(** X12. No heading is missed.  Wherever the heading pattern matches in the
    document, the position lies in the heading command of a returned
    section: at its start, or inside it (a heading written inside the title
    of another).  So the list of sections is empty exactly for a document
    in which the pattern matches nowhere. *)
Theorem parse_sections_complete (content : str) :
  (∀ p, is_Some (SECTION_PATTERN (drop p content)) →
     ∃ s star, s ∈ parse_sections content ∧ (star = [] ∨ star = txt "*") ∧
       heading (type s) star (title s)
         `prefix_of` drop (start_pos s) content ∧
       start_pos s ≤ p ∧
       p < start_pos s + length (heading (type s) star (title s))) ∧
  (parse_sections content = [] ↔
   ∀ p, SECTION_PATTERN (drop p content) = None).
Proof.
  assert (∀ p, is_Some (SECTION_PATTERN (drop p content)) →
     ∃ s star, s ∈ parse_sections content ∧ (star = [] ∨ star = txt "*") ∧
       heading (type s) star (title s)
         `prefix_of` drop (start_pos s) content ∧
       start_pos s ≤ p ∧
       p < start_pos s + length (heading (type s) star (title s))) as Hall.
  { intros p Hp.
    destruct (finditer_from_complete content content 0 0 p)
      as (m & Hm & Hsp & Hpe); [done | lia | done |].
    fold (finditer content) in Hm.
    destruct (link_of_match content _ _ Hm) as (s & Hs & Hst & Hty & Hti).
    rewrite <- parse_sections_link in Hs.
    pose proof (finditer_ok content) as Hok. rewrite Forall_forall in Hok.
    destruct (match_ok_text _ _ (Hok _ Hm)) as (star & ? & E & Hend & _).
    exists s, star. rewrite Hst, Hty, Hti.
    split; [done |]. split; [done |].
    split; [rewrite E; by eexists |]. lia. }
  split; [done |]. split.
  - intros Hnil p.
    destruct (SECTION_PATTERN (drop p content)) as [x|] eqn:E; [|done].
    destruct (Hall p) as (s & _ & Hs & _); [by rewrite E |].
    rewrite Hnil in Hs. by apply elem_of_nil in Hs.
  - intros Hnone. destruct (parse_sections content) as [|s rest] eqn:E;
      [done |].
    assert (s ∈ parse_sections content) as Hs by (rewrite E; left).
    destruct (parse_sections_elem _ _ Hs) as (m & _ & Hm).
    destruct Hm as (_ & _ & _ & _ & _ & _ & _ & Hp).
    by rewrite Hnone in Hp.
Qed.

(** ** Repeated titles *)

(** X13. When several sections have the wanted title (in any mix of upper
    and lower case), the lookup by title addresses the one that comes first
    in the document: no section with a matching title starts before the
    section that [get_section_by_title] and [update_section] work on. *)
Theorem find_section_first (content t : str) (s s' : Section) :
  find_section (parse_sections content) t = Some s →
  s' ∈ parse_sections content →
  lower (title s') = lower t →
  lower (title s) = lower t ∧
  (s' = s ∨ end_pos s ≤ start_pos s').
Proof.
  intros Hf Hs' Ht'. pose proof Hf as [_ Hlow]%find_section_Some.
  split; [done |]. rewrite parse_sections_link in *.
  destruct (find_section_link _ _ _ _ Hf)
    as (ms1 & m & ms2 & Hms & -> & Hfirst).
  pose proof (finditer_ordered content) as Ho. rewrite Hms in Ho, Hs'.
  clear Hf Hms. revert Ho Hs'. generalize 0.
  induction ms1 as [|m0 ms1 IH]; intros lo Ho Hs'.
  - cbn [app link] in Hs'. apply elem_of_cons in Hs' as [-> | Hs']; [by left |].
    right. destruct (link_elem_make _ _ _ Hs') as (m' & e & Hm' & ->).
    cbn [make_section start_pos end_pos].
    destruct Ho as (_ & _ & Ho).
    destruct ms2 as [|m2 ms2]; [by apply elem_of_nil in Hm' |].
    cbn [next_start]. apply elem_of_cons in Hm' as [-> | Hm']; [done |].
    destruct Ho as (_ & ? & Ho). destruct (ordered_elem _ _ _ Ho Hm'). lia.
  - cbn [app link] in Hs'. apply elem_of_cons in Hs' as [-> | Hs'].
    + exfalso. apply (Hfirst m0); [left | done].
    + destruct Ho as (_ & _ & Ho). eapply IH; [|done..].
      intros m1 H1. apply Hfirst. by right.
Qed.

Lemma find_section_first_witness :
  lower (title (mkSection (txt "section") (txt "Intro") (txt "a") 0 17))
    = lower (txt "INTRO") ∧
  (mkSection (txt "section") (txt "intro") (txt "b") 17 34
     = mkSection (txt "section") (txt "Intro") (txt "a") 0 17
   ∨ end_pos (mkSection (txt "section") (txt "Intro") (txt "a") 0 17)
       ≤ start_pos (mkSection (txt "section") (txt "intro") (txt "b") 17 34)).
Proof.
  apply (find_section_first
           (txt "\section{Intro}a" ++ [nl] ++ txt "\section{intro}b" ++ [nl])
           (txt "INTRO")).
  - vm_compute. reflexivity.
  - vm_compute. right. left.
  - vm_compute. reflexivity.
Defined.

(** ** Steps that leave the world alone *)

Lemma pure_lift {A} (r : result A) : pure_step (lift r).
Proof. intros w r' w'. unfold lift. by intros [= _ <-]. Qed.

Lemma pure_ret {A} (a : A) : pure_step (ret a).
Proof. intros w r' w'. unfold ret. by intros [= _ <-]. Qed.

Lemma pure_raise {A} (e : exn) : pure_step (@raise A e).
Proof. intros w r' w'. unfold raise. by intros [= _ <-]. Qed.

Lemma pure_required {A} key (v : option A) : pure_step (required key v).
Proof. destruct v; [apply pure_ret | apply pure_raise]. Qed.

Lemma pure_path_exists p : pure_step (path_exists p).
Proof. intros w r' w'. unfold path_exists. by intros [= _ <-]. Qed.

Lemma pure_read_text p : pure_step (read_text p).
Proof.
  intros w r' w'. unfold read_text.
  destruct (lookup_node w p) as [[?|]|]; by intros [= _ <-].
Qed.

Lemma pure_bind {A B} (m : M A) (k : A → M B) :
  pure_step m → (∀ a, pure_step (k a)) → pure_step (bind m k).
Proof.
  intros Hm Hk w r w'. unfold bind.
  destruct (m w) as [[a|e] w1] eqn:E.
  - apply Hm in E as ->. apply Hk.
  - apply Hm in E as ->. by intros [= _ <-].
Qed.

Ltac pure_tac :=
  repeat first
    [ apply pure_lift | apply pure_ret | apply pure_raise
    | apply pure_required | apply pure_path_exists | apply pure_read_text
    | apply pure_bind; [|intros ?]
    | match goal with
      | |- pure_step (if ?b then _ else _) => destruct b
      | |- pure_step (match ?x with _ => _ end) => destruct x
      end ].

(** A branch that looks the project up, refreshes its mirror and goes on
    with steps that leave the world alone. *)
Lemma after_refresh {A} env arguments (k : ProjectConfig → M A) w r w' :
  (∀ p, pure_step (k p)) →
  bind (lift (get_project_config (env_config env)
                                 (arg_project_name arguments)))
       (λ project, bind (ensure_repo env project) (λ _, k project)) w
    = (r, w') →
  refreshed env arguments w w'.
Proof.
  intros Hk H. unfold bind at 1 in H. unfold lift in H.
  destruct (get_project_config _ _) as [project|e] eqn:Hp; cycle 1.
  { injection H as _ <-. by left. }
  unfold bind in H. destruct (ensure_repo env project w) as [[u|e] w1] eqn:E.
  - apply Hk in H as ->. right. exists project. by rewrite E.
  - injection H as _ <-. right. exists project. by rewrite E.
Qed.

(** X14. The reading tools write nothing.  Whatever [list_files],
    [read_file], [get_sections] and [get_section_content] answer or raise,
    the world after the call is the world before it or the world that the
    refresh of the mirror ([ensure_repo]) left: no file is written, nothing
    is staged or committed by the tool itself. *)
Theorem reading_tools_write_nothing (env : Env) (arguments : Arguments)
    (w w' : World) (r : result str) :
  execute_tool env list_files arguments w = (r, w')
  ∨ execute_tool env get_section_content arguments w = (r, w')
  ∨ read_file_tool env arguments w = (r, w')
  ∨ get_sections_tool env arguments w = (r, w') →
  refreshed env arguments w w'.
Proof.
  intros [H | [H | [H | H]]];
    (eapply after_refresh; [|exact H]); intros p; cbv zeta.
  - intros w0 r0 w0'. by intros [= _ <-].
  - pure_tac.
  - pure_tac.
  - pure_tac.
Qed.

Lemma reading_tools_write_nothing_witness :
  refreshed (env_offline (txt "./overleaf_cache")) tex_arguments
            world0 world0.
Proof.
  apply (reading_tools_write_nothing _ _ _ _
           (Ok (txt "Files in project 'Thesis':" ++ [nl]
                ++ txt "  - ch/a.tex" ++ [nl] ++ txt "  - main.tex"))).
  left. vm_refl.
Defined.

(** ** Refused calls *)

Lemma execute_tool_missing_file env t arguments w w1 project file_path
    target_path :
  t = edit_file ∨ t = update_section ∨ t = delete_file →
  has_required t arguments = true →
  arg_file_path arguments = Some file_path →
  get_project_config (env_config env) (arg_project_name arguments)
    = Ok project →
  ensure_repo env project w = (Ok (), w1) →
  validate_path (env_cwd env) (get_repo_path env (project_id project))
                file_path = Ok target_path →
  lookup_node w1 target_path = None →
  execute_tool env t arguments w = (Ok (missing_file_msg t file_path), w1).
Proof.
  intros Ht Hreq Hf Hp He Hv Hn. unfold execute_tool.
  assert (path_exists target_path w1 = (Ok false, w1)) as Hex
    by (unfold path_exists; by rewrite Hn).
  destruct Ht as [-> | [-> | ->]]; cbn [has_required] in Hreq;
    repeat (apply andb_prop in Hreq as [Hreq ?]);
    repeat match goal with
      | H : bool_decide (is_Some _) = true |- _ =>
          apply bool_decide_eq_true in H as [? H]
      end;
    rewrite Hp; unfold lift;
    rewrite (bind_step _ _ w project w) by done;
    rewrite (bind_step _ _ w () w1) by done;
    rewrite Hf; unfold required.
  - rewrite (bind_step _ _ w1 file_path w1) by done.
    match goal with H : arg_content _ = _ |- _ => rewrite H end.
    erewrite (bind_step _ _ w1 _ w1) by done.
    rewrite Hv. rewrite (bind_step _ _ w1 target_path w1) by done.
    by rewrite (bind_step _ _ _ _ _ Hex).
  - rewrite (bind_step _ _ w1 file_path w1) by done.
    match goal with H : arg_section_title _ = _ |- _ => rewrite H end.
    erewrite (bind_step _ _ w1 _ w1) by done.
    match goal with H : arg_new_content _ = _ |- _ => rewrite H end.
    erewrite (bind_step _ _ w1 _ w1) by done.
    rewrite Hv. rewrite (bind_step _ _ w1 target_path w1) by done.
    by rewrite (bind_step _ _ _ _ _ Hex).
  - rewrite (bind_step _ _ w1 file_path w1) by done.
    rewrite Hv. rewrite (bind_step _ _ w1 target_path w1) by done.
    by rewrite (bind_step _ _ _ _ _ Hex).
Qed.

(** X15. [edit_file], [update_section] and [delete_file] on a path that
    does not exist in the refreshed mirror answer that the file was not
    found ([edit_file] points to [create_file]) and leave the world as the
    refresh left it: the file is not created, nothing is staged, no commit
    is made. *)
Theorem missing_file_no_change (env : Env) (t : tool) (arguments : Arguments)
    (w w1 : World) (project : ProjectConfig) (file_path : str)
    (target_path : list str) :
  t = edit_file ∨ t = update_section ∨ t = delete_file →
  has_required t arguments = true →
  arg_file_path arguments = Some file_path →
  get_project_config (env_config env) (arg_project_name arguments)
    = Ok project →
  ensure_repo env project w = (Ok (), w1) →
  validate_path (env_cwd env) (get_repo_path env (project_id project))
                file_path = Ok target_path →
  lookup_node w1 target_path = None →
  call_tool env t arguments w = (missing_file_msg t file_path, w1).
Proof.
  intros Ht Hreq Hf Hp He Hv Hn. unfold call_tool.
  by rewrite (execute_tool_missing_file _ _ _ _ _ _ _ _ Ht Hreq Hf Hp He Hv Hn).
Qed.

Lemma missing_file_no_change_witness :
  call_tool (env_offline (txt "./overleaf_cache")) delete_file
    (mkArguments None (Some (txt "ch/missing.tex")) None None None None
                 None None) world0
  = (missing_file_msg delete_file (txt "ch/missing.tex"), world0).
Proof.
  apply (missing_file_no_change (env_offline (txt "./overleaf_cache"))
           delete_file _ world0 world0 thesis (txt "ch/missing.tex")
           (mirror_root ++ [txt "ch"; txt "missing.tex"])).
  - right. by right.
  - reflexivity.
  - reflexivity.
  - vm_refl.
  - vm_refl.
  - vm_refl.
  - vm_refl.
Defined.

(** X16. [update_section] with a title that no section of the file has
    answers with the list of the titles that the file does have, in the
    order of the document, and leaves the world as the refresh left it. *)
Theorem update_section_unknown_title (env : Env) (arguments : Arguments)
    (w w1 : World) (project : ProjectConfig)
    (file_path section_title new_content content : str)
    (target_path : list str) :
  get_project_config (env_config env) (arg_project_name arguments)
    = Ok project →
  ensure_repo env project w = (Ok (), w1) →
  arg_file_path arguments = Some file_path →
  arg_section_title arguments = Some section_title →
  arg_new_content arguments = Some new_content →
  validate_path (env_cwd env) (get_repo_path env (project_id project))
                file_path = Ok target_path →
  lookup_node w1 target_path = Some (File content) →
  (∀ s, s ∈ parse_sections content →
     lower (title s) ≠ lower section_title) →
  call_tool env update_section arguments w
    = (txt "Section '" ++ section_title
       ++ txt "' not found. Available sections: "
       ++ quoted_titles (map title (parse_sections content)), w1).
Proof.
  intros Hp He Hf Ht Hnew Hv Hn Hnone. unfold call_tool, execute_tool.
  rewrite Hp, Hf, Ht, Hnew. unfold lift, required.
  rewrite (bind_step _ _ w project w) by done.
  rewrite (bind_step _ _ w () w1) by done.
  rewrite (bind_step _ _ w1 file_path w1) by done.
  rewrite (bind_step _ _ w1 section_title w1) by done.
  rewrite (bind_step _ _ w1 new_content w1) by done.
  rewrite Hv. rewrite (bind_step _ _ w1 target_path w1) by done.
  rewrite (bind_step _ _ w1 true w1); [|by unfold path_exists; rewrite Hn].
  cbn [negb].
  rewrite (bind_step _ _ w1 content w1); [|by unfold read_text; rewrite Hn].
  unfold update_section_text.
  destruct (find_section (parse_sections content) section_title) as [s|] eqn:E;
    [|done].
  apply find_section_Some in E as [Hin Hlow]. by destruct (Hnone s Hin).
Qed.

Lemma update_section_unknown_title_witness :
  call_tool (env_offline (txt "./overleaf_cache")) update_section
    (mkArguments None (Some (txt "main.tex")) None None None None
                 (Some (txt "Results")) (Some (txt "x"))) world0
  = (txt "Section '" ++ txt "Results"
     ++ txt "' not found. Available sections: "
     ++ quoted_titles (map title (parse_sections doc_intro)), world0).
Proof.
  apply (update_section_unknown_title (env_offline (txt "./overleaf_cache"))
           _ world0 world0 thesis (txt "main.tex") (txt "Results") (txt "x")
           doc_intro (mirror_root ++ [txt "main.tex"])).
  - vm_refl.
  - vm_refl.
  - reflexivity.
  - reflexivity.
  - reflexivity.
  - vm_refl.
  - vm_refl.
  - intros s Hs. vm_compute in Hs.
    apply list_elem_of_In in Hs as [<- | [<- | []]]; vm_compute; discriminate.
Defined.

Lemma execute_tool_path_escape env t arguments w w1 project file_path e :
  takes_path t = true →
  has_required t arguments = true →
  arg_file_path arguments = Some file_path →
  get_project_config (env_config env) (arg_project_name arguments)
    = Ok project →
  ensure_repo env project w = (Ok (), w1) →
  validate_path (env_cwd env) (get_repo_path env (project_id project))
                file_path = Raise e →
  execute_tool env t arguments w
    = (Raise (ValueError (escapes_msg file_path)), w1).
Proof.
  intros Ht Hreq Hf Hp He Hv.
  assert (e = ValueError (escapes_msg file_path)) as ->.
  { unfold validate_path in Hv. destruct (negb _); [|done]. by injection Hv. }
  unfold execute_tool.
  destruct t; try done; cbn [has_required] in Hreq;
    repeat (apply andb_prop in Hreq as [Hreq ?]);
    repeat match goal with
      | H : bool_decide (is_Some _) = true |- _ =>
          apply bool_decide_eq_true in H as [? H]
      end;
    rewrite Hp; unfold lift;
    rewrite (bind_step _ _ w project w) by done;
    rewrite (bind_step _ _ w () w1) by done;
    rewrite Hf; unfold required;
    rewrite (bind_step _ _ w1 file_path w1) by done;
    repeat match goal with
      | H : arg_content _ = _ |- _ => rewrite H; clear H
      | H : arg_section_title _ = _ |- _ => rewrite H; clear H
      | H : arg_new_content _ = _ |- _ => rewrite H; clear H
      end;
    repeat (erewrite (bind_step (ret _) _ w1 _ w1) by done);
    rewrite Hv;
    by rewrite (bind_raise _ _ w1 (ValueError (escapes_msg file_path)) w1).
Qed.

(** X17. A path that [validate_path] rejects stops every tool that takes a
    path before it touches a file: the caller receives the path-escape
    error as text, and the world is what the refresh left. *)
Theorem path_escape_no_change (env : Env) (t : tool) (arguments : Arguments)
    (w w1 : World) (project : ProjectConfig) (file_path : str) (e : exn) :
  takes_path t = true →
  has_required t arguments = true →
  arg_file_path arguments = Some file_path →
  get_project_config (env_config env) (arg_project_name arguments)
    = Ok project →
  ensure_repo env project w = (Ok (), w1) →
  validate_path (env_cwd env) (get_repo_path env (project_id project))
                file_path = Raise e →
  call_tool env t arguments w
    = (txt "Error: Path '" ++ file_path ++ txt "' escapes repository root",
       w1).
Proof.
  intros Ht Hreq Hf Hp He Hv. unfold call_tool.
  by rewrite (execute_tool_path_escape _ _ _ _ _ _ _ _ Ht Hreq Hf Hp He Hv).
Qed.

Lemma path_escape_no_change_witness :
  call_tool (env_offline (txt "./overleaf_cache")) create_file
    (mkArguments None (Some (txt "../../etc/passwd")) (Some (txt "x"))
                 None None None None None) world0
  = (txt "Error: Path '" ++ txt "../../etc/passwd"
     ++ txt "' escapes repository root", world0).
Proof.
  apply (path_escape_no_change (env_offline (txt "./overleaf_cache"))
           create_file _ world0 world0 thesis (txt "../../etc/passwd")
           (ValueError (escapes_msg (txt "../../etc/passwd")))).
  - reflexivity.
  - reflexivity.
  - reflexivity.
  - vm_refl.
  - vm_refl.
  - vm_refl.
Defined.

(** ** Committed changes *)

Lemma write_text_Ok p data w u w' :
  write_text p data w = (Ok u, w') →
  p ≠ [] ∧ w' = set_fs (<[p := File data]> (fs w)) w.
Proof.
  unfold write_text. destruct (negb _); [done |].
  destruct (is_dir w p) eqn:E; [done |]. intros [= _ <-]. split; [|done].
  intros ->. by vm_compute in E.
Qed.

Lemma unlink_Ok p w u w' :
  unlink p w = (Ok u, w') → p ≠ [] ∧ w' = set_fs (delete p (fs w)) w.
Proof.
  unfold unlink. destruct (lookup_node w p) as [[?|]|] eqn:E; [|done..].
  intros [= _ <-]. split; [|done]. intros ->. by vm_compute in E.
Qed.

Lemma mkdir_parents_Ok p w u w' :
  mkdir_parents p w = (Ok u, w') →
  w' = set_fs (foldr (λ q m, <[q := Dir]> m) (fs w) (ancestors p)) w.
Proof.
  unfold mkdir_parents. destruct (existsb _ _); [done |]. by intros [= _ <-].
Qed.

Lemma config_git_user_Ok env w u w' :
  config_git_user env w = (Ok u, w') →
  w' = mkWorld (fs w) (Some (default (env_author env) (git_user w)))
               (index w) (commits w).
Proof.
  unfold config_git_user. destruct w as [f [g|] i c]; by intros [= _ <-].
Qed.

(** The four mutating branches, from the answer back to the steps. *)
Lemma create_file_committed env arguments w w2 :
  execute_tool env create_file (with_push false arguments) w
    = (Ok (committed_msg create_file arguments), w2) →
  ∃ project w1 file_path content target_path,
    get_project_config (env_config env) (arg_project_name arguments)
      = Ok project ∧
    ensure_repo env project w = (Ok (), w1) ∧
    arg_file_path arguments = Some file_path ∧
    arg_content arguments = Some content ∧
    validate_path (env_cwd env) (get_repo_path env (project_id project))
                  file_path = Ok target_path ∧
    lookup_node w1 target_path = None ∧
    target_path ≠ [] ∧
    w2 = committed env create_file arguments w1
           (<[target_path := File content]>
              (foldr (λ q m, <[q := Dir]> m) (fs w1)
                     (ancestors (removelast target_path)))).
Proof.
  intros H. unfold execute_tool in H.
  cbn [with_push arg_project_name arg_file_path arg_content
       arg_commit_message arg_push default] in H.
  mstep H project w0 Hp. apply lift_Ok in Hp as [Hp ->].
  mstep H u w1 He. destruct u.
  mstep H file_path w' Hf. apply required_Ok in Hf as [Hf ->].
  mstep H content w' Hc. apply required_Ok in Hc as [Hc ->].
  mstep H target_path w' Hv. apply lift_Ok in Hv as [Hv ->].
  mstep H ex w' Hex. pose proof Hex as ->%path_exists_Ok.
  destruct ex.
  { apply ret_Ok in H as [H _]. unfold committed_msg in H. by rewrite Hf in H. }
  mstep H u w3 Hmk. apply mkdir_parents_Ok in Hmk as ->.
  mstep H u' w4 Hwr. apply write_text_Ok in Hwr as [Hne ->].
  mstep H u'' w5 Hcf. apply config_git_user_Ok in Hcf as ->.
  mstep H u3 w6 Hadd. injection Hadd as _ <-.
  mstep H u4 w7 Hcm. injection Hcm as _ <-.
  apply ret_Ok in H as [_ ->].
  exists project, w1, file_path, content, target_path.
  repeat split; try done.
  - unfold path_exists in Hex. by destruct (lookup_node w1 target_path).
  - unfold committed, commit_message_of. by rewrite Hf.
Qed.

Lemma edit_file_committed env arguments w w2 :
  execute_tool env edit_file (with_push false arguments) w
    = (Ok (committed_msg edit_file arguments), w2) →
  ∃ project w1 file_path content target_path,
    get_project_config (env_config env) (arg_project_name arguments)
      = Ok project ∧
    ensure_repo env project w = (Ok (), w1) ∧
    arg_file_path arguments = Some file_path ∧
    arg_content arguments = Some content ∧
    validate_path (env_cwd env) (get_repo_path env (project_id project))
                  file_path = Ok target_path ∧
    is_Some (lookup_node w1 target_path) ∧
    target_path ≠ [] ∧
    w2 = committed env edit_file arguments w1
           (<[target_path := File content]> (fs w1)).
Proof.
  intros H. unfold execute_tool in H.
  cbn [with_push arg_project_name arg_file_path arg_content
       arg_commit_message arg_push default] in H.
  mstep H project w0 Hp. apply lift_Ok in Hp as [Hp ->].
  mstep H u w1 He. destruct u.
  mstep H file_path w' Hf. apply required_Ok in Hf as [Hf ->].
  mstep H content w' Hc. apply required_Ok in Hc as [Hc ->].
  mstep H target_path w' Hv. apply lift_Ok in Hv as [Hv ->].
  mstep H ex w' Hex. pose proof Hex as ->%path_exists_Ok.
  destruct ex; cbn [negb] in H; cycle 1.
  { apply ret_Ok in H as [H _]. unfold committed_msg in H. by rewrite Hf in H. }
  mstep H u' w4 Hwr. apply write_text_Ok in Hwr as [Hne ->].
  mstep H u'' w5 Hcf. apply config_git_user_Ok in Hcf as ->.
  mstep H u3 w6 Hadd. injection Hadd as _ <-.
  mstep H u4 w7 Hcm. injection Hcm as _ <-.
  apply ret_Ok in H as [_ ->].
  exists project, w1, file_path, content, target_path.
  repeat split; try done.
  - unfold path_exists in Hex. by destruct (lookup_node w1 target_path).
  - unfold committed, commit_message_of. by rewrite Hf.
Qed.

Lemma update_section_committed env arguments w w2 :
  execute_tool env update_section (with_push false arguments) w
    = (Ok (committed_msg update_section arguments), w2) →
  ∃ project w1 file_path section_title new_content target_path content
    new_file_content,
    get_project_config (env_config env) (arg_project_name arguments)
      = Ok project ∧
    ensure_repo env project w = (Ok (), w1) ∧
    arg_file_path arguments = Some file_path ∧
    arg_section_title arguments = Some section_title ∧
    arg_new_content arguments = Some new_content ∧
    validate_path (env_cwd env) (get_repo_path env (project_id project))
                  file_path = Ok target_path ∧
    lookup_node w1 target_path = Some (File content) ∧
    update_section_text content section_title new_content
      = NewFileContent new_file_content ∧
    w2 = committed env update_section arguments w1
           (<[target_path := File new_file_content]> (fs w1)).
Proof.
  intros H. unfold execute_tool in H.
  cbn [with_push arg_project_name arg_file_path arg_content
       arg_commit_message arg_push arg_section_title arg_new_content
       default] in H.
  mstep H project w0 Hp. apply lift_Ok in Hp as [Hp ->].
  mstep H u w1 He. destruct u.
  mstep H file_path w' Hf. apply required_Ok in Hf as [Hf ->].
  mstep H section_title w' Hs. apply required_Ok in Hs as [Hs ->].
  mstep H new_content w' Hc. apply required_Ok in Hc as [Hc ->].
  mstep H target_path w' Hv. apply lift_Ok in Hv as [Hv ->].
  mstep H ex w' Hex. pose proof Hex as ->%path_exists_Ok.
  destruct ex; cbn [negb] in H; cycle 1.
  { apply ret_Ok in H as [H _]. unfold committed_msg in H. by rewrite Hs in H. }
  mstep H content w' Hr.
  assert (lookup_node w1 target_path = Some (File content) ∧ w' = w1)
    as [Hn ->].
  { unfold read_text in Hr.
    destruct (lookup_node w1 target_path) as [[?|]|]; [|done..].
    by injection Hr as -> ->. }
  destruct (update_section_text content section_title new_content)
    as [available| |new_file_content] eqn:Hu.
  { apply ret_Ok in H as [H _]. unfold committed_msg in H. by rewrite Hs in H. }
  { apply ret_Ok in H as [H _]. unfold committed_msg in H. by rewrite Hs in H. }
  mstep H u' w4 Hwr. apply write_text_Ok in Hwr as [Hne ->].
  mstep H u'' w5 Hcf. apply config_git_user_Ok in Hcf as ->.
  mstep H u3 w6 Hadd. injection Hadd as _ <-.
  mstep H u4 w7 Hcm. injection Hcm as _ <-.
  apply ret_Ok in H as [_ ->].
  exists project, w1, file_path, section_title, new_content, target_path,
    content, new_file_content.
  repeat split; try done.
  unfold committed, commit_message_of. by rewrite Hf, Hs.
Qed.

Lemma delete_file_committed env arguments w w2 :
  execute_tool env delete_file (with_push false arguments) w
    = (Ok (committed_msg delete_file arguments), w2) →
  ∃ project w1 file_path target_path,
    get_project_config (env_config env) (arg_project_name arguments)
      = Ok project ∧
    ensure_repo env project w = (Ok (), w1) ∧
    arg_file_path arguments = Some file_path ∧
    validate_path (env_cwd env) (get_repo_path env (project_id project))
                  file_path = Ok target_path ∧
    is_file w1 target_path = true ∧
    target_path ≠ [] ∧
    w2 = committed env delete_file arguments w1 (delete target_path (fs w1)).
Proof.
  intros H. unfold execute_tool in H.
  cbn [with_push arg_project_name arg_file_path arg_content
       arg_commit_message arg_push default] in H.
  mstep H project w0 Hp. apply lift_Ok in Hp as [Hp ->].
  mstep H u w1 He. destruct u.
  mstep H file_path w' Hf. apply required_Ok in Hf as [Hf ->].
  mstep H target_path w' Hv. apply lift_Ok in Hv as [Hv ->].
  mstep H ex w' Hex. pose proof Hex as ->%path_exists_Ok.
  destruct ex; cbn [negb] in H; cycle 1.
  { apply ret_Ok in H as [H _]. unfold committed_msg in H. by rewrite Hf in H. }
  mstep H u'' w5 Hcf. apply config_git_user_Ok in Hcf as ->.
  mstep H u3 w6 Hadd. injection Hadd as _ <-.
  mstep H u' w4 Hun.
  assert (is_file w1 target_path = true) as Hfile.
  { unfold unlink, lookup_node in Hun. unfold is_file, lookup_node.
    cbn [fs] in Hun. destruct (decide (target_path = [])); [done |].
    by destruct (fs w1 !! target_path) as [[?|]|]. }
  apply unlink_Ok in Hun as [Hne ->].
  mstep H u4 w7 Hcm. injection Hcm as _ <-.
  apply ret_Ok in H as [_ ->].
  exists project, w1, file_path, target_path.
  repeat split; try done.
  unfold committed, commit_message_of. by rewrite Hf.
Qed.

(** X18. A mutating tool that reports its commit has made exactly one
    commit on top of the refreshed history: it carries the caller's
    [commit_message] or the default of the tool, and it holds what was
    staged before together with the one path of the call (added, or removed
    by [delete_file]).  Nothing stays staged, and the author is the one
    that was configured, or the server's when none was. *)
Theorem mutation_commits_once (env : Env) (t : tool) (arguments : Arguments)
    (w w2 : World) :
  mutating t = true →
  execute_tool env t (with_push false arguments) w
    = (Ok (committed_msg t arguments), w2) →
  ∃ project w1 file_path,
    get_project_config (env_config env) (arg_project_name arguments)
      = Ok project ∧
    ensure_repo env project w = (Ok (), w1) ∧
    arg_file_path arguments = Some file_path ∧
    commits w2 = mkCommit (commit_message_of t arguments)
                          (index w1 ++ [staged t file_path]) :: commits w1 ∧
    index w2 = [] ∧
    git_user w2 = Some (default (env_author env) (git_user w1)).
Proof.
  intros Hmut H. destruct t; try done.
  - apply create_file_committed in H
      as (project & w1 & file_path & ? & ? & Hp & He & Hf & _ & _ & _ & _ & ->).
    exists project, w1, file_path. cbn. by rewrite Hf.
  - apply edit_file_committed in H
      as (project & w1 & file_path & ? & ? & Hp & He & Hf & _ & _ & _ & _ & ->).
    exists project, w1, file_path. cbn. by rewrite Hf.
  - apply update_section_committed in H
      as (project & w1 & file_path & ? & ? & ? & ? & ? & Hp & He & Hf & _ & _
          & _ & _ & _ & ->).
    exists project, w1, file_path. cbn. by rewrite Hf.
  - apply delete_file_committed in H
      as (project & w1 & file_path & ? & Hp & He & Hf & _ & _ & _ & ->).
    exists project, w1, file_path. cbn. by rewrite Hf.
Qed.

Lemma mutation_commits_once_witness :
  ∃ project w1 file_path,
    get_project_config (env_config (env_offline (txt "./overleaf_cache")))
                       (arg_project_name edit_arguments) = Ok project ∧
    ensure_repo (env_offline (txt "./overleaf_cache")) project world0
      = (Ok (), w1) ∧
    arg_file_path edit_arguments = Some file_path ∧
    commits world_after_edit
      = mkCommit (commit_message_of edit_file edit_arguments)
                 (index w1 ++ [staged edit_file file_path]) :: commits w1 ∧
    index world_after_edit = [] ∧
    git_user world_after_edit
      = Some (default (env_author (env_offline (txt "./overleaf_cache")))
                      (git_user w1)).
Proof.
  apply (mutation_commits_once (env_offline (txt "./overleaf_cache"))
           edit_file edit_arguments world0 world_after_edit).
  - reflexivity.
  - vm_refl.
Defined.

Lemma read_file_tool_step env arguments w project file_path target_path :
  get_project_config (env_config env) (arg_project_name arguments)
    = Ok project →
  ensure_repo env project w = (Ok (), w) →
  arg_file_path arguments = Some file_path →
  validate_path (env_cwd env) (get_repo_path env (project_id project))
                file_path = Ok target_path →
  read_file_tool env arguments w
  = match lookup_node w target_path with
    | None => (Ok (txt "Error: File '" ++ file_path ++ txt "' not found"), w)
    | Some _ =>
        bind (read_text target_path)
             (λ content, ret (content_msg file_path content)) w
    end.
Proof.
  intros Hp He Hf Hv. unfold read_file_tool. rewrite Hp, Hf.
  unfold lift, required.
  rewrite (bind_step _ _ w project w) by done.
  rewrite (bind_step _ _ w () w) by done.
  rewrite (bind_step _ _ w file_path w) by done.
  rewrite Hv. rewrite (bind_step _ _ w target_path w) by done.
  unfold path_exists at 1. unfold bind at 1.
  by destruct (lookup_node w target_path).
Qed.



(** X20. After [delete_file] has committed, [read_file] on the same path
    answers that the file is not found, when the refresh before the read
    brings nothing new. *)
Theorem delete_then_read (env : Env) (arguments : Arguments)
    (w w2 : World) (project : ProjectConfig) (file_path : str) :
  execute_tool env delete_file (with_push false arguments) w
    = (Ok (committed_msg delete_file arguments), w2) →
  get_project_config (env_config env) (arg_project_name arguments)
    = Ok project →
  arg_file_path arguments = Some file_path →
  ensure_repo env project w2 = (Ok (), w2) →
  read_file_tool env arguments w2
    = (Ok (txt "Error: File '" ++ file_path ++ txt "' not found"), w2).
Proof.
  intros H Hp Hf He2.
  apply delete_file_committed in H
    as (? & w1 & ? & target_path & Hp' & _ & Hf' & Hv & _ & Hne & ->).
  assert (validate_path (env_cwd env)
            (get_repo_path env (project_id project)) file_path
          = Ok target_path) as Hv' by congruence.
  rewrite (read_file_tool_step _ _ _ _ _ _ Hp He2 Hf Hv').
  unfold lookup_node, committed. cbn [fs].
  rewrite decide_False by done. by rewrite lookup_delete_eq.
Qed.

Lemma delete_then_read_witness :
  read_file_tool (env_offline (txt "./overleaf_cache")) delete_arguments
                 world_after_delete
  = (Ok (txt "Error: File '" ++ txt "refs.bib" ++ txt "' not found"),
     world_after_delete).
Proof.
  apply (delete_then_read (env_offline (txt "./overleaf_cache"))
           delete_arguments world0 world_after_delete thesis).
  - vm_refl.
  - vm_refl.
  - reflexivity.
  - vm_refl.
Defined.

(** ** The HTTP wrapper *)

Lemma replace_from_skip old new a r :
  replace_from old new (length a) (a ++ r) = replace_from old new 0 r.
Proof.
  induction a as [|c a IH]; [by destruct r |]. done.
Qed.

Lemma replace_from_occurrence old new r :
  old ≠ [] →
  replace_from old new 0 (old ++ r) = new ++ replace_from old new 0 r.
Proof.
  intros Hne. destruct old as [|c old']; [done |].
  change ((c :: old') ++ r) with (c :: (old' ++ r)).
  cbn [replace_from].
  replace (startswith (c :: old' ++ r) (c :: old')) with true; cycle 1.
  { symmetry. apply startswith_prefix. by exists r. }
  replace (length (c :: old') - 1) with (length old') by (cbn [length]; lia).
  by rewrite replace_from_skip.
Qed.

Lemma replace_from_absent old new s :
  contains s old = false → replace_from old new 0 s = s.
Proof.
  induction s as [|c s IH]; [done |]. cbn [contains replace_from].
  intros [-> Hs]%orb_false_elim. f_equal. by apply IH.
Qed.

Lemma replace_from_length old k s :
  length (replace_from old [] k s) ≤ length s.
Proof.
  revert k. induction s as [|c s IH]; intros k; [done |].
  cbn [replace_from]. destruct k as [|k].
  - destruct (startswith _ _); cbn [app length].
    + specialize (IH (length old - 1)). lia.
    + specialize (IH 0). lia.
  - specialize (IH k). cbn [length]. lia.
Qed.

Lemma replace_from_shorter old s :
  contains s old = true →
  s ≠ [] →
  length (replace_from old [] 0 s) < length s.
Proof.
  induction s as [|c s IH]; [done |]. intros Hc _.
  cbn [contains] in Hc. cbn [replace_from].
  destruct (startswith (c :: s) old) eqn:E; cbn [app length].
  - pose proof (replace_from_length old (length old - 1) s). lia.
  - cbn [orb] in Hc. destruct s as [|d s].
    + cbn [contains] in Hc. rewrite orb_false_r in Hc.
      apply startswith_prefix in Hc as [r Hr]. by destruct old.
    + specialize (IH Hc ltac:(done)). lia.
Qed.

(** X21. The header [Bearer <API_KEY>] passes [verify_api_key] exactly when
    the key does not itself contain the text [Bearer ] followed by a space:
    the check removes every occurrence of that text from the header, not
    only the leading one, so a key that contains it is answered with 401
    [Invalid API key] although the header is the right one. *)
Theorem verify_api_key_bearer (API_KEY : str) :
  (contains API_KEY (txt "Bearer ") = false →
   verify_api_key API_KEY (bearer API_KEY) = Return ()) ∧
  (contains API_KEY (txt "Bearer ") = true →
   verify_api_key API_KEY (bearer API_KEY)
     = HTTPException 401 (txt "Invalid API key")).
Proof.
  assert (replace (txt "Bearer ") [] (txt "Bearer " ++ API_KEY)
          = replace_from (txt "Bearer ") [] 0 API_KEY) as Hrep.
  { unfold replace. rewrite decide_False by done.
    by rewrite replace_from_occurrence. }
  assert (startswith (txt "Bearer " ++ API_KEY) (txt "Bearer ") = true) as Hst.
  { apply startswith_prefix. by exists API_KEY. }
  unfold verify_api_key, bearer.
  destruct (decide (API_KEY = [])) as [-> | Hne]; [by split |].
  change (txt "Bearer " ++ API_KEY)
    with ("B"%char :: (txt "earer " ++ API_KEY)) at 1 3.
  cbv iota beta.
  change ("B"%char :: (txt "earer " ++ API_KEY))
    with (txt "Bearer " ++ API_KEY).
  rewrite Hst, Hrep. cbn [negb]. split; intros Hc.
  - rewrite (replace_from_absent _ _ _ Hc). by rewrite decide_False by auto.
  - rewrite decide_True; [done |].
    pose proof (replace_from_shorter _ _ Hc Hne) as Hlen.
    intros Heq. rewrite Heq in Hlen. lia.
Qed.

Lemma verify_api_key_Return API_KEY authorization :
  verify_api_key API_KEY authorization = Return () →
  API_KEY = [] ∨
  ∃ token, authorization = bearer token
           ∧ replace (txt "Bearer ") [] token = API_KEY.
Proof.
  unfold verify_api_key. destruct (decide (API_KEY = [])); [by left |].
  destruct authorization as [[|c a]|]; [done | | done].
  destruct (startswith (c :: a) (txt "Bearer ")) eqn:E; [|done].
  cbn [negb]. destruct (decide (_ ≠ API_KEY)) as [|Heq]; [done |].
  intros _. right. apply startswith_prefix in E as [token E].
  exists token. unfold bearer. rewrite E. split; [done |].
  apply dec_stable in Heq. rewrite E in Heq. unfold replace in *.
  rewrite decide_False in * by done.
  by rewrite replace_from_occurrence in Heq.
Qed.

(** X22. Over HTTP, a tool that changes files changes nothing without the
    key: when an API key is set and the endpoint of a mutating tool has
    left the world different from what it was, the request carried a
    [Bearer] header whose token, with the occurrences of [Bearer ] removed,
    is the key. *)
Theorem mutation_requires_key (API_KEY : str) (authorization : option str)
    (env : Env) (t : tool) (arguments : Arguments) (w w' : World)
    (r : http ToolResponse) :
  mutating t = true →
  API_KEY ≠ [] →
  endpoint API_KEY authorization env t arguments w = (r, w') →
  w' ≠ w →
  ∃ token, authorization = bearer token
           ∧ replace (txt "Bearer ") [] token = API_KEY.
Proof.
  intros Hmut Hkey H Hw.
  assert (verify_api_key API_KEY authorization = Return ()) as Hv.
  { destruct t; try done; unfold endpoint, depends_verify_api_key in H;
      destruct (verify_api_key API_KEY authorization) as [[]|c d]; try done;
      by injection H as _ <-. }
  by apply verify_api_key_Return in Hv as [? | ?].
Qed.

Lemma mutation_requires_key_witness :
  ∃ token, bearer (txt "s3cret") = bearer token
           ∧ replace (txt "Bearer ") [] token = txt "s3cret".
Proof.
  apply (mutation_requires_key (txt "s3cret") (bearer (txt "s3cret"))
           (env_offline (txt "./overleaf_cache")) edit_file
           (with_push false edit_arguments) world0 world_after_edit
           (Return (mkToolResponse
                      (committed_msg edit_file edit_arguments) true))).
  - reflexivity.
  - discriminate.
  - vm_refl.
  - intros H%(f_equal commits). discriminate.
Defined.

(** X23. Over HTTP, a tool that answers that the file is missing is
    reported as a success: the endpoints of [edit_file], [update_section]
    and [delete_file] return the not-found text in a [ToolResponse] whose
    [success] is true, and the world is what the refresh left. *)
Theorem rest_missing_file_is_success (API_KEY : str)
    (authorization : option str) (env : Env) (t : tool)
    (arguments : Arguments) (w w1 : World) (project : ProjectConfig)
    (file_path : str) (target_path : list str) :
  verify_api_key API_KEY authorization = Return () →
  t = edit_file ∨ t = update_section ∨ t = delete_file →
  has_required t arguments = true →
  arg_file_path arguments = Some file_path →
  get_project_config (env_config env) (arg_project_name arguments)
    = Ok project →
  ensure_repo env project w = (Ok (), w1) →
  validate_path (env_cwd env) (get_repo_path env (project_id project))
                file_path = Ok target_path →
  lookup_node w1 target_path = None →
  endpoint API_KEY authorization env t arguments w
    = (Return (mkToolResponse (missing_file_msg t file_path) true), w1).
Proof.
  intros Hauth Ht Hreq Hf Hp He Hv Hn.
  pose proof (execute_tool_missing_file _ _ _ _ _ _ _ _ Ht Hreq Hf Hp He Hv Hn)
    as H.
  destruct Ht as [-> | [-> | ->]];
    unfold endpoint, depends_verify_api_key, tool_response;
    by rewrite Hauth, H.
Qed.

Lemma rest_missing_file_is_success_witness :
  endpoint (txt "s3cret") (bearer (txt "s3cret"))
    (env_offline (txt "./overleaf_cache")) delete_file
    (mkArguments None (Some (txt "ch/missing.tex")) None None None None
                 None None) world0
  = (Return (mkToolResponse
               (missing_file_msg delete_file (txt "ch/missing.tex")) true),
     world0).
Proof.
  apply (rest_missing_file_is_success (txt "s3cret") (bearer (txt "s3cret"))
           (env_offline (txt "./overleaf_cache")) delete_file _ world0 world0
           thesis (txt "ch/missing.tex")
           (mirror_root ++ [txt "ch"; txt "missing.tex"])).
  - reflexivity.
  - right. by right.
  - reflexivity.
  - reflexivity.
  - vm_refl.
  - vm_refl.
  - vm_refl.
  - vm_refl.
Defined.



(** ** The refresh *)





(** ** The scan over a text in two parts *)

Lemma kind_chars kd c :
  kd ∈ KINDS → c ∈ kd → c ≠ "}"%char ∧ c ≠ nl.
Proof.
  rewrite elem_of_KINDS.
  intros [->|[->|[->|[->|[->|[->| ->]]]]]] Hc%list_elem_of_In;
    cbn in Hc; intuition (subst; discriminate).
Qed.

Lemma opener_chars kd star c :
  kd ∈ KINDS → star = [] ∨ star = txt "*" →
  c ∈ txt "\" ++ kd ++ star ++ txt "{" → c ≠ "}"%char ∧ c ≠ nl.
Proof.
  intros Hkd Hstar. rewrite !elem_of_app.
  intros [Hc | [Hc | [Hc | Hc]]].
  - apply list_elem_of_singleton in Hc as ->. done.
  - by apply (kind_chars kd).
  - destruct Hstar as [-> | ->]; [by apply elem_of_nil in Hc |].
    apply list_elem_of_singleton in Hc as ->. done.
  - apply list_elem_of_singleton in Hc as ->. done.
Qed.

Lemma SECTION_PATTERN_app s x kd t rest :
  SECTION_PATTERN s = Some (kd, t, rest) →
  SECTION_PATTERN (s ++ x) = Some (kd, t, rest ++ x).
Proof.
  intros (Hkd & Ht & Hnt & star & Hstar & ->)%SECTION_PATTERN_Some.
  rewrite <- app_assoc. by apply SECTION_PATTERN_complete.
Qed.

Lemma app_snoc_brace (h u l : str) c :
  h ++ [c] = u ++ c :: l → c ∉ h → l = [] ∧ h = u.
Proof.
  intros E Hc. destruct l as [|z l _] using rev_ind.
  - split; [done |]. by apply app_inj_tail in E as [? _].
  - exfalso. apply Hc.
    rewrite app_comm_cons, app_assoc in E. apply app_inj_tail in E as [-> _].
    apply elem_of_app. right. left.
Qed.

(** A match that starts in a text whose last character is the closing
    brace ends in that text, whatever follows it. *)
Lemma pattern_within a x i kd t rest :
  last a = Some "}"%char → i < length a →
  SECTION_PATTERN (drop i a ++ x) = Some (kd, t, rest) →
  ∃ rest', rest = rest' ++ x
           ∧ SECTION_PATTERN (drop i a) = Some (kd, t, rest').
Proof.
  intros Hlast Hi H.
  apply SECTION_PATTERN_Some in H as (Hkd & Ht & Hnt & star & Hstar & E).
  assert (∃ u, drop i a = u ++ ["}"%char]) as [u Hu].
  { destruct (drop i a) as [|z l _] eqn:Ed using rev_ind.
    - apply (f_equal length) in Ed. rewrite length_drop in Ed. cbn in Ed. lia.
    - exists l. f_equal. f_equal.
      rewrite <- (take_drop i a), Ed, app_assoc, last_snoc in Hlast.
      congruence. }
  set (h := txt "\" ++ kd ++ star ++ txt "{" ++ t).
  assert (heading kd star t = h ++ ["}"%char]) as Hh.
  { unfold heading, h. by rewrite <- !app_assoc. }
  assert ("}"%char ∉ h) as Hnh.
  { unfold h. rewrite !app_assoc. rewrite elem_of_app. intros [Hc | Hc]; [|done].
    rewrite <- !app_assoc in Hc.
    by destruct (opener_chars kd star _ Hkd Hstar Hc). }
  rewrite Hu, Hh in E. apply app_eq_app in E as [l [[E1 E2] | [E1 E2]]].
  - exists l. split; [done |]. rewrite Hu, E1, <- Hh.
    by apply SECTION_PATTERN_complete.
  - rewrite <- app_assoc in E1. cbn [app] in E1.
    apply app_snoc_brace in E1 as [-> ->]; [|done].
    exists []. cbn [app] in E2. split; [done |].
    rewrite Hu, <- Hh, <- (app_nil_r (heading kd star t)).
    by apply SECTION_PATTERN_complete.
Qed.

Lemma no_straddle_tail c a x : no_straddle (c :: a) x → no_straddle a x.
Proof. intros H i kd t rest Hi. apply (H (S i)). cbn. lia. Qed.

Lemma finditer_from_app a x pos skip :
  no_straddle a x →
  finditer_from pos skip (a ++ x)
  = finditer_from pos skip a
    ++ finditer_from (pos + length a) (skip - length a) x.
Proof.
  revert pos skip. induction a as [|c a IH]; intros pos skip H.
  - cbn [app length finditer_from]. by rewrite Nat.add_0_r, Nat.sub_0_r.
  - pose proof (no_straddle_tail _ _ _ H) as Ht.
    change ((c :: a) ++ x) with (c :: (a ++ x)).
    cbn [finditer_from length]. destruct skip as [|skip].
    + destruct (SECTION_PATTERN (c :: a ++ x)) as [[[kd t] rest]|] eqn:E.
      * destruct (H 0 kd t rest) as (rest' & -> & E'); [cbn; lia | done |].
        cbn [drop] in E'. rewrite E'.
        assert (length rest' ≤ length a) as Hle.
        { apply SECTION_PATTERN_Some in E' as (_ & _ & _ & star & _ & E').
          apply (f_equal length) in E'. rewrite length_app in E'.
          pose proof (heading_length kd star t). cbn [length] in E'. lia. }
        rewrite <- app_comm_cons. f_equal.
        { f_equal. cbn [length]. rewrite !length_app. lia. }
        rewrite IH by done. f_equal.
        { f_equal. cbn [length]. rewrite !length_app. lia. }
        f_equal; [lia |]. cbn [length]. rewrite !length_app. lia.
      * assert (SECTION_PATTERN (c :: a) = None) as ->.
        { destruct (SECTION_PATTERN (c :: a)) as [[[kd t] rest]|] eqn:E'; [|done].
          apply (SECTION_PATTERN_app _ x) in E'. cbn [app] in E'. congruence. }
        rewrite IH by done. f_equal. f_equal; lia.
    + rewrite IH by done. f_equal. f_equal; lia.
Qed.

Lemma finditer_from_none a x pos :
  (∀ i, i < length a → SECTION_PATTERN (drop i a ++ x) = None) →
  finditer_from pos 0 (a ++ x) = finditer_from (pos + length a) 0 x.
Proof.
  revert pos. induction a as [|c a IH]; intros pos H.
  - cbn [app length]. by rewrite Nat.add_0_r.
  - change ((c :: a) ++ x) with (c :: (a ++ x)). cbn [finditer_from].
    pose proof (H 0 ltac:(cbn; lia)) as H0. cbn [drop app] in H0.
    rewrite H0, IH.
    + f_equal. cbn [length]. lia.
    + intros i Hi. apply (H (S i)). cbn. lia.
Qed.

Lemma app_split_unique {A} (P : A → Prop) (l1 l2 l1' l2' : list A) :
  l1 ++ l2 = l1' ++ l2' →
  Forall P l1 → Forall P l1' →
  Forall (λ x, ¬ P x) l2 → Forall (λ x, ¬ P x) l2' →
  l1 = l1' ∧ l2 = l2'.
Proof.
  revert l1'. induction l1 as [|a l1 IH]; intros l1' E H1 H1' H2 H2'.
  - destruct l1' as [|b l1']; [done |]. exfalso. cbn in E. subst l2.
    apply Forall_cons in H1' as [? _]. apply Forall_cons in H2 as [? _]. done.
  - destruct l1' as [|b l1'].
    + exfalso. cbn in E. subst l2'.
      apply Forall_cons in H1 as [? _]. apply Forall_cons in H2' as [? _]. done.
    + injection E as -> E. apply Forall_cons in H1 as [_ H1].
      apply Forall_cons in H1' as [_ H1'].
      destruct (IH l1' E H1 H1' H2 H2') as [-> ->]. done.
Qed.

Lemma ordered_split lo l1 m l2 :
  ordered lo (l1 ++ m :: l2) →
  Forall (λ m', m_start m' < m_start m) l1
  ∧ m_start m < m_end m ∧ ordered (m_end m) l2.
Proof.
  revert lo. induction l1 as [|m0 l1 IH]; intros lo Ho.
  - destruct Ho as (_ & ? & ?). done.
  - destruct Ho as (_ & Hlt & Ho). pose proof Ho as Ho'.
    apply IH in Ho as (Hf & ? & ?). split; [|done].
    apply Forall_cons. split; [|done].
    assert (m ∈ l1 ++ m :: l2) as Hin by (apply elem_of_app; right; left).
    destruct (ordered_elem _ _ _ Ho' Hin). lia.
Qed.

Lemma ordered_from lo ms : ordered lo ms → Forall (λ m, lo ≤ m_start m) ms.
Proof.
  intros Ho. apply Forall_forall. intros m Hm.
  by destruct (ordered_elem _ _ _ Ho Hm).
Qed.

(** The scan of a text whose part up to [he] ends with the closing brace of
    a match: the matches up to [he] are those of that part alone. *)
Lemma finditer_prefix pre x :
  last pre = Some "}"%char →
  finditer (pre ++ x)
  = finditer pre ++ finditer_from (length pre) 0 x.
Proof.
  intros Hlast. unfold finditer. rewrite finditer_from_app.
  - by rewrite Nat.add_0_l.
  - intros i kd t rest Hi. by apply pattern_within.
Qed.

Lemma finditer_prefix_of content ms1 m ms2 :
  finditer content = ms1 ++ m :: ms2 →
  finditer (take (m_end m) content) = ms1 ++ [m]
  ∧ finditer_from (m_end m) 0 (drop (m_end m) content) = ms2
  ∧ last (take (m_end m) content) = Some "}"%char
  ∧ m_end m ≤ length content.
Proof.
  intros Hms.
  pose proof (finditer_ordered content) as Ho. rewrite Hms in Ho.
  pose proof (finditer_ok content) as Hok. rewrite Hms in Hok.
  apply Forall_app in Hok as [_ Hok]. apply Forall_cons in Hok as [Hm _].
  destruct (match_ok_text _ _ Hm) as (star & _ & _ & _ & Hsl).
  destruct Hm as (Hlt & Hle & _).
  assert (length (take (m_end m) content) = m_end m) as Hlen
    by (rewrite length_take; lia).
  assert (last (take (m_end m) content) = Some "}"%char) as Hlast.
  { replace (take (m_end m) content)
      with (take (m_start m) content ++ slice (m_start m) (m_end m) content).
    - rewrite Hsl. unfold heading. rewrite !app_assoc. apply last_snoc.
    - unfold slice. rewrite take_take_drop. f_equal. lia. }
  pose proof (finditer_prefix _ (drop (m_end m) content) Hlast) as Hp.
  rewrite take_drop, Hms, Hlen in Hp.
  apply ordered_split in Ho as (H1 & _ & H2).
  replace (ms1 ++ m :: ms2) with ((ms1 ++ [m]) ++ ms2) in Hp
    by (by rewrite <- app_assoc).
  apply (app_split_unique (λ m', m_start m' < m_end m)) in Hp as [<- <-].
  - done.
  - apply Forall_app. split.
    + eapply Forall_impl; [done |]. cbn. lia.
    + apply Forall_singleton. done.
  - eapply Forall_impl; [apply finditer_ok |].
    intros m' (? & ? & _). cbn. lia.
  - eapply Forall_impl; [by apply ordered_from |]. cbn. lia.
  - eapply Forall_impl; [apply ordered_from, finditer_from_ordered |].
    cbn. lia.
Qed.

(** ** New content without headings *)

Lemma heading_opener_complete kd star r :
  kd ∈ KINDS → star = [] ∨ star = txt "*" →
  heading_opener (txt "\" ++ kd ++ star ++ txt "{" ++ r) = Some r.
Proof.
  intros Hkd Hstar. unfold heading_opener.
  rewrite lit_app. cbn [mbind option_bind].
  apply alt_first with kd; [done | |].
  - intros kd' Hkd' Hne.
    destruct Hstar as [-> | ->]; by apply kinds_exclusive; auto.
  - rewrite lit_app. cbn [mbind option_bind].
    unfold opt_star. destruct Hstar as [-> | ->].
    + rewrite app_nil_l, lit_star_brace. cbn [mbind option_bind].
      by rewrite lit_app.
    + rewrite lit_app. cbn [mbind option_bind]. by rewrite lit_app.
Qed.

Lemma heading_free_spec s i :
  heading_free s = true → i < length s → heading_opener (drop i s) = None.
Proof.
  unfold heading_free. rewrite forallb_forall. intros H Hi.
  specialize (H i). rewrite bool_decide_eq_true in H. apply H.
  apply in_seq. lia.
Qed.

Lemma heading_free_intro s :
  (∀ i, i < length s → heading_opener (drop i s) = None) →
  heading_free s = true.
Proof.
  intros H. unfold heading_free. rewrite forallb_forall.
  intros i [_ Hi]%in_seq. apply bool_decide_eq_true. apply H. lia.
Qed.

Lemma heading_opener_Some s r :
  heading_opener s = Some r →
  ∃ kd star, kd ∈ KINDS ∧ (star = [] ∨ star = txt "*")
    ∧ s = txt "\" ++ kd ++ star ++ txt "{" ++ r.
Proof.
  unfold heading_opener. intros H.
  destruct (lit (txt "\") s) as [s1|] eqn:E1; [|done].
  cbn [mbind option_bind] in H. apply lit_Some in E1 as ->.
  apply alt_Some in H as (kd & s2 & Hkd & -> & H).
  apply opt_star_Some in H as (star & s3 & Hstar & -> & H).
  apply lit_Some in H as ->. by exists kd, star.
Qed.

(** A text in which a heading opens stays one when text is put around
    it. *)
Lemma heading_free_middle a s b :
  heading_free (a ++ s ++ b) = true → heading_free s = true.
Proof.
  intros H. apply heading_free_intro. intros i Hi.
  assert (length a + i < length (a ++ s ++ b)) as Hlt
    by (rewrite !length_app; lia).
  pose proof (heading_free_spec _ (length a + i) H Hlt) as Hn.
  rewrite drop_app_add in Hn.
  rewrite drop_app_le in Hn by lia.
  destruct (heading_opener (drop i s)) as [r|] eqn:E; [|done].
  apply heading_opener_Some in E as (kd & star & Hkd & Hstar & E).
  rewrite E in Hn. rewrite <- !app_assoc in Hn.
  by rewrite heading_opener_complete in Hn.
Qed.

Lemma heading_free_strip s :
  heading_free s = true → heading_free (strip s) = true.
Proof.
  destruct (strip_split s) as (ws1 & ws2 & E & _). intros H.
  rewrite E in H. by apply heading_free_middle in H.
Qed.

(** Between two newlines, a text in which no heading opens holds no match,
    whatever follows. *)
Lemma no_match_in_new (n post : str) i :
  heading_free n = true → i < length ([nl] ++ n ++ [nl]) →
  SECTION_PATTERN (drop i ([nl] ++ n ++ [nl]) ++ post) = None.
Proof.
  intros Hfree Hi.
  destruct (SECTION_PATTERN _) as [[[kd t] rest]|] eqn:E; [|done]. exfalso.
  apply SECTION_PATTERN_Some in E as (Hkd & _ & _ & star & Hstar & E).
  unfold heading in E.
  destruct i as [|j]; [done |].
  cbn [app drop] in E. rewrite !length_app in Hi. cbn [length] in Hi.
  destruct (decide (j = length n)) as [-> | Hj].
  { rewrite drop_app_length in E. done. }
  rewrite drop_app_le in E by lia.
  pose proof (heading_free_spec _ j Hfree ltac:(lia)) as Hn.
  rewrite <- !app_assoc in E.
  set (op := txt "\" ++ kd ++ star ++ txt "{") in *.
  assert (drop j n ++ [nl] ++ post
          = op ++ t ++ txt "}" ++ rest) as E'
    by (unfold op; by rewrite <- !app_assoc).
  clear E. apply app_eq_app in E' as [l [[E1 E2] | [E1 E2]]].
  - rewrite E1 in Hn. unfold op in Hn. rewrite <- !app_assoc in Hn.
    by rewrite heading_opener_complete in Hn.
  - destruct l as [|c l].
    + rewrite app_nil_r in E1. rewrite <- E1 in Hn. unfold op in Hn.
      rewrite <- (app_nil_r (txt "{")) in Hn.
      by rewrite heading_opener_complete in Hn.
    + injection E2 as <- _.
      assert (nl ∈ op) as Hin by (rewrite E1; apply elem_of_app; right; left).
      by destruct (opener_chars kd star nl Hkd Hstar Hin).
Qed.

(** ** The document after an update *)

Lemma find_section_link_intro content ms1 m ms2 t :
  (∀ m1, m1 ∈ ms1 → lower (group2 m1) ≠ lower t) →
  lower (group2 m) = lower t →
  find_section (link content (ms1 ++ m :: ms2)) t
    = Some (make_section content m (next_start content ms2)).
Proof.
  intros Hfirst Hm. unfold find_section.
  induction ms1 as [|m0 ms1 IH]; cbn [app link List.find].
  - unfold title_matches at 1. cbn [make_section title].
    by rewrite bool_decide_eq_true_2.
  - unfold title_matches at 1. cbn [make_section title].
    rewrite bool_decide_eq_false_2 by (apply Hfirst; left).
    apply IH. intros m1 Hm1. apply Hfirst. by right.
Qed.

Lemma next_start_post (out content : str) (ms2 : list Match) pos :
  Forall (match_ok content) ms2 →
  length out = pos + length (drop (next_start content ms2) content) →
  next_start out
    (finditer_from pos 0 (drop (next_start content ms2) content)) = pos.
Proof.
  intros Hok Hlen. destruct ms2 as [|m2 ms2]; cbn [next_start] in *.
  - rewrite drop_all in *. cbn in *. lia.
  - apply Forall_cons in Hok as [(_ & _ & Hp) _].
    destruct (drop (m_start m2) content) as [|c r] eqn:E; [done |].
    cbn [finditer_from]. by rewrite Hp.
Qed.

(** Between the end of a match and the start of the next one, no match
    starts. *)
Lemma finditer_from_gap content ms1 m ms2 :
  finditer content = ms1 ++ m :: ms2 →
  ms2 = finditer_from (next_start content ms2) 0
          (drop (next_start content ms2) content)
  ∧ m_end m ≤ next_start content ms2
  ∧ next_start content ms2 ≤ length content.
Proof.
  intros Hms.
  pose proof (finditer_ordered content) as Ho. rewrite Hms in Ho.
  pose proof (finditer_ok content) as Hok. rewrite Hms in Hok.
  destruct (finditer_prefix_of _ _ _ _ Hms) as (_ & H2 & _ & Hle).
  apply ordered_split in Ho as (H1 & Hlt & Ho2).
  apply Forall_app in Hok as [_ Hok]. apply Forall_cons in Hok as [_ Hok2].
  destruct (next_start_bounds content m ms2 Ho2 Hok2 Hle) as [Hlo Hhi].
  split; [|done].
  set (ns := next_start content ms2) in *.
  rewrite <- H2 at 1.
  rewrite <- (take_drop (ns - m_end m) (drop (m_end m) content)) at 1.
  rewrite finditer_from_none.
  - rewrite length_take, length_drop, drop_drop. f_equal; [lia | f_equal; lia].
  - intros i Hi. rewrite length_take, length_drop in Hi.
    rewrite <- drop_app_le by (rewrite length_take, length_drop; lia).
    rewrite take_drop, drop_drop.
    destruct (SECTION_PATTERN _) as [x|] eqn:E; [|done]. exfalso.
    destruct (finditer_from_complete content content 0 0 (m_end m + i))
      as (m' & Hin & Hs & He); [done | lia | by rewrite E |].
    fold (finditer content) in Hin. rewrite Hms in Hin.
    apply elem_of_app in Hin as [Hin | Hin].
    + rewrite Forall_forall in H1. specialize (H1 _ Hin).
      pose proof (finditer_ordered content) as Ho. rewrite Hms in Ho.
      assert (m' ∈ ms1 ++ m :: ms2) as Hin' by (apply elem_of_app; by left).
      destruct (ordered_before _ _ _ _ _ Ho Hin' H1). lia.
    + apply elem_of_cons in Hin as [-> | Hin]; [lia |].
      destruct ms2 as [|m2 ms2']; [by apply elem_of_nil in Hin |].
      destruct (ordered_elem _ _ _ Ho2 Hin) as [_ ?].
      cbn [next_start] in ns. subst ns.
      apply elem_of_cons in Hin as [-> | Hin]; [lia |].
      destruct Ho2 as (_ & ? & Ho2).
      destruct (ordered_elem _ _ _ Ho2 Hin). lia.
Qed.

Lemma finditer_from_groups s pos pos' skip :
  map (λ m, (group1 m, group2 m)) (finditer_from pos skip s)
  = map (λ m, (group1 m, group2 m)) (finditer_from pos' skip s).
Proof.
  revert pos pos' skip. induction s as [|c r IH]; intros pos pos' skip; [done |].
  cbn [finditer_from]. destruct skip as [|skip]; [|apply IH].
  destruct (SECTION_PATTERN (c :: r)) as [[[kd t] rest]|]; [|apply IH].
  cbn [map group1 group2]. f_equal. apply IH.
Qed.

Lemma link_groups content ms :
  map (λ s, (type s, title s)) (link content ms)
  = map (λ m, (group1 m, group2 m)) ms.
Proof. induction ms as [|m ms IH]; [done |]. cbn. by f_equal. Qed.

(** What an update with heading-free new content does to the scan. *)
Lemma update_scan content t new_content s header_end out :
  find_section (parse_sections content) t = Some s →
  re_search (type s) (title s) content = Some (start_pos s, header_end) →
  heading_free new_content = true →
  update_section_text content t new_content = NewFileContent out →
  ∃ ms1 m ms2 tail,
    finditer content = ms1 ++ m :: ms2 ∧
    finditer out = ms1 ++ m :: tail ∧
    (∀ m1, m1 ∈ ms1 → lower (group2 m1) ≠ lower t) ∧
    lower (group2 m) = lower t ∧
    type s = group1 m ∧ title s = group2 m ∧
    start_pos s = m_start m ∧ header_end = m_end m ∧
    m_start m < m_end m ∧
    end_pos s = next_start content ms2 ∧
    m_end m ≤ end_pos s ∧ end_pos s ≤ length content ∧
    out = take header_end content ++ ([nl] ++ strip new_content ++ [nl])
          ++ drop (end_pos s) content ∧
    next_start out tail
      = header_end + length ([nl] ++ strip new_content ++ [nl]) ∧
    map (λ m, (group1 m, group2 m)) tail
      = map (λ m, (group1 m, group2 m)) ms2.
Proof.
  intros Hf Hs Hfree Hu.
  unfold update_section_text in Hu. rewrite Hf, Hs in Hu.
  injection Hu as <-.
  pose proof Hf as Hf'. rewrite parse_sections_link in Hf'.
  destruct (find_section_link _ _ _ _ Hf') as (ms1 & m & ms2 & Hms & Hsm & Hfirst).
  apply find_section_Some in Hf' as [_ Hlow].
  destruct (find_section_from _ _ _ Hf) as (m' & _ & Hm').
  pose proof (header_rematch_own _ _ _ _ Hm' Hs) as Hhe.
  assert (m_end m' = m_end m) as Hmm.
  { destruct Hm' as (_ & _ & Hst & _ & _ & _ & Hle' & Hp).
    pose proof (finditer_ok content) as Hok. rewrite Hms in Hok.
    apply Forall_app in Hok as [_ Hok]. apply Forall_cons in Hok as [Hm _].
    destruct Hm as (? & ? & Hp').
    rewrite Hsm in Hst. cbn [make_section start_pos] in Hst.
    rewrite <- Hst, Hp' in Hp. injection Hp as _ _ Hd.
    apply (f_equal length) in Hd. rewrite !length_drop in Hd. lia. }
  rewrite Hmm in Hhe. clear m' Hm' Hmm.
  destruct (finditer_prefix_of _ _ _ _ Hms) as (Hpre & _ & Hlast & Hle).
  destruct (finditer_from_gap _ _ _ _ Hms) as (Hgap & Hlo & Hhi).
  pose proof (finditer_ordered content) as Ho. rewrite Hms in Ho.
  apply ordered_split in Ho as (_ & Hlt & _).
  assert (end_pos s = next_start content ms2) as Hend by (by rewrite Hsm).
  assert (length (take (m_end m) content) = m_end m) as Hlen
    by (rewrite length_take; lia).
  set (mid := [nl] ++ strip new_content ++ [nl]).
  set (post := drop (end_pos s) content).
  exists ms1, m, ms2,
    (finditer_from (m_end m + length mid) 0 post).
  split; [done |]. split.
  { rewrite Hhe.
    assert (nl :: strip new_content ++ nl :: post = mid ++ post) as ->
      by (unfold mid; by rewrite <- !app_assoc).
    rewrite (finditer_prefix (take (m_end m) content) (mid ++ post)) by done.
    rewrite Hpre, Hlen. rewrite (finditer_from_none mid post).
    - by rewrite <- app_assoc.
    - intros i Hi. apply no_match_in_new; [|done].
      by apply heading_free_strip. }
  split; [done |]. split; [by rewrite Hsm in Hlow |].
  split; [by rewrite Hsm |]. split; [by rewrite Hsm |].
  split; [by rewrite Hsm |]. split; [done |]. split; [done |].
  split; [done |]. split; [lia |]. split; [lia |].
  split; [unfold mid; by rewrite <- !app_assoc |].
  split.
  - rewrite Hhe. unfold post. rewrite Hend. apply next_start_post.
    + pose proof (finditer_ok content) as Hok. rewrite Hms in Hok.
      apply Forall_app in Hok as [_ Hok]. by apply Forall_cons in Hok as [_ ?].
    + rewrite <- Hend. fold post.
      assert (nl :: strip new_content ++ nl :: post = mid ++ post) as ->
        by (unfold mid; by rewrite <- !app_assoc).
      rewrite !length_app, Hlen. lia.
  - transitivity
      (map (λ m, (group1 m, group2 m))
           (finditer_from (next_start content ms2) 0
                          (drop (next_start content ms2) content))).
    + unfold post. rewrite Hend. apply finditer_from_groups.
    + by rewrite <- Hgap.
Qed.

Lemma slice_app_middle (pre mid post : str) a :
  a ≤ length pre →
  slice a (length pre + length mid) (pre ++ mid ++ post) = drop a pre ++ mid.
Proof.
  intros Ha. unfold slice. rewrite drop_app_le by done.
  rewrite app_assoc. apply take_app_length'.
  rewrite length_app, length_drop. lia.
Qed.

Lemma slice_of_take a b (s : str) :
  a ≤ b → drop a (take b s) = slice a b s.
Proof.
  intros Hab. unfold slice. rewrite take_drop_commute. do 2 f_equal. lia.
Qed.

(** The header search on a document that keeps the text up to the end of
    the heading it found lands on the same heading. *)
Lemma re_search_prefix content ms1 m ms2 x :
  finditer content = ms1 ++ m :: ms2 →
  re_search (group1 m) (group2 m) content = Some (m_start m, m_end m) →
  re_search (group1 m) (group2 m) (take (m_end m) content ++ x)
    = Some (m_start m, m_end m).
Proof.
  intros Hms Hs.
  destruct (finditer_prefix_of _ _ _ _ Hms) as (_ & _ & Hlast & Hle).
  pose proof (finditer_ok content) as Hok. rewrite Hms in Hok.
  apply Forall_app in Hok as [_ Hok]. apply Forall_cons in Hok as [Hm _].
  destruct (match_ok_text _ _ Hm) as (star & Hstar & _ & Hend & Hsl).
  destruct Hm as (Hlt & _ & Hp).
  apply SECTION_PATTERN_Some in Hp as Hshape.
  destruct Hshape as (Hkd & Ht & Hnt & _).
  set (pre := take (m_end m) content) in *.
  assert (length pre = m_end m) as Hlen by (unfold pre; rewrite length_take; lia).
  assert (drop (m_start m) pre = heading (group1 m) star (group2 m)) as Hown.
  { unfold pre. rewrite slice_of_take by lia. done. }
  assert (header_pattern (group1 m) (group2 m) (drop (m_start m) (pre ++ x))
          = Some x) as Hhere.
  { rewrite drop_app_le by lia. rewrite Hown.
    apply header_pattern_Some. by exists star. }
  destruct (re_search_from_found 0 _ _ _ _ _ Hhere) as (a & b & Hab & Ha).
  unfold re_search. rewrite Hab. f_equal.
  apply re_search_from_Some in Hab as (rest & _ & _ & Hpa & -> & _).
  rewrite Nat.sub_0_r in *.
  apply re_search_from_Some in Hs as (_ & _ & _ & _ & _ & Hmin).
  rewrite Nat.sub_0_r in Hmin.
  assert (a = m_start m) as ->.
  { destruct (decide (a = m_start m)) as [|Hne]; [done |]. exfalso.
    assert (a < m_start m) as Halt by lia.
    apply header_pattern_Some in Hpa as (star' & Hstar' & Hpa).
    assert (SECTION_PATTERN (drop a pre ++ x)
            = Some (group1 m, group2 m, rest)) as Hsp.
    { rewrite <- drop_app_le by lia. rewrite Hpa.
      by apply SECTION_PATTERN_complete. }
    apply pattern_within in Hsp as (rest' & _ & Hsp); [|done | lia].
    apply (SECTION_PATTERN_app _ (drop (m_end m) content)) in Hsp.
    rewrite <- drop_app_le in Hsp by lia. unfold pre in Hsp.
    rewrite take_drop in Hsp. apply header_pattern_of_match in Hsp.
    rewrite (Hmin a Halt) in Hsp. done. }
  rewrite Hhere in Hpa. injection Hpa as <-.
  f_equal. rewrite length_drop, length_app. lia.
Qed.

(** X26. What [update_section] writes is what [get_section_by_title] reads
    back.  When the header search lands on the section's own heading and no
    heading command opens in the new content, the section found under the
    same title in the new document is the old heading followed by the
    trimmed new content between two newlines. *)
Theorem update_then_get_section (content t new_content : str) (s : Section)
    (header_end : nat) (out : str) :
  find_section (parse_sections content) t = Some s →
  re_search (type s) (title s) content = Some (start_pos s, header_end) →
  heading_free new_content = true →
  update_section_text content t new_content = NewFileContent out →
  get_section_by_title out t
    = Some (slice (start_pos s) header_end content
            ++ [nl] ++ strip new_content ++ [nl]).
Proof.
  intros Hf Hs Hfree Hu.
  destruct (update_scan _ _ _ _ _ _ Hf Hs Hfree Hu)
    as (ms1 & m & ms2 & tail & Hms & Hout & Hfirst & Hlow & Hty & Hti & Hst
        & Hhe & Hlt & Hend & Hlo & Hhi & Ho & Hns & Hg).
  unfold get_section_by_title. rewrite parse_sections_link, Hout.
  rewrite (find_section_link_intro _ _ _ _ _ Hfirst Hlow).
  cbn [mbind option_bind make_section start_pos end_pos].
  rewrite Hns, Hst. f_equal.
  assert (length (take header_end content) = header_end) as Hlen
    by (rewrite length_take; lia).
  rewrite Ho. rewrite <- Hlen at 1.
  rewrite slice_app_middle by lia. by rewrite slice_of_take by lia.
Qed.

(** X27. Under the same conditions an update is idempotent: the same call
    on the document that it produced produces that document again. *)
Theorem update_section_idempotent (content t new_content : str)
    (s : Section) (header_end : nat) (out : str) :
  find_section (parse_sections content) t = Some s →
  re_search (type s) (title s) content = Some (start_pos s, header_end) →
  heading_free new_content = true →
  update_section_text content t new_content = NewFileContent out →
  update_section_text out t new_content = NewFileContent out.
Proof.
  intros Hf Hs Hfree Hu.
  destruct (update_scan _ _ _ _ _ _ Hf Hs Hfree Hu)
    as (ms1 & m & ms2 & tail & Hms & Hout & Hfirst & Hlow & Hty & Hti & Hst
        & Hhe & Hlt & Hend & Hlo & Hhi & Ho & Hns & Hg).
  rewrite Hty, Hti, Hst, Hhe in Hs.
  assert (length (take header_end content) = header_end) as Hlen
    by (rewrite length_take; lia).
  assert (re_search (group1 m) (group2 m) out = Some (m_start m, m_end m))
    as Hs'.
  { rewrite Ho, Hhe. by apply re_search_prefix with ms1 ms2. }
  assert (take header_end out = take header_end content) as Htake.
  { rewrite Ho at 1. by apply take_app_length'. }
  assert (drop (header_end + length ([nl] ++ strip new_content ++ [nl])) out
          = drop (end_pos s) content) as Hdrop.
  { rewrite Ho at 1. rewrite (app_assoc (take header_end content)).
    apply drop_app_length'.
    by rewrite (length_app (take header_end content)), Hlen. }
  unfold update_section_text. rewrite parse_sections_link, Hout.
  rewrite (find_section_link_intro _ _ _ _ _ Hfirst Hlow).
  cbn [make_section type title end_pos].
  rewrite Hs', Hns, <- Hhe, Htake, Hdrop. f_equal.
  rewrite Ho. by rewrite <- !app_assoc.
Qed.

(** X28. Under the same conditions an update keeps the headings of the
    document: the new document has the same heading commands with the same
    titles, in the same order. *)
Theorem update_section_keeps_headings (content t new_content : str)
    (s : Section) (header_end : nat) (out : str) :
  find_section (parse_sections content) t = Some s →
  re_search (type s) (title s) content = Some (start_pos s, header_end) →
  heading_free new_content = true →
  update_section_text content t new_content = NewFileContent out →
  headings out = headings content.
Proof.
  intros Hf Hs Hfree Hu.
  destruct (update_scan _ _ _ _ _ _ Hf Hs Hfree Hu)
    as (ms1 & m & ms2 & tail & Hms & Hout & _ & _ & _ & _ & _ & _ & _ & _ & _
        & _ & _ & _ & Hg).
  unfold headings. rewrite !parse_sections_link, !link_groups, Hout, Hms.
  rewrite !map_app. cbn [map]. by rewrite Hg.
Qed.

Lemma update_then_get_section_witness :
  get_section_by_title doc_updated (txt "intro")
  = Some (slice 0 15 doc_intro ++ [nl] ++ strip new_body ++ [nl]).
Proof.
  apply (update_then_get_section doc_intro (txt "intro") new_body
           (mkSection (txt "section") (txt "Intro") (txt "Hello") 0 22) 15
           doc_updated);
    vm_compute; reflexivity.
Defined.

Lemma update_section_idempotent_witness :
  update_section_text doc_updated (txt "intro") new_body
  = NewFileContent doc_updated.
Proof.
  apply (update_section_idempotent doc_intro (txt "intro") new_body
           (mkSection (txt "section") (txt "Intro") (txt "Hello") 0 22) 15
           doc_updated);
    vm_compute; reflexivity.
Defined.

Lemma update_section_keeps_headings_witness :
  headings doc_updated = headings doc_intro.
Proof.
  apply (update_section_keeps_headings doc_intro (txt "intro") new_body
           (mkSection (txt "section") (txt "Intro") (txt "Hello") 0 22) 15
           doc_updated);
    vm_compute; reflexivity.
Defined.

(** ** Synchronisation *)



(** ** The query string of [create_project] *)

Lemma hex_digit_safe n : is_safe (hex_digit n) = true.
Proof.
  unfold hex_digit. do 16 (destruct n as [|n]; [reflexivity |]).
  by destruct n.
Qed.

Lemma quote_byte_chars b c :
  c ∈ quote_byte b → is_safe c = true ∨ c = "%"%char.
Proof.
  unfold quote_byte. destruct (is_safe b) eqn:E.
  - intros ->%list_elem_of_singleton. by left.
  - rewrite !elem_of_cons, elem_of_nil.
    intros [-> | [-> | [-> | []]]]; [by right | left..]; apply hex_digit_safe.
Qed.

Lemma quote_chars s c : c ∈ quote s → is_safe c = true ∨ c = "%"%char.
Proof.
  unfold quote. intros H%list_elem_of_In. apply in_flat_map in H as (b & _ & Hc).
  apply (quote_byte_chars b). by apply list_elem_of_In.
Qed.

Lemma quote_free s (c : ascii) :
  is_safe c = false → c ≠ "%"%char → c ∉ quote s.
Proof. intros Hs Hp [H | H]%quote_chars; congruence. Qed.

Lemma split_on_free c s : c ∉ s → split_on c s = [s].
Proof.
  induction s as [|x r IH]; [done |]. intros [Hx Hr]%not_elem_of_cons.
  cbn [split_on]. rewrite decide_False by done. by rewrite IH.
Qed.

Lemma split_on_app c a b :
  c ∉ a → split_on c (a ++ c :: b) = a :: split_on c b.
Proof.
  induction a as [|x r IH]; intros Ha.
  - cbn [app split_on]. by rewrite decide_True.
  - apply not_elem_of_cons in Ha as [Hx Hr]. cbn [app split_on].
    rewrite decide_False by done. by rewrite IH.
Qed.

Lemma split_on_join c fields :
  fields ≠ [] → Forall (λ f, c ∉ f) fields →
  split_on c (join [c] fields) = fields.
Proof.
  induction fields as [|f rest IH]; [done |]. intros _ Hf.
  apply Forall_cons in Hf as [Hc Hrest]. destruct rest as [|g rest].
  - cbn [join]. by apply split_on_free.
  - change (join [c] (f :: g :: rest)) with (f ++ c :: join [c] (g :: rest)).
    rewrite split_on_app by done. f_equal. by apply IH.
Qed.

Lemma field_split kv :
  "="%char ∉ kv.1 →
  split_on "="%char (field kv) = [kv.1; quote kv.2].
Proof.
  intros Hk. unfold field. change (txt "=" ++ quote kv.2)
    with ("="%char :: quote kv.2).
  rewrite split_on_app by done. f_equal.
  apply split_on_free. by apply quote_free.
Qed.

Lemma form_data_keys content project_name engine is_zip kv :
  kv ∈ form_data content project_name engine is_zip →
  kv.1 = txt "snip_uri" ∨ kv.1 = txt "engine" ∨ kv.1 = txt "snip_name".
Proof.
  unfold form_data. rewrite elem_of_app, !elem_of_cons, elem_of_nil.
  intros [[-> | [-> | []]] | H]; [by left | by right; left |].
  destruct (truthy project_name); [|by apply elem_of_nil in H].
  apply list_elem_of_singleton in H as ->. by right; right.
Qed.

Lemma join_chars (P : ascii → Prop) sep fields :
  Forall P sep → Forall (Forall P) fields → Forall P (join sep fields).
Proof.
  intros Hsep. induction fields as [|f rest IH]; intros Hf; [done |].
  apply Forall_cons in Hf as [Hf Hrest]. destruct rest as [|g rest]; [done |].
  change (join sep (f :: g :: rest)) with (f ++ sep ++ join sep (g :: rest)).
  rewrite !Forall_app. split; [done |]. split; [done |]. by apply IH.
Qed.

(** X30. The query string that [create_project] builds parses back into
    the fields of its form data.  The answer holds the URL of the service, a
    question mark and the query, which ends at the next newline.  Whatever
    the content, the project name and the engine hold, splitting the query
    at [&] gives one field for [snip_uri], one for [engine] and, when a
    project name is given, one for [snip_name], in this order; each field
    splits at [=] into its key and the quoted value; and every character of
    the query is one that [quote] leaves alone or one of [%], [&] and
    [=]. *)
Theorem create_project_query (arguments : Arguments) (engine : option str)
    (is_zip : option bool) (content : str) :
  arg_content arguments = Some content →
  let fd := form_data content (arg_project_name arguments)
                      (default (txt "pdflatex") engine)
                      (default false is_zip) in
  (∃ rest,
     create_project_tool arguments engine is_zip
       = Ok (txt "To create the project, open this URL in your browser:"
             ++ [nl; nl] ++ OVERLEAF_API_URL ++ txt "?" ++ params fd
             ++ nl :: rest)) ∧
  map fst fd
    = [txt "snip_uri"; txt "engine"]
      ++ (if truthy (arg_project_name arguments)
          then [txt "snip_name"] else []) ∧
  split_on "&"%char (params fd) = map field fd ∧
  (∀ kv, kv ∈ fd → split_on "="%char (field kv) = [kv.1; quote kv.2]) ∧
  Forall (λ c, is_safe c = true ∨ c ∈ txt "%&=") (params fd).
Proof.
  intros Hcontent. cbv zeta.
  split; [unfold create_project_tool; rewrite Hcontent; by eexists |].
  generalize (arg_project_name arguments) (default (txt "pdflatex") engine)
    (default false is_zip).
  clear. intros project_name engine is_zip.
  assert (∀ kv, kv ∈ form_data content project_name engine is_zip →
            Forall (λ c, is_safe c = true ∨ c = "="%char) kv.1
            ∧ ("="%char ∉ kv.1)) as Hkey.
  { intros kv Hkv%form_data_keys.
    destruct kv as [k v]. cbn [fst] in *.
    destruct Hkv as [-> | [-> | ->]]; split;
      try (intros H%list_elem_of_In; cbn in H; intuition discriminate);
      repeat (apply Forall_cons; split; [by left |]); apply Forall_nil_2. }
  assert (∀ kv, kv ∈ form_data content project_name engine is_zip →
            Forall (λ c, is_safe c = true ∨ c ∈ txt "%=") (field kv)) as Hf.
  { intros kv Hkv. destruct (Hkey kv Hkv) as [Hk _]. unfold field.
    rewrite !Forall_app. split; [|split].
    - eapply Forall_impl; [done |]. intros c [? | ->]; [by left |].
      right. apply list_elem_of_In. cbn. tauto.
    - apply Forall_singleton. right. apply list_elem_of_In. cbn. tauto.
    - apply Forall_forall. intros c [? | ->]%quote_chars; [by left |].
      right. apply list_elem_of_In. cbn. tauto. }
  split; [unfold form_data; by destruct (truthy project_name) |].
  split; [|split].
  - unfold params. apply split_on_join.
    + unfold form_data. done.
    + apply Forall_map, Forall_forall. intros kv Hkv. cbn.
      specialize (Hf kv Hkv). rewrite Forall_forall in Hf.
      intros [H | H]%Hf; [done |].
      apply list_elem_of_In in H. cbn in H. intuition discriminate.
  - intros kv Hkv. apply field_split. by destruct (Hkey kv Hkv).
  - unfold params. apply join_chars.
    + apply Forall_singleton. right. apply list_elem_of_In. cbn. tauto.
    + apply Forall_map, Forall_forall. intros kv Hkv. cbn.
      eapply Forall_impl; [by apply Hf |]. intros c [? | H]; [by left |].
      right. apply list_elem_of_In in H. apply list_elem_of_In.
      cbn in *. tauto.
Qed.

Lemma create_project_query_witness :
  let arguments :=
    mkArguments (Some (txt "My Paper")) None (Some (txt "a&b=c"))
                None None None None None in
  let fd := form_data (txt "a&b=c") (Some (txt "My Paper")) (txt "pdflatex")
                      false in
  (∃ rest,
     create_project_tool arguments None None
       = Ok (txt "To create the project, open this URL in your browser:"
             ++ [nl; nl] ++ OVERLEAF_API_URL ++ txt "?" ++ params fd
             ++ nl :: rest)) ∧
  map fst fd
    = [txt "snip_uri"; txt "engine"]
      ++ (if truthy (Some (txt "My Paper")) then [txt "snip_name"] else []) ∧
  split_on "&"%char (params fd) = map field fd ∧
  (∀ kv, kv ∈ fd → split_on "="%char (field kv) = [kv.1; quote kv.2]) ∧
  Forall (λ c, is_safe c = true ∨ c ∈ txt "%&=") (params fd).
Proof.
  cbv zeta.
  apply (create_project_query
           (mkArguments (Some (txt "My Paper")) None (Some (txt "a&b=c"))
                        None None None None None) None None (txt "a&b=c")).
  reflexivity.
Defined.
